(** * The link-based cellular automaton of landlab (link_ca.py)

    A shallow embedding of [landlab/components/linkca/link_ca.py]:
    the link-state codec, the validation and normalisation of the
    transition list, the transition tables, the event sampler and the
    event loop of [LinkCellularAutomaton].

    Conventions of the embedding.
    - Python integers are [Z]; NumPy arrays and Python lists are Coq lists
      indexed by [Z], with Python's wrap-around of negative indices and an
      [IndexError] out of range. A Python integer written into a NumPy
      integer array must fit its 64 bits, or [OverflowError] is raised.
    - Simulation times and rates are exact rationals [Q]; the rounding of
      floating-point arithmetic is not modelled.
    - A raised exception is the [Raise] result of the [res] monad.
    - The process-wide generator behind [numpy.random.exponential] and the
      [heapq] module are libraries outside the repository: they are
      interfaces ([RandomSource], [HeapQ]) with the contract the engine
      relies on, and a reference instance of each is given to run the
      model on concrete inputs.
    - [Transition] objects live in a store addressed by references, because
      the constructor writes into the caller's objects.
    - Left out: the plotting ([CAPlotter], [plot_each_transition]), the
      debugging output under [_DEBUG], and [update_component_data], which
      translates the grid between calls of [run]. *)

From Stdlib Require Import ZArith QArith Lia Lqa Permutation.
From stdpp Require Import base option list gmap strings.

Local Open Scope Z_scope.

(** ** Exceptions and the result monad *)

Inductive exn : Type :=
  | AssertionError
  | KeyError
  | IndexError
  | TypeError
  | ValueError
  | OverflowError
  | DanglingRef   (* a reference absent from the object store: no Python counterpart *)
  | OutOfFuel.    (* the loop was cut by the fuel of the model: no Python counterpart *)

Inductive res (A : Type) : Type :=
  | Ok (a : A)
  | Raise (e : exn).
Arguments Ok {A} a.
Arguments Raise {A} e.

#[global] Instance res_ret : MRet res := λ A a, Ok a.
#[global] Instance res_bind : MBind res := λ A B f m,
  match m with Ok a => f a | Raise e => Raise e end.

Definition assert (b : bool) : res unit :=
  if b then Ok tt else Raise AssertionError.

Definition is_ok {A} (r : res A) : bool :=
  match r with Ok _ => true | Raise _ => false end.

(** ** Arrays indexed the way Python indexes them *)

Definition norm_index (n : nat) (i : Z) : option nat :=
  if (0 <=? i) && (i <? Z.of_nat n) then Some (Z.to_nat i)
  else if (- Z.of_nat n <=? i) && (i <? 0) then Some (Z.to_nat (Z.of_nat n + i))
  else None.

Definition getitem {A} (l : list A) (i : Z) : res A :=
  match norm_index (length l) i with
  | Some k => match l !! k with Some x => Ok x | None => Raise IndexError end
  | None => Raise IndexError
  end.

Definition setitem {A} (l : list A) (i : Z) (x : A) : res (list A) :=
  match norm_index (length l) i with
  | Some k => Ok (<[k:=x]> l)
  | None => Raise IndexError
  end.

(** [a[i][j]] and [a[i][j] = x] on a two-dimensional array. *)
Definition getitem2 {A} (a : list (list A)) (i j : Z) : res A :=
  row ← getitem a i; getitem row j.

Definition setitem2 {A} (a : list (list A)) (i j : Z) (x : A) : res (list (list A)) :=
  row ← getitem a i; row' ← setitem row j x; setitem a i row'.

(** [a[:, j]]: column [j] of a two-dimensional array. *)
Definition column {A} (a : list (list A)) (j : Z) : res (list A) :=
  mapM (M := res) (λ row, getitem row j) a.

(** [range(n)] *)
Definition range (n : Z) : list Z := seqZ 0 n.

(** [numpy.zeros(n)] *)
Definition zeros {A} (z : A) (n : Z) : list A := replicate (Z.to_nat n) z.

(** ** The link-state codec *)

Abbreviation triple := (Z * Z * Z)%type.

Abbreviation codec := (gmap triple Z * list triple * Z)%type.

(** The body of the innermost loop of
    [create_link_state_dict_and_pair_list]. *)
Definition codec_step (orientation fromstate : Z) (st : codec) (tostate : Z) : codec :=
  let '(link_state_dict, cell_pair, k) := st in
  (<[(fromstate, tostate, orientation) := k]> link_state_dict,
   cell_pair ++ [(fromstate, tostate, orientation)],
   k + 1).

Definition create_link_state_dict_and_pair_list (num_node_states : Z) : codec :=
  foldl (λ st orientation,
    foldl (λ st fromstate,
      foldl (codec_step orientation fromstate) st (range num_node_states))
      st (range num_node_states))
    (∅, [], 0) (range 2).

(** [self.link_state_dict[key]] *)
Definition dict_get (d : gmap triple Z) (key : triple) : res Z :=
  match d !! key with Some v => Ok v | None => Raise KeyError end.

(** ** Python values, transitions and events *)

(** A link state as the caller may give it: an integer id, or a tuple
    (from-node state, to-node state, orientation). *)
Inductive pyval : Type :=
  | PInt (z : Z)
  | PTuple (items : list Z).

Record Transition : Type := mkTransition {
  from_state : pyval;
  to_state : pyval;
  rate : Q;
  name : option string }.

Definition Qlt_bool (a b : Q) : bool := negb (Qle_bool b a).

(** The class [Event]; [xn_to] is [None] when the Python attribute holds
    [None]. *)
Module Event.
Record t : Type := mk {
  time : Q;
  link : Z;
  xn_to : option Z }.

Definition __lt__ (self other : t) : bool := Qlt_bool (time self) (time other).
End Event.

Definition _NEVER : Q := 1000000000000 # 1.

(** [landlab.grid.base] is not among the sources; landlab sets
    [CORE_NODE = 0], and the engine only compares node statuses with it. *)
Definition CORE_NODE : Z := 0.

(** The object store: [Transition] objects addressed by reference. *)
Abbreviation store := (list Transition).

Definition deref (σ : store) (r : nat) : res Transition :=
  match σ !! r with Some t => Ok t | None => Raise DanglingRef end.

Definition set_from_state (σ : store) (r : nat) (v : pyval) : res store :=
  t ← deref σ r;
  Ok (<[r := mkTransition v (to_state t) (rate t) (name t)]> σ).

Definition set_to_state (σ : store) (r : nat) (v : pyval) : res store :=
  t ← deref σ r;
  Ok (<[r := mkTransition (from_state t) v (rate t) (name t)]> σ).

(** ** The libraries the engine calls *)

(** [random_exponential rate g] is the call
    [numpy.random.exponential(1.0/rate)] made when the process-wide
    generator is in state [g]: the waiting time drawn and the next state of
    the generator, or the exception NumPy raises. *)
Class RandomSource : Type := {
  rng : Type;
  random_exponential : Q → rng → res (Q * rng) }.

(** What the engine relies on: a waiting time is never negative. *)
Definition RandomSource_ok (R : RandomSource) : Prop :=
  ∀ r g x g', random_exponential r g = Ok (x, g') → (0 <= x)%Q.

(** [heapq.heappush] and [heapq.heappop] on a Python list of events. *)
Class HeapQ : Type := {
  heappush : list Event.t → Event.t → list Event.t;
  heappop : list Event.t → res (Event.t * list Event.t) }.

(** The contract of [heapq]: the lists it maintains ([is_heap]) keep their
    elements, and [heappop] removes an element no later than the others. *)
Record HeapQ_ok (H : HeapQ) (is_heap : list Event.t → Prop) : Prop := {
  heap_nil : is_heap [];
  heappush_heap : ∀ h e, is_heap h → is_heap (heappush h e);
  heappush_perm : ∀ h e, is_heap h → Permutation (heappush h e) (e :: h);
  heappop_nonempty : ∀ h, is_heap h → h ≠ [] → is_ok (heappop h) = true;
  heappop_heap : ∀ h e h', is_heap h → heappop h = Ok (e, h') → is_heap h';
  heappop_perm : ∀ h e h', is_heap h → heappop h = Ok (e, h') → Permutation h (e :: h');
  heappop_min : ∀ h e h', is_heap h → heappop h = Ok (e, h') →
                 Forall (λ x, (Event.time e <= Event.time x)%Q) h' }.

(** ** The grid *)

(** The attributes of [RasterModelGrid] the engine reads;
    [active_node_links] is the array returned by the method of that name. *)
Record RasterModelGrid : Type := mkGrid {
  number_of_nodes : Z;
  number_of_active_links : Z;
  number_of_node_columns : Z;
  number_of_node_rows : Z;
  activelink_fromnode : list Z;
  activelink_tonode : list Z;
  active_links : list Z;
  node_status : list Z;
  active_node_links : list (list Z) }.

(** ** The engine *)

Record LinkCellularAutomaton : Type := mkLCA {
  grid : RasterModelGrid;
  node_active_links : list (list Z);
  node_state : list Z;
  current_time : Q;
  num_node_states : Z;
  num_link_states : Z;
  event_queue : list Event.t;
  next_update : list Q;
  link_state_dict : gmap triple Z;
  cell_pair : list triple;
  number_of_vertical_links : Z;
  link_state : list Z;
  n_xn : list Z;
  xn_to : list (list Z);
  xn_rate : list (list Q) }.

Definition set_node_state (self : LinkCellularAutomaton) (v : list Z) :=
  mkLCA (grid self) (node_active_links self) v (current_time self)
    (num_node_states self) (num_link_states self) (event_queue self)
    (next_update self) (link_state_dict self) (cell_pair self)
    (number_of_vertical_links self) (link_state self) (n_xn self) (xn_to self)
    (xn_rate self).

Definition set_current_time (self : LinkCellularAutomaton) (v : Q) :=
  mkLCA (grid self) (node_active_links self) (node_state self) v
    (num_node_states self) (num_link_states self) (event_queue self)
    (next_update self) (link_state_dict self) (cell_pair self)
    (number_of_vertical_links self) (link_state self) (n_xn self) (xn_to self)
    (xn_rate self).

Definition set_event_queue (self : LinkCellularAutomaton) (v : list Event.t) :=
  mkLCA (grid self) (node_active_links self) (node_state self) (current_time self)
    (num_node_states self) (num_link_states self) v
    (next_update self) (link_state_dict self) (cell_pair self)
    (number_of_vertical_links self) (link_state self) (n_xn self) (xn_to self)
    (xn_rate self).

Definition set_next_update (self : LinkCellularAutomaton) (v : list Q) :=
  mkLCA (grid self) (node_active_links self) (node_state self) (current_time self)
    (num_node_states self) (num_link_states self) (event_queue self)
    v (link_state_dict self) (cell_pair self)
    (number_of_vertical_links self) (link_state self) (n_xn self) (xn_to self)
    (xn_rate self).

(** [num_node_states] and, from it, [num_link_states]. *)
Definition set_num_states (self : LinkCellularAutomaton) (n : Z) :=
  mkLCA (grid self) (node_active_links self) (node_state self) (current_time self)
    n (2 * n * n) (event_queue self)
    (next_update self) (link_state_dict self) (cell_pair self)
    (number_of_vertical_links self) (link_state self) (n_xn self) (xn_to self)
    (xn_rate self).

Definition set_codec (self : LinkCellularAutomaton) (d : gmap triple Z) (cp : list triple) :=
  mkLCA (grid self) (node_active_links self) (node_state self) (current_time self)
    (num_node_states self) (num_link_states self) (event_queue self)
    (next_update self) d cp
    (number_of_vertical_links self) (link_state self) (n_xn self) (xn_to self)
    (xn_rate self).

Definition set_number_of_vertical_links (self : LinkCellularAutomaton) (v : Z) :=
  mkLCA (grid self) (node_active_links self) (node_state self) (current_time self)
    (num_node_states self) (num_link_states self) (event_queue self)
    (next_update self) (link_state_dict self) (cell_pair self)
    v (link_state self) (n_xn self) (xn_to self) (xn_rate self).

Definition set_link_state (self : LinkCellularAutomaton) (v : list Z) :=
  mkLCA (grid self) (node_active_links self) (node_state self) (current_time self)
    (num_node_states self) (num_link_states self) (event_queue self)
    (next_update self) (link_state_dict self) (cell_pair self)
    (number_of_vertical_links self) v (n_xn self) (xn_to self) (xn_rate self).

Definition set_transition_data (self : LinkCellularAutomaton)
    (n : list Z) (to : list (list Z)) (rt : list (list Q)) :=
  mkLCA (grid self) (node_active_links self) (node_state self) (current_time self)
    (num_node_states self) (num_link_states self) (event_queue self)
    (next_update self) (link_state_dict self) (cell_pair self)
    (number_of_vertical_links self) (link_state self) n to rt.

(** A [for] loop over a list, threading the variables it assigns. *)
Fixpoint for_in {S A : Type} (l : list A) (body : A → S → res S) (s : S) : res S :=
  match l with
  | [] => Ok s
  | x :: l' => s' ← body x s; for_in l' body s'
  end.

(** ** Validation and normalisation of the transition list *)

Inductive xn_type : Type := TInt | TTuple.

Definition xn_type_eqb (a b : xn_type) : bool :=
  match a, b with TInt, TInt | TTuple, TTuple => true | _, _ => false end.

(** [v < n] for a Python value [v] and an integer [n]. On a tuple Python 3
    raises [TypeError]; Python 2 answers [False]. Either way the [assert]
    around it leaves the [try] block. *)
Definition lt_int (v : pyval) (n : Z) : res bool :=
  match v with
  | PInt z => Ok (z <? n)
  | PTuple _ => Raise TypeError
  end.

Definition is_tuple (v : pyval) : bool :=
  match v with PTuple _ => true | PInt _ => false end.

Definition tuple_items (v : pyval) : list Z :=
  match v with PTuple l => l | PInt _ => [] end.

(** The [try] block of the validation loop. *)
Definition check_as_int (num_link_states : Z) (t : Transition) : res unit :=
  b ← lt_int (from_state t) num_link_states; _ ← assert b;
  b' ← lt_int (to_state t) num_link_states; assert b'.

(** The [except] block of the validation loop. *)
Definition check_as_tuple (num_node_states : Z) (t : Transition) : res unit :=
  _ ← assert (is_tuple (from_state t));
  _ ← assert (is_tuple (to_state t));
  _ ← for_in (removelast (tuple_items (from_state t)))
        (λ i _, assert (i <? num_node_states)) tt;
  _ ← for_in (removelast (tuple_items (to_state t)))
        (λ i _, assert (i <? num_node_states)) tt;
  o ← getitem (tuple_items (from_state t)) (-1); _ ← assert (o <? 2);
  o' ← getitem (tuple_items (to_state t)) (-1); assert (o' <? 2).

Definition check_transition (num_link_states num_node_states : Z)
    (t : Transition) (last_type : option xn_type) : res (option xn_type) :=
  this_type ← match check_as_int num_link_states t with
              | Ok _ => Ok TInt
              | Raise _ => _ ← check_as_tuple num_node_states t; Ok TTuple
              end;
  _ ← assert (match last_type with
              | Some ty => xn_type_eqb ty this_type
              | None => true
              end);
  Ok (Some this_type).

(** The assertions of [__init__] on [transition_list]. *)
Definition check_transition_list (num_link_states num_node_states : Z)
    (σ : store) (transition_list : list nat) : res unit :=
  _ ← assert (negb (bool_decide (transition_list = [])));
  _ ← for_in transition_list
        (λ r last_type, t ← deref σ r;
           check_transition num_link_states num_node_states t last_type)
        None;
  Ok tt.

(** [self.link_state_dict[v]] for a Python value [v]: only the
    three-element tuples are keys. *)
Definition dict_get_val (d : gmap triple Z) (v : pyval) : res Z :=
  match v with
  | PTuple [f; t; o] => dict_get d (f, t, o)
  | _ => Raise KeyError
  end.

(** The conversion of [transition_list] to ids. [transition_list_as_ID] is
    a copy of the list of references: both lists name the same objects. *)
Definition convert_transition_list (d : gmap triple Z) (σ : store)
    (transition_list : list nat) : res (store * list nat) :=
  let transition_list_as_ID := transition_list in
  first ← getitem transition_list 0;
  t0 ← deref σ first;
  if is_tuple (from_state t0) then
    σ' ← for_in (range (Z.of_nat (length transition_list)))
           (λ i σ,
              src ← getitem transition_list i;
              dst ← getitem transition_list_as_ID i;
              t ← deref σ src;
              k ← dict_get_val d (from_state t);
              σ ← set_from_state σ dst (PInt k);
              t ← deref σ src;
              k' ← dict_get_val d (to_state t);
              set_to_state σ dst (PInt k'))
           σ;
    Ok (σ', transition_list_as_ID)
  else Ok (σ, transition_list_as_ID).

(** ** Transition tables *)

(** An integer used as an array index. *)
Definition as_index (v : pyval) : res Z :=
  match v with PInt z => Ok z | PTuple _ => Raise IndexError end.

(** A value stored in an array of [dtype=int], NumPy's 64-bit integers: a
    Python integer outside their range raises [OverflowError]. *)
Definition as_int (v : pyval) : res Z :=
  match v with
  | PInt z => if (- 2 ^ 63 <=? z) && (z <? 2 ^ 63) then Ok z else Raise OverflowError
  | PTuple _ => Raise ValueError
  end.

(** [numpy.max] *)
Definition numpy_max (l : list Z) : res Z :=
  match l with
  | [] => Raise ValueError
  | x :: l' => Ok (foldl Z.max x l')
  end.

Definition setup_transition_data (σ : store) (xn_list : list nat)
    (self : LinkCellularAutomaton) : res LinkCellularAutomaton :=
  let n_xn := zeros 0 (num_link_states self) in
  n_xn ← for_in xn_list
           (λ r n_xn, xn ← deref σ r;
              i ← as_index (from_state xn);
              c ← getitem n_xn i;
              setitem n_xn i (c + 1))
           n_xn;
  max_transitions ← numpy_max n_xn;
  let xn_to := zeros (zeros 0 max_transitions) (num_link_states self) in
  let xn_rate := zeros (zeros 0%Q max_transitions) (num_link_states self) in
  let n_xn := (λ _, 0) <$> n_xn in
  '(n_xn, xn_to, xn_rate) ← for_in xn_list
           (λ r '(n_xn, xn_to, xn_rate), xn ← deref σ r;
              from_state ← as_index (from_state xn);
              slot ← getitem n_xn from_state;
              to ← as_int (to_state xn);
              xn_to ← setitem2 xn_to from_state slot to;
              slot ← getitem n_xn from_state;
              xn_rate ← setitem2 xn_rate from_state slot (rate xn);
              c ← getitem n_xn from_state;
              n_xn ← setitem n_xn from_state (c + 1);
              Ok (n_xn, xn_to, xn_rate))
           (n_xn, xn_to, xn_rate);
  Ok (set_transition_data self n_xn xn_to xn_rate).

(** ** Methods of the engine *)

Definition set_node_state_grid (self : LinkCellularAutomaton) (node_states : list Z)
    : res LinkCellularAutomaton :=
  _ ← assert (Z.of_nat (length node_states) =? number_of_nodes (grid self));
  Ok (set_node_state self node_states).

Definition active_link_orientation (self : LinkCellularAutomaton) (act_link_id : Z)
    : res Z :=
  l ← getitem (active_links (grid self)) act_link_id;
  if l <? number_of_vertical_links self then Ok 1 else Ok 0.

(** The tuple (from-node state, to-node state, orientation) of a link. *)
Definition node_pair_of (self : LinkCellularAutomaton) (i : Z) : res triple :=
  fn ← getitem (activelink_fromnode (grid self)) i;
  fns ← getitem (node_state self) fn;
  tn ← getitem (activelink_tonode (grid self)) i;
  tns ← getitem (node_state self) tn;
  orientation ← active_link_orientation self i;
  Ok (fns, tns, orientation).

Definition assign_link_states_from_node_types (self : LinkCellularAutomaton)
    : res LinkCellularAutomaton :=
  let link_state := zeros 0 (number_of_active_links (grid self)) in
  link_state ← for_in (range (number_of_active_links (grid self)))
    (λ i link_state,
       node_pair ← node_pair_of self i;
       k ← dict_get (link_state_dict self) node_pair;
       setitem link_state i k)
    link_state;
  Ok (set_link_state self link_state).

(** A link state used as an index; [None] is no index. *)
Definition index_of (x : option Z) : res Z :=
  match x with Some z => Ok z | None => Raise TypeError end.

Definition update_node_states (self : LinkCellularAutomaton)
    (fromnode tonode : Z) (new_link_state : option Z)
    : res (LinkCellularAutomaton * bool * bool) :=
  old_fromnode_state ← getitem (node_state self) fromnode;
  old_tonode_state ← getitem (node_state self) tonode;
  status ← getitem (node_status (grid self)) fromnode;
  self ← (if status =? CORE_NODE then
            k ← index_of new_link_state;
            p ← getitem (cell_pair self) k;
            ns ← setitem (node_state self) fromnode p.1.1;
            Ok (set_node_state self ns)
          else Ok self);
  status ← getitem (node_status (grid self)) tonode;
  self ← (if status =? CORE_NODE then
            k ← index_of new_link_state;
            p ← getitem (cell_pair self) k;
            ns ← setitem (node_state self) tonode p.1.2;
            Ok (set_node_state self ns)
          else Ok self);
  new_fromnode_state ← getitem (node_state self) fromnode;
  new_tonode_state ← getitem (node_state self) tonode;
  Ok (self, negb (new_fromnode_state =? old_fromnode_state),
            negb (new_tonode_state =? old_tonode_state)).

(** The test of [update_link_state]: whether an end of the link is not a
    core node. Python's [or] reads the status of the to-node only when the
    from-node is a core node. *)
Definition connects_to_boundary (self : LinkCellularAutomaton) (fn tn : Z) : res bool :=
  fn_status ← getitem (node_status (grid self)) fn;
  if negb (fn_status =? CORE_NODE) then Ok true
  else tn_status ← getitem (node_status (grid self)) tn;
       Ok (negb (tn_status =? CORE_NODE)).

Section Engine.
Context {RS : RandomSource} {HQ : HeapQ}.

Definition get_next_event (self : LinkCellularAutomaton)
    (link current_state : Z) (current_time : Q) (g : rng) : res (Event.t * rng) :=
  n ← getitem (n_xn self) current_state;
  _ ← assert (0 <? n);
  '(next_time, xn, g) ←
    (if n =? 1 then
       xn ← getitem2 (xn_to self) current_state 0;
       r ← getitem2 (xn_rate self) current_state 0;
       '(next_time, g) ← random_exponential r g;
       Ok (next_time, Some xn, g)
     else
       for_in (range n)
         (λ i '(next_time, xn, g),
            r ← getitem2 (xn_rate self) current_state i;
            '(this_next, g) ← random_exponential r g;
            if Qlt_bool this_next next_time then
              xn ← getitem2 (xn_to self) current_state i;
              Ok (this_next, Some xn, g)
            else Ok (next_time, xn, g))
         (_NEVER, None, g));
  Ok (Event.mk (next_time + current_time) link xn, g).

Definition push_transitions_to_event_queue (self : LinkCellularAutomaton) (g : rng)
    : res (LinkCellularAutomaton * rng) :=
  for_in (range (number_of_active_links (grid self)))
    (λ i '(self, g),
       ls ← getitem (link_state self) i;
       n ← getitem (n_xn self) ls;
       if 0 <? n then
         '(event, g) ← get_next_event self i ls 0 g;
         let self := set_event_queue self (heappush (event_queue self) event) in
         nu ← setitem (next_update self) i (Event.time event);
         Ok (set_next_update self nu, g)
       else
         nu ← setitem (next_update self) i _NEVER;
         Ok (set_next_update self nu, g))
    (self, g).

Definition update_link_state (self : LinkCellularAutomaton)
    (link : Z) (new_link_state : option Z) (current_time : Q) (g : rng)
    : res (LinkCellularAutomaton * rng) :=
  fn ← getitem (activelink_fromnode (grid self)) link;
  tn ← getitem (activelink_tonode (grid self)) link;
  boundary ← connects_to_boundary self fn tn;
  new_link_state ←
    (if boundary : bool then
       actual_pair ← node_pair_of self link;
       k ← dict_get (link_state_dict self) actual_pair;
       Ok (Some k)
     else Ok new_link_state);
  new_link_state ← index_of new_link_state;
  ls ← setitem (link_state self) link new_link_state;
  let self := set_link_state self ls in
  n ← getitem (n_xn self) new_link_state;
  if 0 <? n then
    '(event, g) ← get_next_event self link new_link_state current_time g;
    let self := set_event_queue self (heappush (event_queue self) event) in
    nu ← setitem (next_update self) link (Event.time event);
    Ok (set_next_update self nu, g)
  else
    nu ← setitem (next_update self) link _NEVER;
    Ok (set_next_update self nu, g).

(** The loop of [do_transition] over the links of a node whose state has
    changed. *)
Definition update_links_of_node (self : LinkCellularAutomaton)
    (event : Event.t) (node : Z) (g : rng) : res (LinkCellularAutomaton * rng) :=
  links ← column (node_active_links self) node;
  for_in links
    (λ link '(self, g),
       if negb (link =? -1) && negb (link =? Event.link event) then
         current_pair ← node_pair_of self link;
         new_link_state ← dict_get (link_state_dict self) current_pair;
         update_link_state self link (Some new_link_state) (Event.time event) g
       else Ok (self, g))
    (self, g).

Definition do_transition (self : LinkCellularAutomaton) (event : Event.t)
    (current_time : Q) (g : rng) : res (LinkCellularAutomaton * rng) :=
  nu ← getitem (next_update self) (Event.link event);
  if Qeq_bool (Event.time event) nu then
    fromnode ← getitem (activelink_fromnode (grid self)) (Event.link event);
    tonode ← getitem (activelink_tonode (grid self)) (Event.link event);
    '(self, from_changed, to_changed) ←
       update_node_states self fromnode tonode (Event.xn_to event);
    '(self, g) ← update_link_state self (Event.link event) (Event.xn_to event)
                    (Event.time event) g;
    '(self, g) ← (if from_changed : bool
                  then update_links_of_node self event fromnode g
                  else Ok (self, g));
    (if to_changed : bool
     then update_links_of_node self event tonode g
     else Ok (self, g))
  else Ok (self, g).

(** The test of the [while] loop of [run]. *)
Definition run_guard (self : LinkCellularAutomaton) (run_duration : Q) : bool :=
  Qlt_bool (current_time self) run_duration
  && negb (bool_decide (event_queue self = [])).

(** One pass through the body of the [while] loop of [run]; the event
    popped is returned with the new state. *)
Definition run_step (self : LinkCellularAutomaton) (g : rng)
    : res (Event.t * LinkCellularAutomaton * rng) :=
  '(ev, q) ← heappop (event_queue self);
  let self := set_event_queue self q in
  '(self, g) ← do_transition self ev (current_time self) g;
  Ok (ev, set_current_time self (Event.time ev), g).

Fixpoint run_loop (fuel : nat) (self : LinkCellularAutomaton) (run_duration : Q)
    (g : rng) : res (LinkCellularAutomaton * rng) :=
  if run_guard self run_duration then
    match fuel with
    | O => Raise OutOfFuel
    | S fuel' =>
        '(_, self, g) ← run_step self g;
        run_loop fuel' self run_duration g
    end
  else Ok (self, g).

Definition run (fuel : nat) (self : LinkCellularAutomaton) (run_duration : Q)
    (node_state_grid : option (list Z)) (g : rng)
    : res (LinkCellularAutomaton * rng) :=
  self ← match node_state_grid with
         | Some ns => set_node_state_grid self ns
         | None => Ok self
         end;
  run_loop fuel self run_duration g.

(** The constructor. It returns the engine, the object store after the
    normalisation of the transitions, and the generator. *)
Definition __init__ (model_grid : RasterModelGrid) (node_state_dict : gmap Z string)
    (σ : store) (transition_list : list nat) (initial_node_states : list Z)
    (g : rng) : res (LinkCellularAutomaton * store * rng) :=
  let self := mkLCA model_grid (active_node_links model_grid) [] 0%Q 0 0 [] []
                    ∅ [] 0 [] [] [] [] in
  self ← set_node_state_grid self initial_node_states;
  let self := set_current_time self 0%Q in
  let self := set_num_states self (Z.of_nat (size node_state_dict)) in
  _ ← check_transition_list (num_link_states self) (num_node_states self)
        σ transition_list;
  let self := set_event_queue self [] in
  let self := set_next_update self (zeros 0%Q (number_of_active_links (grid self))) in
  let '(d, cp, _) := create_link_state_dict_and_pair_list (num_node_states self) in
  let self := set_codec self d cp in
  '(σ, transition_list_as_ID) ←
     convert_transition_list (link_state_dict self) σ transition_list;
  let self := set_number_of_vertical_links self
                (number_of_node_columns (grid self)
                 * (number_of_node_rows (grid self) - 1)) in
  self ← assign_link_states_from_node_types self;
  self ← setup_transition_data σ transition_list_as_ID self;
  '(self, g) ← push_transitions_to_event_queue self g;
  Ok (self, σ, g).

(** Whether [do_transition] will apply [event] or discard it as stale. *)
Definition is_current (self : LinkCellularAutomaton) (event : Event.t) : bool :=
  match getitem (next_update self) (Event.link event) with
  | Ok nu => Qeq_bool (Event.time event) nu
  | Raise _ => false
  end.

(** [run_loop] with a record of the events popped, each with the outcome
    of the staleness test made on it. *)
Fixpoint run_loop_trace (fuel : nat) (self : LinkCellularAutomaton) (run_duration : Q)
    (g : rng) : res (list (Event.t * bool) * LinkCellularAutomaton * rng) :=
  if run_guard self run_duration then
    match fuel with
    | O => Raise OutOfFuel
    | S fuel' =>
        '(ev, self', g) ← run_step self g;
        '(tr, self'', g) ← run_loop_trace fuel' self' run_duration g;
        Ok ((ev, is_current self ev) :: tr, self'', g)
    end
  else Ok ([], self, g).

(** [n] passes through the body of the loop of [run]. *)
Fixpoint run_steps (n : nat) (self : LinkCellularAutomaton) (g : rng)
    : res (LinkCellularAutomaton * rng) :=
  match n with
  | O => Ok (self, g)
  | S n' => '(_, self, g) ← run_step self g; run_steps n' self g
  end.

(** A caller that calls [run] several times, each time with a duration
    and, optionally, a grid of node states. *)
Fixpoint run_calls (fuel : nat) (self : LinkCellularAutomaton)
    (calls : list (Q * option (list Z))) (g : rng)
    : res (list (Event.t * bool) * LinkCellularAutomaton * rng) :=
  match calls with
  | [] => Ok ([], self, g)
  | (run_duration, node_state_grid) :: calls' =>
      self ← match node_state_grid with
             | Some ns => set_node_state_grid self ns
             | None => Ok self
             end;
      '(tr, self, g) ← run_loop_trace fuel self run_duration g;
      '(tr', self, g) ← run_calls fuel self calls' g;
      Ok (tr ++ tr', self, g)
  end.

(** A whole session: the construction of the engine, then the calls of
    [run]. It returns the events popped, the engine, the store of the
    rules and the generator. *)
Definition simulate (fuel : nat) (model_grid : RasterModelGrid)
    (node_state_dict : gmap Z string) (σ : store) (transition_list : list nat)
    (initial_node_states : list Z) (calls : list (Q * option (list Z))) (g : rng)
    : res (list (Event.t * bool) * LinkCellularAutomaton * store * rng) :=
  '(self, σ, g) ← __init__ model_grid node_state_dict σ transition_list
                    initial_node_states g;
  '(tr, self, g) ← run_calls fuel self calls g;
  Ok (tr, self, σ, g).

End Engine.

(** ** Reference instances of the libraries *)

(** A priority queue kept as a list sorted by time: [heappush] inserts
    behind the events that are not later, [heappop] takes the head. *)
Fixpoint sorted_insert (h : list Event.t) (e : Event.t) : list Event.t :=
  match h with
  | [] => [e]
  | x :: h' => if Event.__lt__ e x then e :: x :: h' else x :: sorted_insert h' e
  end.

Definition sorted_pop (h : list Event.t) : res (Event.t * list Event.t) :=
  match h with
  | [] => Raise IndexError
  | e :: h' => Ok (e, h')
  end.

Definition sorted_heapq : HeapQ :=
  {| heappush := sorted_insert; heappop := sorted_pop |}.

Fixpoint sorted_by_time (h : list Event.t) : Prop :=
  match h with
  | [] => True
  | e :: h' => Forall (λ x, (Event.time e <= Event.time x)%Q) h' ∧ sorted_by_time h'
  end.

(** A random source that reads its standard exponential variates, as
    fractions [n/d], from a tape and scales them by [1/rate]; past the end
    of the tape every variate is 1. A rate that is not positive raises
    [ValueError] (for a negative rate so does NumPy; with rate 0 NumPy
    draws an infinite time, which [Q] does not have). *)
Definition tape_exponential (r : Q) (g : list (N * positive)) : res (Q * list (N * positive)) :=
  if Qle_bool r 0 then Raise ValueError
  else match g with
       | [] => Ok ((1 / r)%Q, [])
       | (n, d) :: g' => Ok (((Z.of_N n # d) / r)%Q, g')
       end.

Definition tape_source : RandomSource :=
  {| rng := list (N * positive); random_exponential := tape_exponential |}.

(** ** A concrete grid

    [RasterModelGrid(3, 4)]: nodes 5 and 6 are core nodes, the other ten
    lie on the boundary (status 1). The eight vertical links are numbered
    first; seven links are active. *)
Definition grid_3x4 : RasterModelGrid :=
  {| number_of_nodes := 12;
     number_of_active_links := 7;
     number_of_node_columns := 4;
     number_of_node_rows := 3;
     activelink_fromnode := [1; 2; 5; 6; 4; 5; 6];
     activelink_tonode := [5; 6; 9; 10; 5; 6; 7];
     active_links := [1; 2; 5; 6; 11; 12; 13];
     node_status := [1; 1; 1; 1; 1; 0; 0; 1; 1; 1; 1; 1];
     active_node_links :=
       [ [-1; -1; -1; -1; -1;  0;  1; -1; -1;  2;  3; -1];
         [-1; -1; -1; -1; -1;  4;  5;  6; -1; -1; -1; -1];
         [-1;  0;  1; -1; -1;  2;  3; -1; -1; -1; -1; -1];
         [-1; -1; -1; -1;  4;  5;  6; -1; -1; -1; -1; -1] ] |}.

Definition two_states : gmap Z string := {[ 0 := "rock"%string; 1 := "sap"%string ]}.

(** ** Concrete rules and initial states *)

(** The transitions of [setup_transition_list], for two node states. *)
Definition weathering : store :=
  [ mkTransition (PInt 1) (PInt 3) 1 (Some "weathering"%string);
    mkTransition (PInt 2) (PInt 3) 1 (Some "weathering"%string) ].

(** The same transitions given by tuples. *)
Definition weathering_tuples : store :=
  [ mkTransition (PTuple [0; 1; 0]) (PTuple [1; 1; 0]) 1 (Some "weathering"%string);
    mkTransition (PTuple [1; 0; 0]) (PTuple [1; 1; 0]) 1 (Some "weathering"%string) ].

(** The same transitions with rates that are not positive. *)
Definition weathering_not_positive : store :=
  [ mkTransition (PInt 1) (PInt 3) (-1) (Some "weathering"%string);
    mkTransition (PInt 2) (PInt 3) 0 (Some "weathering"%string) ].

(** A transition from the horizontal link state 1, the triple (0, 1, 0), to
    the vertical link state 5, the triple (0, 1, 1). *)
Definition turning : store :=
  [ mkTransition (PInt 1) (PInt 5) 1 (Some "turning"%string) ].

(** Nodes 4 (boundary) and 6 (core) in state 1, the others in state 0. *)
Definition sap_at_4_and_6 : list Z := [0; 0; 0; 0; 1; 0; 1; 0; 0; 0; 0; 0].

(** Node 6 in state 1, the others in state 0. *)
Definition sap_at_6 : list Z := [0; 0; 0; 0; 0; 0; 1; 0; 0; 0; 0; 0].

(** The variates 1, 2, 3 (and 1 ever after). *)
Definition tape_123 : list (N * positive) :=
  [(1%N, 1%positive); (2%N, 1%positive); (3%N, 1%positive)].

(** Every node in state 0, and every node in state 1. *)
Definition all_rock : list Z := replicate 12 0.
Definition all_sap : list Z := replicate 12 1.

(** Two tapes that give the same variates: one is empty, the other is empty
    or holds the variate 1. *)
Definition tape_equiv (g1 g2 : list (N * positive)) : Prop :=
  g1 = [] ∧ (g2 = [] ∨ g2 = [(1%N, 1%positive)]).

(** The engine built on [grid_3x4] with the rules [weathering], the initial
    states [sap_at_4_and_6] and the tape [tape_123], after its first
    event: link 4, from the boundary node 4 to the core node 5, has fired
    at time 1 and has put node 5 in state 1. Link 5, from node 5 to node 6,
    has been given the state 3, which no rule leaves, so the event queued
    for it at time 2 is stale. *)
Definition after_first_event : LinkCellularAutomaton :=
  {| grid := grid_3x4;
     node_active_links := active_node_links grid_3x4;
     node_state := [0; 0; 0; 0; 1; 1; 1; 0; 0; 0; 0; 0];
     current_time := 1;
     num_node_states := 2;
     num_link_states := 8;
     event_queue := [Event.mk 2 5 (Some 3); Event.mk 3 6 (Some 3)];
     next_update := [_NEVER; _NEVER; _NEVER; _NEVER; _NEVER; _NEVER; 3%Q];
     link_state_dict := (create_link_state_dict_and_pair_list 2).1.1;
     cell_pair := (create_link_state_dict_and_pair_list 2).1.2;
     number_of_vertical_links := 8;
     link_state := [5; 5; 6; 6; 3; 3; 2];
     n_xn := [0; 1; 1; 0; 0; 0; 0; 0];
     xn_to := [[0]; [3]; [3]; [0]; [0]; [0]; [0]; [0]];
     xn_rate := [[0%Q]; [1%Q]; [1%Q]; [0%Q]; [0%Q]; [0%Q]; [0%Q]; [0%Q]] |}.

(** ** Notions used to state the properties *)

(** The canonical enumeration: the id of a triple, and the triple of an id. *)
Definition encode (N : Z) (p : triple) : Z :=
  let '(f, t, o) := p in o * N * N + f * N + t.

Definition decode (N : Z) (i : Z) : triple :=
  ((i / N) mod N, i mod N, i / (N * N)).

Definition in_domain (N : Z) (p : triple) : Prop :=
  let '(f, t, o) := p in 0 <= f < N ∧ 0 <= t < N ∧ 0 <= o < 2.

(** The state of the loops of [create_link_state_dict_and_pair_list] after
    [m] triples. *)
Definition codec_upto (N : Z) (st : codec) (m : Z) : Prop :=
  let '(d, cp, k) := st in
  k = m ∧ Z.of_nat (length cp) = m ∧ Z.of_nat (size d) = m ∧
  (∀ i, 0 <= i < m → cp !! Z.to_nat i = Some (decode N i) ∧ d !! decode N i = Some i) ∧
  (∀ p v, d !! p = Some v → 0 <= v < m ∧ p = decode N v).

(** The attributes of the engine that are fixed once [__init__] has run. *)
Definition config_of (self : LinkCellularAutomaton) :=
  (grid self, node_active_links self, num_node_states self, num_link_states self,
   link_state_dict self, cell_pair self, number_of_vertical_links self,
   n_xn self, xn_to self, xn_rate self).

(** The engine as [__init__] has it when the codec is built and before the
    link states are assigned. *)
Definition init_base (model_grid : RasterModelGrid) (N : Z)
    (initial_node_states : list Z) (d : gmap triple Z) (cp : list triple) :=
  mkLCA model_grid (active_node_links model_grid) initial_node_states 0%Q
    N (2 * N * N) [] (zeros 0%Q (number_of_active_links model_grid)) d cp
    (number_of_node_columns model_grid * (number_of_node_rows model_grid - 1))
    [] [] [] [].

(** Two stores that hold the same link states, whatever the rates. *)
Definition same_states (σ σ' : store) : Prop :=
  Forall2 (λ t t', from_state t = from_state t' ∧ to_state t = to_state t') σ σ'.

(** A sequence of times, each no earlier than the one before, the first
    no earlier than [t]. *)
Fixpoint nondecreasing_from (t : Q) (ts : list Q) : Prop :=
  match ts with
  | [] => True
  | x :: ts' => (t <= x)%Q ∧ nondecreasing_from x ts'
  end.

(** The times of the events of a record of [run_loop_trace]. *)
Definition times (tr : list (Event.t * bool)) : list Q :=
  map (λ p, Event.time p.1) tr.

(** The events of a record that were applied. *)
Definition applied (tr : list (Event.t * bool)) : list (Event.t * bool) :=
  filter (λ p, p.2 = true) tr.

(** The queue is one that [heapq] maintains and none of its events is
    earlier than [t]. *)
Definition future_queue (is_heap : list Event.t → Prop) (t : Q) (q : list Event.t) : Prop :=
  is_heap q ∧ Forall (λ e, (t <= Event.time e)%Q) q.

(** *** Well-formed inputs *)

(** Whether active link [i] is listed among the links of node [n]. *)
Definition listed (G : RasterModelGrid) (i n : Z) : bool :=
  existsb (λ row, match getitem row n with Ok l => l =? i | Raise _ => false end)
    (active_node_links G).

(** What the engine expects of a grid: the arrays have the lengths the grid
    announces, the two ends of an active link are distinct nodes of the
    grid, an entry of [active_node_links] is -1 or an active link, and every
    active link is listed at both its ends. *)
Definition grid_ok (G : RasterModelGrid) : bool :=
  let nn := number_of_nodes G in
  let nal := number_of_active_links G in
  (0 <=? nn) && (0 <=? nal)
  && (Z.of_nat (length (node_status G)) =? nn)
  && (Z.of_nat (length (activelink_fromnode G)) =? nal)
  && (Z.of_nat (length (activelink_tonode G)) =? nal)
  && (Z.of_nat (length (active_links G)) =? nal)
  && forallb (λ row,
        (Z.of_nat (length row) =? nn)
        && forallb (λ l, (l =? -1) || ((0 <=? l) && (l <? nal))) row)
       (active_node_links G)
  && forallb (λ i,
        match getitem (activelink_fromnode G) i, getitem (activelink_tonode G) i with
        | Ok fn, Ok tn =>
            (0 <=? fn) && (fn <? nn) && (0 <=? tn) && (tn <? nn) && negb (fn =? tn)
            && listed G i fn && listed G i tn
        | _, _ => false
        end)
       (range nal).

(** Whether every rule of the list keeps the orientation of the link: the
    rules are all pairs of non-negative ids whose orientations, the
    quotients by [N²], agree, or all pairs of three-element tuples whose
    orientations agree. *)
Definition rules_keep_orientation (N : Z) (σ : store) (transition_list : list nat) : bool :=
  forallb (λ r, match σ !! r with
                | Some t =>
                    match from_state t, to_state t with
                    | PInt a, PInt b =>
                        (0 <=? a) && (0 <=? b) && (a / (N * N) =? b / (N * N))
                    | _, _ => false
                    end
                | None => false
                end) transition_list
  || forallb (λ r, match σ !! r with
                   | Some t =>
                       match from_state t, to_state t with
                       | PTuple [_; _; o], PTuple [_; _; o'] => o =? o'
                       | _, _ => false
                       end
                   | None => false
                   end) transition_list.

(** *** The invariant of the engine *)

(** The state of link [l] is the id of the triple of the states of its
    two nodes and its orientation. *)
Definition link_consistent (self : LinkCellularAutomaton) (l : Z) : Prop :=
  ∃ p k, node_pair_of self l = Ok p
         ∧ dict_get (link_state_dict self) p = Ok k
         ∧ getitem (link_state self) l = Ok k.

(** The codec of the engine is the canonical enumeration. *)
Definition codec_ok (self : LinkCellularAutomaton) : Prop :=
  num_link_states self = 2 * num_node_states self * num_node_states self ∧
  ∃ k, codec_upto (num_node_states self) (link_state_dict self, cell_pair self, k)
         (num_link_states self).

(** The orientation of a link state. *)
Definition orientation_of_state (self : LinkCellularAutomaton) (x : Z) : Z :=
  x / (num_node_states self * num_node_states self).

(** The transitions out of a link state lead to link states of the same
    orientation. *)
Definition tables_ok (self : LinkCellularAutomaton) : Prop :=
  ∀ c n i x, 0 <= c < num_link_states self →
    getitem (n_xn self) c = Ok n → 0 <= i < n →
    getitem2 (xn_to self) c i = Ok x →
    0 <= x < num_link_states self
    ∧ orientation_of_state self x = orientation_of_state self c.

Definition static_ok (self : LinkCellularAutomaton) : Prop :=
  grid_ok (grid self) = true
  ∧ node_active_links self = active_node_links (grid self)
  ∧ codec_ok self ∧ tables_ok self.

(** An event of the queue names an active link and, if it has one, a
    target state of the orientation of that link. *)
Definition event_ok (self : LinkCellularAutomaton) (e : Event.t) : Prop :=
  0 <= Event.link e < number_of_active_links (grid self) ∧
  ∀ x, Event.xn_to e = Some x →
    0 <= x < num_link_states self
    ∧ active_link_orientation self (Event.link e) = Ok (orientation_of_state self x).

Definition queue_ok (is_heap : list Event.t → Prop) (self : LinkCellularAutomaton) : Prop :=
  is_heap (event_queue self) ∧ Forall (event_ok self) (event_queue self).

Definition links_consistent (self : LinkCellularAutomaton) : Prop :=
  ∀ l, 0 <= l < number_of_active_links (grid self) → link_consistent self l.

(** The rules, once in id form, name link states of the engine and keep the
    orientation. *)
Definition rules_as_ids_ok (self : LinkCellularAutomaton) (σ : store)
    (transition_list : list nat) : Prop :=
  ∀ r, r ∈ transition_list →
    ∃ t a b, σ !! r = Some t ∧ from_state t = PInt a ∧ to_state t = PInt b
      ∧ 0 <= a < num_link_states self ∧ 0 <= b < num_link_states self
      ∧ orientation_of_state self a = orientation_of_state self b.

(** *** Two runs side by side *)

(** Two results of computations that thread generators of two random
    sources agree: both raise the same exception, or both return the same
    value and leave generators related by [R]. *)
Definition agree {A G1 G2 : Type} (R : G1 → G2 → Prop)
    (r1 : res (A * G1)) (r2 : res (A * G2)) : Prop :=
  match r1, r2 with
  | Ok (a1, g1), Ok (a2, g2) => a1 = a2 ∧ R g1 g2
  | Raise e1, Raise e2 => e1 = e2
  | _, _ => False
  end.

(** Two random sources that, from related states, draw the same waiting
    times and stay in related states: the same generator seeded alike. *)
Definition same_draws (RS1 RS2 : RandomSource) (R : @rng RS1 → @rng RS2 → Prop) : Prop :=
  ∀ r g1 g2, R g1 g2 →
    agree R (@random_exponential RS1 r g1) (@random_exponential RS2 r g2).

(** *** The arrays and the schedule of the engine *)

(** The arrays of the engine have the lengths the grid announces. *)
Definition arrays_in_shape (self : LinkCellularAutomaton) : Prop :=
  Z.of_nat (length (node_state self)) = number_of_nodes (grid self)
  ∧ length (link_state self) = Z.to_nat (number_of_active_links (grid self))
  ∧ length (next_update self) = Z.to_nat (number_of_active_links (grid self)).

(** The link at position [p] of the arrays is scheduled: if its state has
    a transition, the queue holds an event whose link index denotes [p]
    and whose time is the entry of [next_update]; if it has none, that
    entry is [_NEVER]. *)
Definition scheduled (self : LinkCellularAutomaton) (p : nat) : Prop :=
  ∀ ls n, link_state self !! p = Some ls → getitem (n_xn self) ls = Ok n →
    if 0 <? n
    then ∃ e nu, e ∈ event_queue self
           ∧ norm_index (length (next_update self)) (Event.link e) = Some p
           ∧ next_update self !! p = Some nu
           ∧ Qeq_bool (Event.time e) nu = true
    else next_update self !! p = Some _NEVER.

(** Whether every state of an array of node states is one of the [N]
    states. *)
Definition node_states_in_range (N : Z) (ns : list Z) : bool :=
  forallb (λ s, (0 <=? s) && (s <? N)) ns.

(** The rules of a list, in id form, that leave link state [c], in the
    order of the list. *)
Definition rules_from (σ : store) (xn_list : list nat) (c : Z) : list Transition :=
  omap (λ r, match σ !! r with
             | Some t => match from_state t with
                         | PInt a => if a =? c then Some t else None
                         | PTuple _ => None
                         end
             | None => None
             end) xn_list.

(** Whether the state of active link [l] has a transition. *)
Definition has_transition (self : LinkCellularAutomaton) (l : Z) : bool :=
  match getitem (link_state self) l with
  | Ok ls => match getitem (n_xn self) ls with
             | Ok n => 0 <? n
             | Raise _ => false
             end
  | Raise _ => false
  end.

(** *** Further concrete rules and engines *)

(** A rule in id form whose ids are below zero. *)
Definition below_zero : store :=
  [ mkTransition (PInt (-1)) (PInt (-9)) 1 None ].

(** A rule in id form followed by a rule in tuple form. *)
Definition mixed_forms : store :=
  [ mkTransition (PInt 1) (PInt 3) 1 None;
    mkTransition (PTuple [1; 0; 0]) (PTuple [1; 1; 0]) 1 None ].

(** The engine built on [grid_3x4] with the rules [weathering], the
    initial states [sap_at_6] and the tape [tape_123], as the constructor
    returns it: link 5, between the core nodes 5 and 6, is due at time 1
    and link 6 at time 2. *)
Definition at_start : LinkCellularAutomaton :=
  {| grid := grid_3x4;
     node_active_links := active_node_links grid_3x4;
     node_state := sap_at_6;
     current_time := 0;
     num_node_states := 2;
     num_link_states := 8;
     event_queue := [Event.mk 1 5 (Some 3); Event.mk 2 6 (Some 3)];
     next_update := [_NEVER; _NEVER; _NEVER; _NEVER; _NEVER; 1%Q; 2%Q];
     link_state_dict := (create_link_state_dict_and_pair_list 2).1.1;
     cell_pair := (create_link_state_dict_and_pair_list 2).1.2;
     number_of_vertical_links := 8;
     link_state := [4; 5; 4; 6; 0; 1; 2];
     n_xn := [0; 1; 1; 0; 0; 0; 0; 0];
     xn_to := [[0]; [3]; [3]; [0]; [0]; [0]; [0]; [0]];
     xn_rate := [[0%Q]; [1%Q]; [1%Q]; [0%Q]; [0%Q]; [0%Q]; [0%Q]; [0%Q]] |}.

(** Two rules that leave the link state 1, the triple (0, 1, 0); and the
    same rules with rates so low that the waiting times drawn from
    [tape_123] are not below [_NEVER]. *)
Definition branching : store :=
  [ mkTransition (PInt 1) (PInt 3) 1 None;
    mkTransition (PInt 1) (PInt 2) 2 None ].

Definition slow_branching : store :=
  [ mkTransition (PInt 1) (PInt 3) (1 # 10000000000000) None;
    mkTransition (PInt 1) (PInt 2) (1 # 10000000000000) None ].

(** The engine [at_start] with the transition tables of [branching], and
    with those of [slow_branching]. *)
Definition two_way : LinkCellularAutomaton :=
  set_transition_data at_start [0; 2; 0; 0; 0; 0; 0; 0]
    [[0; 0]; [3; 2]; [0; 0]; [0; 0]; [0; 0]; [0; 0]; [0; 0]; [0; 0]]
    [[0%Q; 0%Q]; [1%Q; 2%Q]; [0%Q; 0%Q]; [0%Q; 0%Q]; [0%Q; 0%Q]; [0%Q; 0%Q];
     [0%Q; 0%Q]; [0%Q; 0%Q]].

Definition slow_two_way : LinkCellularAutomaton :=
  set_transition_data at_start [0; 2; 0; 0; 0; 0; 0; 0]
    [[0; 0]; [3; 2]; [0; 0]; [0; 0]; [0; 0]; [0; 0]; [0; 0]; [0; 0]]
    [[0%Q; 0%Q]; [1 # 10000000000000; 1 # 10000000000000]; [0%Q; 0%Q]; [0%Q; 0%Q];
     [0%Q; 0%Q]; [0%Q; 0%Q]; [0%Q; 0%Q]; [0%Q; 0%Q]].

(** *** The generator shared with the rest of the process

    The engine has no generator and no seed of its own: [get_next_event]
    calls [numpy.random.exponential], which draws from the generator of
    the process. Whatever else draws from that generator moves it on. *)

Section Shared.
Context {RS : RandomSource} {HQ : HeapQ}.

(** Calls of [numpy.random.exponential] made by other code of the process,
    one with the scale [1/r] for each rate [r] of the list. *)
Definition draw_elsewhere (rates : list Q) (g : rng) : res rng :=
  for_in rates (λ r g, '(_, g) ← random_exponential r g; Ok g) g.

(** A caller that calls [run] several times, in a process where other
    code draws from the generator before each call: each call comes with
    the rates of the draws made elsewhere since the call before. *)
Fixpoint run_calls_shared (fuel : nat) (self : LinkCellularAutomaton)
    (calls : list (list Q * (Q * option (list Z)))) (g : rng)
    : res (list (Event.t * bool) * LinkCellularAutomaton * rng) :=
  match calls with
  | [] => Ok ([], self, g)
  | (elsewhere, (run_duration, node_state_grid)) :: calls' =>
      g ← draw_elsewhere elsewhere g;
      self ← match node_state_grid with
             | Some ns => set_node_state_grid self ns
             | None => Ok self
             end;
      '(tr, self, g) ← run_loop_trace fuel self run_duration g;
      '(tr', self, g) ← run_calls_shared fuel self calls' g;
      Ok (tr ++ tr', self, g)
  end.

(** A session in such a process: the construction of the engine, then the
    calls of [run] with the draws made elsewhere in between. *)
Definition simulate_shared (fuel : nat) (model_grid : RasterModelGrid)
    (node_state_dict : gmap Z string) (σ : store) (transition_list : list nat)
    (initial_node_states : list Z)
    (calls : list (list Q * (Q * option (list Z)))) (g : rng)
    : res (list (Event.t * bool) * LinkCellularAutomaton * store * rng) :=
  '(self, σ, g) ← __init__ model_grid node_state_dict σ transition_list
                    initial_node_states g;
  '(tr, self, g) ← run_calls_shared fuel self calls g;
  Ok (tr, self, σ, g).

End Shared.

(** The variates 1, 2, 3, 5 (and 1 ever after). *)
Definition tape_1235 : list (N * positive) :=
  [(1%N, 1%positive); (2%N, 1%positive); (3%N, 1%positive); (5%N, 1%positive)].

(** * Properties *)

(** ** The result monad *)

Lemma bind_Ok {A B} (m : res A) (f : A → res B) (b : B) :
  m ≫= f = Ok b → ∃ a, m = Ok a ∧ f a = Ok b.
Proof. destruct m as [a|e]; simpl; [eauto | discriminate]. Qed.

Lemma assert_Ok (b : bool) (u : unit) : assert b = Ok u → b = true.
Proof. destruct b; [reflexivity | discriminate]. Qed.

(** Splits the hypotheses that say a sequence of calls returned. *)
Ltac inv_res :=
  repeat match goal with
  | H : Ok _ = Ok _ |- _ => injection H as H; try subst
  | H : Raise _ = Ok _ |- _ => discriminate H
  | H : mret _ = Ok _ |- _ => injection H as H; try subst
  | H : (_, _) = (_, _) |- _ => injection H as ?; try subst
  | H : assert _ = Ok _ |- _ => apply assert_Ok in H
  | H : _ ≫= _ = Ok _ |- _ =>
      let a := fresh "a" in let E := fresh "E" in
      apply bind_Ok in H as (a & E & H); cbv beta in H
  | H : (let '(_, _) := ?p in _) = Ok _ |- _ =>
      first [is_var p; destruct p | destruct p eqn:?]
  end.

(** ** Loops *)

Lemma for_in_app {S A} (l1 l2 : list A) (body : A → S → res S) (s : S) :
  for_in (l1 ++ l2) body s = (s' ← for_in l1 body s; for_in l2 body s').
Proof.
  revert s. induction l1 as [|x l1 IH]; intros s; simpl; [reflexivity|].
  destruct (body x s); simpl; auto.
Qed.

(** A property kept by the body of a loop is kept by the loop. *)
Lemma for_in_inv {S A} (P : S → Prop) (l : list A) (body : A → S → res S) (s s' : S) :
  (∀ x s s', x ∈ l → P s → body x s = Ok s' → P s') →
  P s → for_in l body s = Ok s' → P s'.
Proof.
  revert s. induction l as [|x l IH]; intros s Hbody HP H; simpl in H.
  - by inv_res.
  - inv_res. eapply IH; [| |exact H].
    + intros ???? ; apply Hbody. by right.
    + eapply Hbody; [by left|exact HP|exact E].
Qed.

Lemma foldl_seqZ_inv {T} (P : Z → T → Prop) (body : T → Z → T) (a n : Z) (s : T) :
  0 <= n → P a s →
  (∀ i s, a <= i < a + n → P i s → P (i + 1) (body s i)) →
  P (a + n) (foldl body s (seqZ a n)).
Proof.
  intros Hn. rewrite <- (Z2Nat.id n) by done. clear Hn.
  generalize (Z.to_nat n) as k. clear n. intros k. revert a s.
  induction k as [|k IH]; intros a s HP Hstep.
  - rewrite Z.add_0_r. exact HP.
  - rewrite seqZ_cons by lia. simpl.
    replace (Z.pred (Z.of_nat (S k))) with (Z.of_nat k) by lia.
    replace (a + Z.of_nat (S k)) with (Z.succ a + Z.of_nat k) by lia.
    apply IH.
    + replace (Z.succ a) with (a + 1) by lia. apply Hstep; [lia|exact HP].
    + intros i s' Hi. apply Hstep. lia.
Qed.

(** ** Arithmetic of the canonical enumeration *)

Lemma decode_encode (N f t o : Z) :
  0 <= f < N → 0 <= t < N → decode N (encode N (f, t, o)) = (f, t, o).
Proof.
  intros Hf Ht. unfold decode, encode.
  assert (HN : 0 < N) by lia.
  assert (H1 : (o * N * N + f * N + t) / N = o * N + f).
  { symmetry. apply (Z.div_unique_pos _ _ _ t); lia. }
  assert (H2 : (o * N * N + f * N + t) mod N = t).
  { symmetry. apply (Z.mod_unique_pos _ _ (o * N + f)); lia. }
  assert (H3 : (o * N + f) mod N = f).
  { symmetry. apply (Z.mod_unique_pos _ _ o); lia. }
  assert (H4 : (o * N * N + f * N + t) / (N * N) = o).
  { symmetry. apply (Z.div_unique_pos _ _ _ (f * N + t)); nia. }
  rewrite H1, H2, H3, H4. reflexivity.
Qed.

Lemma encode_decode (N i : Z) : 0 < N → encode N (decode N i) = i.
Proof.
  intros HN. unfold decode, encode.
  rewrite <- Z.div_div by lia.
  pose proof (Z.div_mod i N ltac:(lia)).
  pose proof (Z.div_mod (i / N) N ltac:(lia)).
  nia.
Qed.

Lemma decode_in_domain (N i : Z) :
  0 < N → 0 <= i < 2 * N * N → in_domain N (decode N i).
Proof.
  intros HN Hi. unfold decode, in_domain.
  pose proof (Z.mod_pos_bound (i / N) N HN).
  pose proof (Z.mod_pos_bound i N HN).
  split; [lia|]. split; [lia|].
  split; [apply Z.div_pos; nia|].
  apply Z.div_lt_upper_bound; nia.
Qed.

Lemma encode_range (N f t o : Z) :
  0 <= f < N → 0 <= t < N → 0 <= o < 2 → 0 <= encode N (f, t, o) < 2 * N * N.
Proof. intros. unfold encode. nia. Qed.

(** ** The loops of the codec *)

Lemma codec_step_upto (N o f t : Z) (st : codec) :
  0 <= f < N → 0 <= t < N → 0 <= o →
  codec_upto N st (encode N (f, t, o)) →
  codec_upto N (codec_step o f st t) (encode N (f, t, o) + 1).
Proof.
  intros Hf Ht Ho. destruct st as [[d cp] k]. simpl.
  set (m := o * N * N + f * N + t).
  assert (Hm : 0 <= m) by (unfold m; nia).
  assert (Hdec : decode N m = (f, t, o)) by (apply (decode_encode N f t o); lia).
  intros (-> & Hlen & Hsz & Hcp & Hd).
  split; [reflexivity|]. split; [rewrite length_app; simpl; lia|]. split.
  { rewrite map_size_insert_None; [lia|].
    destruct (d !! (f, t, o)) as [v|] eqn:Hv; [|done].
    destruct (Hd _ _ Hv) as [Hlt Hp]. rewrite <- Hdec in Hp.
    assert (v = m); [|lia].
    rewrite <- (encode_decode N v), <- (encode_decode N m) by lia. by rewrite Hp. }
  split.
  - intros i Hi. destruct (decide (i = m)) as [->|Hne].
    + rewrite Hdec. split; [|apply lookup_insert_eq].
      rewrite lookup_app_r by lia.
      replace (Z.to_nat m - length cp)%nat with 0%nat by lia. reflexivity.
    + destruct (Hcp i ltac:(lia)) as [H1 H2]. split.
      * rewrite lookup_app_l; [exact H1|lia].
      * rewrite lookup_insert_ne; [exact H2|].
        intros Heq. apply Hne. rewrite <- Hdec in Heq.
        rewrite <- (encode_decode N i), <- (encode_decode N m) by lia.
        by rewrite Heq.
  - intros p v Hp. destruct (decide (p = (f, t, o))) as [->|Hne].
    + rewrite lookup_insert_eq in Hp. injection Hp as <-. split; [lia|by rewrite Hdec].
    + rewrite lookup_insert_ne in Hp by done.
      destruct (Hd p v Hp). split; [lia|done].
Qed.

Lemma create_codec_upto (N : Z) :
  0 <= N → codec_upto N (create_link_state_dict_and_pair_list N) (2 * N * N).
Proof.
  intros HN. unfold create_link_state_dict_and_pair_list, range.
  apply (foldl_seqZ_inv (λ o st, codec_upto N st (o * N * N)) _ 0 2); [lia| |].
  { simpl. repeat split; try lia; intros; simplify_map_eq. }
  intros o st Ho Hst.
  replace ((o + 1) * N * N) with (o * N * N + N * N) by lia.
  apply (foldl_seqZ_inv (λ f st, codec_upto N st (o * N * N + f * N)) _ 0 N);
    [lia|by rewrite Z.add_0_r|].
  intros f st' Hf Hst'.
  replace (o * N * N + (f + 1) * N) with (o * N * N + f * N + N) by lia.
  apply (foldl_seqZ_inv (λ t st, codec_upto N st (o * N * N + f * N + t)) _ 0 N);
    [lia|by rewrite Z.add_0_r|].
  intros t st'' Ht Hst''.
  rewrite Z.add_assoc.
  apply (codec_step_upto N o f t); [lia|lia|lia|exact Hst''].
Qed.

(** ** What the methods leave alone *)

Section Frame.
Context {RS : RandomSource} {HQ : HeapQ}.

Lemma update_link_state_frame self l x t g self' g' :
  update_link_state self l x t g = Ok (self', g') →
  config_of self' = config_of self ∧ node_state self' = node_state self
  ∧ current_time self' = current_time self.
Proof.
  unfold update_link_state. intros H. inv_res.
  destruct (0 <? _); inv_res; simpl; done.
Qed.

Lemma update_node_states_frame self fn tn x self' b1 b2 :
  update_node_states self fn tn x = Ok (self', b1, b2) →
  config_of self' = config_of self ∧ current_time self' = current_time self
  ∧ link_state self' = link_state self ∧ next_update self' = next_update self
  ∧ event_queue self' = event_queue self.
Proof.
  unfold update_node_states. intros H. inv_res.
  destruct (_ =? CORE_NODE) in E2; destruct (_ =? CORE_NODE) in E4; inv_res; simpl; done.
Qed.

Lemma update_links_of_node_frame self ev n g self' g' :
  update_links_of_node self ev n g = Ok (self', g') →
  config_of self' = config_of self ∧ node_state self' = node_state self
  ∧ current_time self' = current_time self.
Proof.
  unfold update_links_of_node. intros H. inv_res.
  revert H. apply (for_in_inv (λ '(s, _), config_of s = config_of self
    ∧ node_state s = node_state self ∧ current_time s = current_time self)); [|done].
  intros lnk [s1 g1] [s2 g2] _ (Hc & Hn & Ht) Hb.
  destruct (_ && _); inv_res; [|done].
  apply update_link_state_frame in Hb as (-> & -> & ->). done.
Qed.

(** What it means for [do_transition] to return. *)
Lemma do_transition_Ok self ev t g self' g' :
  do_transition self ev t g = Ok (self', g') →
  ∃ nu, getitem (next_update self) (Event.link ev) = Ok nu ∧
    ((Qeq_bool (Event.time ev) nu = false ∧ self' = self ∧ g' = g) ∨
     (Qeq_bool (Event.time ev) nu = true ∧
      ∃ fn tn s1 fc tc s2 g2 s3 g3,
        getitem (activelink_fromnode (grid self)) (Event.link ev) = Ok fn ∧
        getitem (activelink_tonode (grid self)) (Event.link ev) = Ok tn ∧
        update_node_states self fn tn (Event.xn_to ev) = Ok (s1, fc, tc) ∧
        update_link_state s1 (Event.link ev) (Event.xn_to ev) (Event.time ev) g
          = Ok (s2, g2) ∧
        (if fc then update_links_of_node s2 ev fn g2 else Ok (s2, g2)) = Ok (s3, g3) ∧
        (if tc then update_links_of_node s3 ev tn g3 else Ok (s3, g3))
          = Ok (self', g'))).
Proof.
  unfold do_transition. intros H. inv_res. eexists; split; [eassumption|].
  destruct (Qeq_bool _ _); inv_res; [right|left; done].
  split; [done|]. do 9 eexists. repeat (split; [eassumption|]). eassumption.
Qed.

Lemma do_transition_frame self ev t g self' g' :
  do_transition self ev t g = Ok (self', g') →
  config_of self' = config_of self ∧ current_time self' = current_time self.
Proof.
  intros H. apply do_transition_Ok in H as (nu & _ & [(_ & -> & _)|(_ & H)]); [done|].
  destruct H as (fn & tn & s1 & fc & tc & s2 & g2 & s3 & g3 & _ & _ & H1 & H2 & H3 & H4).
  apply update_node_states_frame in H1 as (Hc1 & Ht1 & _).
  apply update_link_state_frame in H2 as (Hc2 & _ & Ht2).
  assert (config_of s3 = config_of s2 ∧ current_time s3 = current_time s2) as [Hc3 Ht3].
  { destruct fc; inv_res; [|done]. apply update_links_of_node_frame in H3. tauto. }
  assert (config_of self' = config_of s3 ∧ current_time self' = current_time s3) as [Hc4 Ht4].
  { destruct tc; inv_res; [|done]. apply update_links_of_node_frame in H4. tauto. }
  split; congruence.
Qed.

Lemma run_step_frame self g ev self' g' :
  run_step self g = Ok (ev, self', g') →
  config_of self' = config_of self ∧ current_time self' = Event.time ev.
Proof.
  unfold run_step. intros H. inv_res.
  match goal with H : do_transition _ _ _ _ = _ |- _ =>
    apply do_transition_frame in H as [Hc _] end.
  simpl. split; [|done]. exact Hc.
Qed.

Lemma push_transitions_to_event_queue_frame self g self' g' :
  push_transitions_to_event_queue self g = Ok (self', g') →
  config_of self' = config_of self ∧ node_state self' = node_state self
  ∧ link_state self' = link_state self ∧ current_time self' = current_time self.
Proof.
  unfold push_transitions_to_event_queue.
  apply (for_in_inv (λ '(s, _), config_of s = config_of self
    ∧ node_state s = node_state self ∧ link_state s = link_state self
    ∧ current_time s = current_time self)); [|done].
  intros i [s1 g1] [s2 g2] _ (Hc & Hn & Hl & Ht) Hb. inv_res.
  destruct (0 <? _); inv_res; simpl; done.
Qed.

End Frame.

(** ** The constructor *)

Lemma assign_link_states_from_node_types_frame self self' :
  assign_link_states_from_node_types self = Ok self' →
  self' = set_link_state self (link_state self').
Proof. unfold assign_link_states_from_node_types. intros H. inv_res. reflexivity. Qed.

Lemma setup_transition_data_frame σ xn_list self self' :
  setup_transition_data σ xn_list self = Ok self' →
  self' = set_transition_data self (n_xn self') (xn_to self') (xn_rate self').
Proof. unfold setup_transition_data. intros H. inv_res. reflexivity. Qed.

Section Init.
Context {RS : RandomSource} {HQ : HeapQ}.

(** What it means for [__init__] to return. *)
Lemma init_Ok model_grid nsd σ tl ins g self σ' g' :
  __init__ model_grid nsd σ tl ins g = Ok (self, σ', g') →
  let N := Z.of_nat (size nsd) in
  ∃ d cp k tl' s1 s2,
    Z.of_nat (length ins) = number_of_nodes model_grid ∧
    check_transition_list (2 * N * N) N σ tl = Ok tt ∧
    create_link_state_dict_and_pair_list N = (d, cp, k) ∧
    convert_transition_list d σ tl = Ok (σ', tl') ∧
    assign_link_states_from_node_types (init_base model_grid N ins d cp) = Ok s1 ∧
    setup_transition_data σ' tl' s1 = Ok s2 ∧
    push_transitions_to_event_queue s2 g = Ok (self, g').
Proof.
  intros H N. unfold __init__, set_node_state_grid in H. simpl in H. inv_res.
  subst N.
  match goal with H : check_transition_list _ _ _ _ = Ok ?u |- _ => destruct u end.
  match goal with H : create_link_state_dict_and_pair_list _ = (?d, ?cp, ?k) |- _ =>
    exists d, cp, k end.
  do 3 eexists.
  split; [by apply Z.eqb_eq|]. repeat (split; [eassumption|]). eassumption.
Qed.

(** The codec and the counts of states of a constructed engine. *)
Lemma init_codec model_grid nsd σ tl ins g self σ' g' :
  __init__ model_grid nsd σ tl ins g = Ok (self, σ', g') →
  let N := Z.of_nat (size nsd) in
  num_node_states self = N ∧ num_link_states self = 2 * N * N ∧
  grid self = model_grid ∧ node_active_links self = active_node_links model_grid ∧
  number_of_vertical_links self
    = number_of_node_columns model_grid * (number_of_node_rows model_grid - 1) ∧
  node_state self = ins ∧ current_time self = 0%Q ∧
  ∃ k, create_link_state_dict_and_pair_list N = (link_state_dict self, cell_pair self, k).
Proof.
  intros H N. apply init_Ok in H as (d & cp & k & tl' & s1 & s2 & _ & _ & Hc & _ & H1 & H2 & H3).
  fold N in Hc, H1.
  apply push_transitions_to_event_queue_frame in H3 as (H3 & H3n & _ & H3t).
  apply setup_transition_data_frame in H2.
  apply assign_link_states_from_node_types_frame in H1.
  unfold config_of in H3. rewrite H2, H1 in H3. simpl in H3.
  rewrite H3n, H3t, H2, H1. simpl.
  injection H3 as ?????????. subst.
  repeat (split; [done|]). by exists k.
Qed.

(** What it means for a session to return. *)
Lemma simulate_Ok fuel model_grid nsd σ tl ins calls g tr self σ' g' :
  simulate fuel model_grid nsd σ tl ins calls g = Ok (tr, self, σ', g') →
  ∃ self0 g0, __init__ model_grid nsd σ tl ins g = Ok (self0, σ', g0)
    ∧ run_calls fuel self0 calls g0 = Ok (tr, self, g').
Proof.
  unfold simulate. intros H.
  apply bind_Ok in H as ([[self0 σ0] g0] & Hinit & H). simpl in H.
  apply bind_Ok in H as ([[tr0 s0] g1] & Hrun & H). simpl in H.
  injection H as <- <- <- <-. eauto.
Qed.

End Init.

(** ** The codec of the engine *)

Lemma getitem_Some {A} (l : list A) (i : Z) (x : A) :
  0 <= i → l !! Z.to_nat i = Some x → getitem l i = Ok x.
Proof.
  intros Hi Hl. unfold getitem, norm_index.
  pose proof (lookup_lt_Some _ _ _ Hl).
  replace (0 <=? i) with true by (symmetry; apply Z.leb_le; lia).
  replace (i <? Z.of_nat (length l)) with true by (symmetry; apply Z.ltb_lt; lia).
  simpl. by rewrite Hl.
Qed.

Section Codec.
Context {RS : RandomSource} {HQ : HeapQ}.

Lemma init_codec_upto model_grid nsd σ tl ins g self σ' g' :
  __init__ model_grid nsd σ tl ins g = Ok (self, σ', g') →
  ∃ k, codec_upto (num_node_states self) (link_state_dict self, cell_pair self, k)
         (num_link_states self).
Proof.
  intros H. apply init_codec in H as (HN & HL & _ & _ & _ & _ & _ & k & Hk).
  exists k. rewrite <- Hk, HN, HL. apply create_codec_upto. lia.
Qed.

End Codec.

(** C2. The codec follows the canonical enumeration, orientation outermost,
    then from-state, then to-state: in a constructed engine with [N] node
    states every triple [(f, t, o)] with [f, t < N] and [o < 2] has the id
    [o·N² + f·N + t], and there are [2·N²] link states, which is also the
    length of the pair list and the size of the dictionary. *)
Theorem codec_canonical_enumeration
    {RS : RandomSource} {HQ : HeapQ} model_grid nsd σ tl ins g self σ' g' :
  __init__ model_grid nsd σ tl ins g = Ok (self, σ', g') →
  let N := Z.of_nat (size nsd) in
  num_node_states self = N ∧
  num_link_states self = 2 * N * N ∧
  Z.of_nat (length (cell_pair self)) = 2 * N * N ∧
  Z.of_nat (size (link_state_dict self)) = 2 * N * N ∧
  ∀ f t o, 0 <= f < N → 0 <= t < N → 0 <= o < 2 →
    dict_get (link_state_dict self) (f, t, o) = Ok (o * N * N + f * N + t).
Proof.
  intros H N. pose proof (init_codec_upto _ _ _ _ _ _ _ _ _ H) as (k & Hk).
  apply init_codec in H as (HN & HL & _). fold N in HN, HL.
  rewrite HN, HL in Hk. destruct Hk as (_ & Hlen & Hsz & Hcp & _).
  repeat (split; [done|]). intros f t o Hf Ht Ho.
  pose proof (encode_range N f t o Hf Ht Ho) as Hr.
  destruct (Hcp _ Hr) as [_ Hd]. rewrite decode_encode in Hd by lia.
  unfold dict_get. rewrite Hd. reflexivity.
Qed.

(** C8. Encoding and decoding are inverse to each other in a constructed
    engine: the pair list at the id of a triple of the domain holds that
    triple, and the dictionary at the triple that the pair list holds for an
    id below the number of link states gives back that id. *)
Theorem codec_roundtrip
    {RS : RandomSource} {HQ : HeapQ} model_grid nsd σ tl ins g self σ' g' :
  __init__ model_grid nsd σ tl ins g = Ok (self, σ', g') →
  (∀ f t o, 0 <= f < num_node_states self → 0 <= t < num_node_states self →
     0 <= o < 2 →
     (k ← dict_get (link_state_dict self) (f, t, o); getitem (cell_pair self) k)
       = Ok (f, t, o)) ∧
  (∀ id, 0 <= id < num_link_states self →
     (p ← getitem (cell_pair self) id; dict_get (link_state_dict self) p) = Ok id).
Proof.
  intros H. pose proof (init_codec_upto _ _ _ _ _ _ _ _ _ H) as (k & Hk).
  apply init_codec in H as (HN & HL & _).
  set (N := num_node_states self) in *. rewrite HL, <- HN in Hk.
  destruct Hk as (_ & Hlen & Hsz & Hcp & _). split.
  - intros f t o Hf Ht Ho.
    pose proof (encode_range N f t o Hf Ht Ho) as Hr.
    destruct (Hcp _ Hr) as [Hc Hd]. rewrite decode_encode in Hd, Hc by lia.
    unfold dict_get. rewrite Hd. simpl. apply getitem_Some; [apply Hr|exact Hc].
  - intros id Hid. rewrite HL, <- HN in Hid. fold N in Hid.
    destruct (Hcp _ Hid) as [Hc Hd].
    rewrite (getitem_Some _ id _ (proj1 Hid) Hc). simpl.
    unfold dict_get. by rewrite Hd.
Qed.

(** ** Arrays *)

Lemma norm_index_nonneg (n : nat) (i : Z) (k : nat) :
  0 <= i → norm_index n i = Some k → k = Z.to_nat i ∧ i < Z.of_nat n.
Proof.
  intros Hi. unfold norm_index.
  destruct (0 <=? i) eqn:E1; [|lia]. destruct (i <? Z.of_nat n) eqn:E2; simpl.
  - intros [= <-]. split; [done|lia].
  - destruct (- Z.of_nat n <=? i); simpl; [|done].
    destruct (i <? 0) eqn:E3; [lia|done].
Qed.

Lemma norm_index_lt (n : nat) (i : Z) (k : nat) :
  norm_index n i = Some k → (k < n)%nat.
Proof.
  unfold norm_index.
  destruct (0 <=? i) eqn:E1; destruct (i <? Z.of_nat n) eqn:E2; simpl;
    try (intros [= <-]; lia);
    destruct (- Z.of_nat n <=? i) eqn:E3; destruct (i <? 0) eqn:E4; simpl;
    try done; intros [= <-]; lia.
Qed.

Lemma norm_index_in_range (n : nat) (i : Z) :
  0 <= i < Z.of_nat n → norm_index n i = Some (Z.to_nat i).
Proof.
  intros Hi. unfold norm_index.
  replace (0 <=? i) with true by (symmetry; apply Z.leb_le; lia).
  replace (i <? Z.of_nat n) with true by (symmetry; apply Z.ltb_lt; lia).
  reflexivity.
Qed.

Lemma getitem_Ok {A} (l : list A) (i : Z) (x : A) :
  getitem l i = Ok x → ∃ k, norm_index (length l) i = Some k ∧ l !! k = Some x.
Proof.
  unfold getitem. destruct (norm_index _ _) as [k|]; [|done].
  destruct (l !! k) eqn:E; [|done]. intros [= <-]. eauto.
Qed.

Lemma getitem_Ok_nonneg {A} (l : list A) (i : Z) (x : A) :
  0 <= i → getitem l i = Ok x → l !! Z.to_nat i = Some x ∧ i < Z.of_nat (length l).
Proof.
  intros Hi H. apply getitem_Ok in H as (k & Hk & Hl).
  apply norm_index_nonneg in Hk as [-> ?]; done.
Qed.

Lemma setitem_Ok {A} (l : list A) (i : Z) (x : A) (l' : list A) :
  setitem l i x = Ok l' →
  ∃ k, norm_index (length l) i = Some k ∧ l' = <[k:=x]> l.
Proof.
  unfold setitem. destruct (norm_index _ _) as [k|]; [|done]. intros [= <-]. eauto.
Qed.

Lemma setitem_length {A} (l : list A) (i : Z) (x : A) (l' : list A) :
  setitem l i x = Ok l' → length l' = length l.
Proof. intros H. apply setitem_Ok in H as (k & _ & ->). apply length_insert. Qed.

Lemma getitem_setitem {A} (l : list A) (i : Z) (x : A) (l' : list A) :
  setitem l i x = Ok l' → getitem l' i = Ok x.
Proof.
  intros H. apply setitem_Ok in H as (k & Hk & ->).
  unfold getitem. rewrite length_insert, Hk.
  rewrite list_lookup_insert_eq; [done|]. by eapply norm_index_lt.
Qed.

Lemma for_in_seqZ_inv {T} (P : Z → T → Prop) (body : Z → T → res T) (a n : Z) (s s' : T) :
  0 <= n → P a s →
  (∀ i s s', a <= i < a + n → P i s → body i s = Ok s' → P (i + 1) s') →
  for_in (seqZ a n) body s = Ok s' → P (a + n) s'.
Proof.
  intros Hn. rewrite <- (Z2Nat.id n) by done. clear Hn.
  generalize (Z.to_nat n) as k. clear n. intros k. revert a s.
  induction k as [|k IH]; intros a s HP Hstep H.
  - simpl in H. inv_res. rewrite Z.add_0_r. exact HP.
  - rewrite seqZ_cons in H by lia. simpl in H. inv_res.
    replace (Z.pred (Z.of_nat (S k))) with (Z.of_nat k) in H by lia.
    replace (a + Z.of_nat (S k)) with (Z.succ a + Z.of_nat k) by lia.
    eapply IH; [| |exact H].
    + replace (Z.succ a) with (a + 1) by lia. eapply Hstep; [lia|exact HP|eassumption].
    + intros i s1 s2 Hi. apply Hstep. lia.
Qed.

(** ** Stale events *)

Lemma do_transition_stale
    {RS : RandomSource} {HQ : HeapQ} self event current_time g nu :
  getitem (next_update self) (Event.link event) = Ok nu →
  ¬ (Event.time event == nu)%Q →
  do_transition self event current_time g = Ok (self, g).
Proof.
  intros Hnu Hne. unfold do_transition. rewrite Hnu. simpl.
  destruct (Qeq_bool (Event.time event) nu) eqn:E; [|reflexivity].
  apply Qeq_bool_iff in E. contradiction.
Qed.

(** C4. An event whose time differs from the [next_update] entry of its link
    is discarded: [do_transition] returns the engine as it was (node
    states, link states, [next_update], the event queue and the clock) and
    draws nothing from the random source. *)
Theorem stale_event_is_noop
    {RS : RandomSource} {HQ : HeapQ} self event current_time g nu :
  getitem (next_update self) (Event.link event) = Ok nu →
  ¬ (Event.time event == nu)%Q →
  do_transition self event current_time g = Ok (self, g).
Proof. apply do_transition_stale. Qed.

(** ** Normalisation of the transition list *)

Lemma dict_get_val_Ok d v k :
  dict_get_val d v = Ok k →
  ∃ f t o, v = PTuple [f; t; o] ∧ d !! (f, t, o) = Some k.
Proof.
  destruct v as [z|[|f [|t [|o [|??]]]]]; simpl; try done.
  unfold dict_get. intros H. case_match; [|done]. injection H as <-. eauto 6.
Qed.

Lemma deref_Ok σ r t : deref σ r = Ok t → σ !! r = Some t.
Proof. unfold deref. destruct (σ !! r); [|done]. by intros [= <-]. Qed.

(** The loop of the conversion, seen from the store: the objects named by
    the references already visited hold ids, the others are as they were. *)
Lemma convert_loop d (σ : store) (tl : list nat) (σ' : store) :
  for_in (range (Z.of_nat (length tl)))
    (λ i σ,
       src ← getitem tl i;
       dst ← getitem tl i;
       t ← deref σ src;
       k ← dict_get_val d (from_state t);
       σ ← set_from_state σ dst (PInt k);
       t ← deref σ src;
       k' ← dict_get_val d (to_state t);
       set_to_state σ dst (PInt k')) σ = Ok σ' →
  (∀ r, r ∈ tl →
     ∃ t p q k k', σ !! r = Some t ∧
       from_state t = PTuple [p.1.1; p.1.2; p.2] ∧ d !! p = Some k ∧
       to_state t = PTuple [q.1.1; q.1.2; q.2] ∧ d !! q = Some k' ∧
       σ' !! r = Some (mkTransition (PInt k) (PInt k') (rate t) (name t))) ∧
  (∀ r, r ∉ tl → σ' !! r = σ !! r).
Proof.
  intros H.
  set (P := λ (i : Z) (σi : store),
    (∀ r, r ∈ take (Z.to_nat i) tl →
       ∃ t p q k k', σ !! r = Some t ∧
         from_state t = PTuple [p.1.1; p.1.2; p.2] ∧ d !! p = Some k ∧
         to_state t = PTuple [q.1.1; q.1.2; q.2] ∧ d !! q = Some k' ∧
         σi !! r = Some (mkTransition (PInt k) (PInt k') (rate t) (name t))) ∧
    (∀ r, r ∉ take (Z.to_nat i) tl → σi !! r = σ !! r)).
  assert (HP : P (0 + Z.of_nat (length tl)) σ').
  { revert H. unfold range. apply for_in_seqZ_inv; [lia| |].
    - split; [intros r Hr; simpl in Hr; by apply elem_of_nil in Hr|done].
    - clear σ'. intros i σi σ' Hi [Hconv Hsame] Hb. inv_res.
      repeat match goal with H : getitem tl i = Ok _ |- _ =>
        apply getitem_Ok_nonneg in H as [H _]; [|lia] end.
      repeat match goal with H : deref _ _ = Ok _ |- _ => apply deref_Ok in H end.
      unfold set_from_state, set_to_state in *. inv_res.
      repeat match goal with H : deref _ _ = Ok _ |- _ => apply deref_Ok in H end.
      repeat match goal with H : dict_get_val _ _ = Ok _ |- _ =>
        apply dict_get_val_Ok in H as (? & ? & ? & ? & ?) end.
      simplify_eq.
      match goal with H : tl !! Z.to_nat i = Some ?r |- _ => rename r into src; rename H into Hsrc end.
      match goal with H : σi !! src = Some ?x |- _ => rename x into t; rename H into Ht end.
      assert (Hlt : (src < length σi)%nat) by (by eapply lookup_lt_Some).
      assert (Hfresh : src ∉ take (Z.to_nat i) tl).
      { intros Hin. destruct (Hconv _ Hin) as (t' & p & q & k & k' & _ & _ & _ & _ & _ & Hs).
        rewrite Ht in Hs. injection Hs as ->. simpl in *. congruence. }

      match goal with H : <[_:=_]> _ !! _ = Some _ |- _ =>
        rename H into Hins end.
      rewrite list_lookup_insert_eq in Hins by done. injection Hins as <-.
      simpl in *. unfold P.
      replace (Z.to_nat (i + 1)) with (S (Z.to_nat i)) by lia.
      rewrite (take_S_r _ _ _ Hsrc). split.
      + intros r Hr. apply elem_of_app in Hr as [Hr|Hr].
        * assert (r ≠ src) by congruence.
          destruct (Hconv _ Hr) as (t' & p & q & k & k' & ? & ? & ? & ? & ? & ?).
          exists t', p, q, k, k'. repeat (split; [done|]).
          rewrite !list_lookup_insert_ne by done. done.
        * apply list_elem_of_singleton in Hr as ->.
          rewrite <- (Hsame _ Hfresh), Ht.
          eexists t, (_, _, _), (_, _, _), _, _. simpl.
          repeat (split; [eassumption|]).
          rewrite list_lookup_insert_eq; [done|]. by rewrite length_insert.
      + intros r Hr. rewrite not_elem_of_app in Hr. destruct Hr as [Hr1 Hr2].
        rewrite list_elem_of_singleton in Hr2.
        rewrite !list_lookup_insert_ne by done. by apply Hsame. }
  unfold P in HP. rewrite Z.add_0_l, Nat2Z.id, firstn_all in HP. exact HP.
Qed.

Lemma convert_transition_list_tuples d (σ : store) (tl : list nat) (σ' : store) tl' :
  convert_transition_list d σ tl = Ok (σ', tl') →
  (∃ r0 t0, tl !! 0%nat = Some r0 ∧ σ !! r0 = Some t0 ∧ is_tuple (from_state t0) = true) →
  tl' = tl ∧
  (∀ r, r ∈ tl →
     ∃ t p q k k', σ !! r = Some t ∧
       from_state t = PTuple [p.1.1; p.1.2; p.2] ∧ d !! p = Some k ∧
       to_state t = PTuple [q.1.1; q.1.2; q.2] ∧ d !! q = Some k' ∧
       σ' !! r = Some (mkTransition (PInt k) (PInt k') (rate t) (name t))) ∧
  (∀ r, r ∉ tl → σ' !! r = σ !! r).
Proof.
  unfold convert_transition_list. intros H (r0 & t0 & Hr0 & Ht0 & Htup).
  apply bind_Ok in H as (r & Hr & H). apply bind_Ok in H as (t & Ht & H).
  apply getitem_Ok_nonneg in Hr as [Hr _]; [|lia]. change (Z.to_nat 0) with 0%nat in Hr.
  apply deref_Ok in Ht. simplify_eq. cbv beta in H. rewrite Htup in H. inv_res.
  split; [reflexivity|]. by apply convert_loop.
Qed.

(** C10. When the rules are given as tuples, the constructor writes the ids
    into the caller's [Transition] objects: after construction every object
    named in the caller's list holds, in place of its two tuples, their ids
    in the canonical enumeration (rate and name are kept), and the objects
    the list does not name are untouched. *)
Theorem init_overwrites_callers_transitions
    {RS : RandomSource} {HQ : HeapQ} model_grid nsd (σ : store) tl ins g self (σ' : store) g' :
  __init__ model_grid nsd σ tl ins g = Ok (self, σ', g') →
  (∃ r0 t0, tl !! 0%nat = Some r0 ∧ σ !! r0 = Some t0 ∧ is_tuple (from_state t0) = true) →
  let N := Z.of_nat (size nsd) in
  (∀ r, r ∈ tl →
     ∃ t p q, σ !! r = Some t ∧
       from_state t = PTuple [p.1.1; p.1.2; p.2] ∧
       to_state t = PTuple [q.1.1; q.1.2; q.2] ∧
       σ' !! r = Some (mkTransition (PInt (encode N p)) (PInt (encode N q))
                         (rate t) (name t)) ∧
       from_state t ≠ PInt (encode N p) ∧ to_state t ≠ PInt (encode N q)) ∧
  (∀ r, r ∉ tl → σ' !! r = σ !! r).
Proof.
  intros H Hfirst N.
  pose proof (init_Ok _ _ _ _ _ _ _ _ _ H) as (d & cp & k & tl' & s1 & s2 & _ & _ & Hc & Hconv & _).
  fold N in Hc. pose proof (create_codec_upto N ltac:(lia)) as Hup.
  rewrite Hc in Hup. destruct Hup as (_ & _ & _ & _ & Hd).
  apply convert_transition_list_tuples in Hconv as (_ & Hin & Hout); [|exact Hfirst].
  split; [|exact Hout]. intros r Hr.
  destruct (Hin r Hr) as (t & p & q & kp & kq & Ht & Hf & Hp & Hto & Hq & Hs).
  destruct (Hd _ _ Hp) as [Hkp ->]. destruct (Hd _ _ Hq) as [Hkq ->].
  assert (0 < N) by nia.
  exists t, (decode N kp), (decode N kq). rewrite !encode_decode by done.
  repeat (split; [done|]). rewrite Hf, Hto. done.
Qed.

(** ** Validation of the transition list *)

Lemma check_transition_same_states NL NN t t' last :
  from_state t = from_state t' → to_state t = to_state t' →
  check_transition NL NN t last = check_transition NL NN t' last.
Proof.
  intros Hf Ht. unfold check_transition, check_as_int, check_as_tuple.
  by rewrite Hf, Ht.
Qed.

Lemma deref_same_states (σ σ' : store) r :
  same_states σ σ' →
  match deref σ r, deref σ' r with
  | Ok t, Ok t' => from_state t = from_state t' ∧ to_state t = to_state t'
  | Raise e, Raise e' => e = e'
  | _, _ => False
  end.
Proof.
  intros Hs. unfold deref. destruct (σ !! r) as [t|] eqn:E.
  - destruct (Forall2_lookup_l _ _ _ _ _ Hs E) as (t' & E' & Hf & Ht). by rewrite E'.
  - assert (σ' !! r = None) as ->; [|done].
    apply lookup_ge_None. apply lookup_ge_None in E.
    by rewrite <- (Forall2_length _ _ _ Hs).
Qed.

Lemma check_loop_same_states NL NN (σ σ' : store) tl last :
  same_states σ σ' →
  for_in tl (λ r last_type, t ← deref σ r; check_transition NL NN t last_type) last
  = for_in tl (λ r last_type, t ← deref σ' r; check_transition NL NN t last_type) last.
Proof.
  intros Hs. revert last. induction tl as [|r tl IH]; intros last; simpl; [done|].
  pose proof (deref_same_states σ σ' r Hs) as Hd.
  destruct (deref σ r) as [t|e], (deref σ' r) as [t'|e']; try done; simpl.
  - destruct Hd as [Hf Ht].
    rewrite (check_transition_same_states NL NN t t' last Hf Ht).
    destruct (check_transition NL NN t' last); simpl; [apply IH|done].
  - by subst.
Qed.

(** C7, as the code has it. The checks of the constructor on the transition
    list do not look at the rates: two lists of rules that name the same
    link states pass or fail these checks together, with the same error,
    whatever their rates, non-positive rates included. *)
Theorem validation_ignores_rates NL NN (σ σ' : store) tl :
  same_states σ σ' →
  check_transition_list NL NN σ tl = check_transition_list NL NN σ' tl.
Proof.
  intros Hs. unfold check_transition_list.
  by rewrite (check_loop_same_states NL NN σ σ' tl None Hs).
Qed.

(** ** The loop of [run] *)

Section Loop.
Context {RS : RandomSource} {HQ : HeapQ}.

(** [run_loop] is [run_loop_trace] without the record. *)
Lemma run_loop_trace_forget fuel self d g :
  run_loop fuel self d g = ('(_, self', g') ← run_loop_trace fuel self d g; Ok (self', g')).
Proof.
  revert self g. induction fuel as [|fuel IH]; intros self g; simpl.
  - destruct (run_guard self d); reflexivity.
  - destruct (run_guard self d); [|reflexivity].
    destruct (run_step self g) as [[[ev s1] g1]|e]; simpl; [|reflexivity].
    rewrite IH. destruct (run_loop_trace fuel s1 d g1) as [[[tr s2] g2]|e]; reflexivity.
Qed.

(** [run] is a single call of [run_calls]. *)
Lemma run_calls_single fuel self d nsg g :
  run fuel self d nsg g
  = ('(_, self', g') ← run_calls fuel self [(d, nsg)] g; Ok (self', g')).
Proof.
  unfold run. simpl.
  destruct (match nsg with Some ns => set_node_state_grid self ns | None => Ok self end)
    as [s1|e]; simpl; [|reflexivity].
  rewrite run_loop_trace_forget.
  destruct (run_loop_trace fuel s1 d g) as [[[tr s2] g2]|e]; simpl; [|reflexivity].
  reflexivity.
Qed.

(** A property kept by every pass through the loop holds when the loop
    is left. *)
Lemma run_loop_trace_inv (P : LinkCellularAutomaton → Prop) :
  (∀ s g ev s' g', P s → run_step s g = Ok (ev, s', g') → P s') →
  ∀ fuel s d g tr s' g',
    P s → run_loop_trace fuel s d g = Ok (tr, s', g') → P s'.
Proof.
  intros Hstep. induction fuel as [|fuel IH]; intros s d g tr s' g' HP H; simpl in H.
  - destruct (run_guard s d); inv_res. exact HP.
  - destruct (run_guard s d); inv_res; [|exact HP].
    eapply IH; [|eassumption]. eapply Hstep; eassumption.
Qed.

Lemma run_calls_inv (P : LinkCellularAutomaton → Prop) :
  (∀ s g ev s' g', P s → run_step s g = Ok (ev, s', g') → P s') →
  (∀ s ns s', P s → set_node_state_grid s ns = Ok s' → P s') →
  ∀ fuel calls s g tr s' g',
    P s → run_calls fuel s calls g = Ok (tr, s', g') → P s'.
Proof.
  intros Hstep Hset fuel. induction calls as [|[d nsg] calls IH];
    intros s g tr s' g' HP H; simpl in H.
  - inv_res. exact HP.
  - inv_res. eapply IH; [|eassumption].
    eapply run_loop_trace_inv; [exact Hstep| |eassumption].
    destruct nsg; inv_res; [|exact HP]. eapply Hset; eassumption.
Qed.

(** The same when no call passes a grid of node states. *)
Lemma run_calls_inv_None (P : LinkCellularAutomaton → Prop) :
  (∀ s g ev s' g', P s → run_step s g = Ok (ev, s', g') → P s') →
  ∀ fuel calls s g tr s' g',
    Forall (λ c : Q * option (list Z), c.2 = None) calls →
    P s → run_calls fuel s calls g = Ok (tr, s', g') → P s'.
Proof.
  intros Hstep fuel. induction calls as [|[d nsg] calls IH];
    intros s g tr s' g' Hnone HP H; simpl in H.
  - inv_res. exact HP.
  - inversion Hnone as [|?? Hd Hcalls]; subst. simpl in Hd. subst nsg. inv_res.
    eapply IH; [exact Hcalls| |eassumption].
    eapply run_loop_trace_inv; [exact Hstep|exact HP|eassumption].
Qed.

End Loop.

(** ** The clock *)

(** C5, as the code has it. The clock is set to the time of every event
    that [run] pops, whether the event is applied or discarded: a pass
    through the loop ends with [current_time] equal to the time of the
    popped event, and when that event is stale the pass changes nothing
    else than the queue, which loses the event, and the clock. *)
Theorem clock_follows_every_popped_event
    {RS : RandomSource} {HQ : HeapQ} self g ev q :
  heappop (event_queue self) = Ok (ev, q) →
  (∀ ev' self' g', run_step self g = Ok (ev', self', g') →
     ev' = ev ∧ current_time self' = Event.time ev) ∧
  (∀ nu, getitem (next_update self) (Event.link ev) = Ok nu →
     ¬ (Event.time ev == nu)%Q →
     run_step self g
     = Ok (ev, set_current_time (set_event_queue self q) (Event.time ev), g)).
Proof.
  intros Hpop. split.
  - intros ev' self' g' H. pose proof (run_step_frame _ _ _ _ _ H) as [_ Ht].
    unfold run_step in H. rewrite Hpop in H. simpl in H. inv_res. done.
  - intros nu Hnu Hne. unfold run_step. rewrite Hpop. simpl.
    rewrite (do_transition_stale _ ev _ g nu); [reflexivity|exact Hnu|exact Hne].
Qed.

(** ** Boundary nodes *)

Lemma update_node_states_boundary self fn tn x self' b1 b2 :
  length (node_state self) = length (node_status (grid self)) →
  update_node_states self fn tn x = Ok (self', b1, b2) →
  length (node_state self') = length (node_state self) ∧
  ∀ k st, node_status (grid self) !! k = Some st → st ≠ CORE_NODE →
    node_state self' !! k = node_state self !! k.
Proof.
  intros Hlen H. unfold update_node_states in H.
  apply bind_Ok in H as (ofs & _ & H). apply bind_Ok in H as (ots & _ & H).
  apply bind_Ok in H as (st1 & Hst1 & H). apply bind_Ok in H as (s1 & Hs1 & H).
  apply bind_Ok in H as (st2 & Hst2 & H). apply bind_Ok in H as (s2 & Hs2 & H).
  inv_res.
  assert (H1 : grid s1 = grid self ∧ length (node_state s1) = length (node_state self) ∧
    ∀ k st, node_status (grid self) !! k = Some st → st ≠ CORE_NODE →
      node_state s1 !! k = node_state self !! k).
  { destruct (st1 =? CORE_NODE) eqn:Ec; inv_res; [|done]. simpl.
    apply Z.eqb_eq in Ec. subst st1.
    match goal with H : setitem _ _ _ = Ok _ |- _ =>
      apply setitem_Ok in H as (k1 & Hk1 & ->) end.
    split; [done|]. split; [apply length_insert|]. intros k st Hk Hst.
    apply list_lookup_insert_ne. intros <-.
    apply getitem_Ok in Hst1 as (k' & Hk' & Hl). rewrite <- Hlen, Hk1 in Hk'.
    injection Hk' as <-. congruence. }
  destruct H1 as (Hg1 & Hl1 & Hb1). rewrite Hg1 in Hst2.
  destruct (st2 =? CORE_NODE) eqn:Ec; inv_res; [|done]. simpl.
  apply Z.eqb_eq in Ec. subst st2.
  match goal with H : setitem _ _ _ = Ok _ |- _ =>
    apply setitem_Ok in H as (k1 & Hk1 & ->) end.
  split; [by rewrite length_insert|]. intros k st Hk Hst.
  rewrite list_lookup_insert_ne; [by apply (Hb1 k st)|]. intros <-.
  apply getitem_Ok in Hst2 as (k' & Hk' & Hl). rewrite <- Hlen, <- Hl1, Hk1 in Hk'.
  injection Hk' as <-. congruence.
Qed.

Section Boundary.
Context {RS : RandomSource} {HQ : HeapQ}.

Lemma do_transition_boundary self ev t g self' g' :
  length (node_state self) = length (node_status (grid self)) →
  do_transition self ev t g = Ok (self', g') →
  length (node_state self') = length (node_state self) ∧
  ∀ k st, node_status (grid self) !! k = Some st → st ≠ CORE_NODE →
    node_state self' !! k = node_state self !! k.
Proof.
  intros Hlen H.
  apply do_transition_Ok in H as (nu & _ & [(_ & -> & _)|(_ & H)]); [done|].
  destruct H as (fn & tn & s1 & fc & tc & s2 & g2 & s3 & g3 & _ & _ & H1 & H2 & H3 & H4).
  apply update_node_states_boundary in H1 as [Hl1 Hb1]; [|exact Hlen].
  apply update_link_state_frame in H2 as (_ & Hn2 & _).
  assert (node_state s3 = node_state s2) as Hn3.
  { destruct fc; inv_res; [|done]. apply update_links_of_node_frame in H3. tauto. }
  assert (node_state self' = node_state s3) as Hn4.
  { destruct tc; inv_res; [|done]. apply update_links_of_node_frame in H4. tauto. }
  rewrite Hn4, Hn3, Hn2. done.
Qed.

Lemma run_step_boundary self g ev self' g' :
  length (node_state self) = length (node_status (grid self)) →
  run_step self g = Ok (ev, self', g') →
  length (node_state self') = length (node_state self) ∧
  ∀ k st, node_status (grid self) !! k = Some st → st ≠ CORE_NODE →
    node_state self' !! k = node_state self !! k.
Proof.
  intros Hlen H. unfold run_step in H. inv_res.
  match goal with H : do_transition _ _ _ _ = _ |- _ =>
    apply do_transition_boundary in H; [|exact Hlen] end.
  done.
Qed.

End Boundary.

(** C3, as the code has it. [update_node_states] writes to core nodes only,
    so through any sequence of calls of [run] that pass no grid of node
    states a node that is not a core node keeps the state it was
    constructed with. (A call that passes [node_state_grid] replaces the
    whole array.) A session without calls is the construction alone. *)
Theorem boundary_nodes_keep_initial_state
    {RS : RandomSource} {HQ : HeapQ}
    fuel model_grid nsd σ tl ins calls g tr self σ' g' :
  Z.of_nat (length (node_status model_grid)) = number_of_nodes model_grid →
  Forall (λ c : Q * option (list Z), c.2 = None) calls →
  simulate fuel model_grid nsd σ tl ins calls g = Ok (tr, self, σ', g') →
  ∀ k st, node_status model_grid !! k = Some st → st ≠ CORE_NODE →
    node_state self !! k = ins !! k.
Proof.
  intros Hst Hnone Hsim.
  apply simulate_Ok in Hsim as (self0 & g0 & Hinit & Hrun).
  pose proof (init_Ok _ _ _ _ _ _ _ _ _ Hinit) as (_ & _ & _ & _ & _ & _ & Hlen & _).
  apply init_codec in Hinit as (_ & _ & Hg & _ & _ & Hns & _).
  set (P := λ s : LinkCellularAutomaton,
    grid s = model_grid ∧ length (node_state s) = length ins ∧
    ∀ k st, node_status model_grid !! k = Some st → st ≠ CORE_NODE →
      node_state s !! k = ins !! k).
  assert (HP : P self); [|apply HP].
  revert Hrun. apply (run_calls_inv_None P); [|exact Hnone|by unfold P; rewrite Hns].
  intros s g1 ev s' g1' (Hgs & Hl & Hb) Hstep.
  pose proof (run_step_frame _ _ _ _ _ Hstep) as [Hc _].
  apply run_step_boundary in Hstep as [Hl' Hb']; [|rewrite Hgs; lia].
  split; [|split].
  - unfold config_of in Hc. congruence.
  - congruence.
  - intros k st Hk Hne. rewrite <- (Hb k st Hk Hne). apply (Hb' k st); [|done].
    by rewrite Hgs.
Qed.

(** ** The order of events *)

Lemma nondecreasing_from_le t t' ts :
  (t' <= t)%Q → nondecreasing_from t ts → nondecreasing_from t' ts.
Proof. destruct ts as [|x ts]; simpl; [done|]. intros ? [? ?]. split; [lra|done]. Qed.

Lemma last_cons_default {A} (x d : A) (l : list A) :
  List.last (x :: l) d = List.last l x.
Proof.
  revert x d. induction l as [|y l IH]; intros x d; [done|].
  change (List.last (x :: y :: l) d) with (List.last (y :: l) d).
  rewrite (IH y d), (IH y x). reflexivity.
Qed.

Lemma last_app_default {A} (l1 l2 : list A) (d : A) :
  List.last (l1 ++ l2) d = List.last l2 (List.last l1 d).
Proof.
  revert d. induction l1 as [|x l1 IH]; intros d; [done|].
  rewrite <- app_comm_cons, !last_cons_default. apply IH.
Qed.

Lemma nondecreasing_from_last t ts :
  nondecreasing_from t ts → (t <= List.last ts t)%Q.
Proof.
  revert t. induction ts as [|x ts IH]; intros t; [simpl; lra|].
  intros [Hx Hts]. rewrite last_cons_default. specialize (IH x Hts). lra.
Qed.

Lemma nondecreasing_from_app t ts1 ts2 :
  nondecreasing_from t ts1 → nondecreasing_from (List.last ts1 t) ts2 →
  nondecreasing_from t (ts1 ++ ts2).
Proof.
  revert t. induction ts1 as [|x ts1 IH]; intros t; simpl; [done|].
  intros [Hx H1] H2. split; [done|]. apply IH; [done|].
  change (nondecreasing_from (List.last (x :: ts1) t) ts2) in H2.
  by rewrite last_cons_default in H2.
Qed.

Lemma nondecreasing_from_applied t tr :
  nondecreasing_from t (times tr) → nondecreasing_from t (times (applied tr)).
Proof.
  revert t. induction tr as [|[e b] tr IH]; intros t; simpl; [done|].
  intros [He Htr]. unfold applied. rewrite filter_cons. simpl.
  destruct (decide (b = true)); simpl.
  - split; [done|]. by apply IH.
  - apply IH. by apply (nondecreasing_from_le (Event.time e)).
Qed.

Section Order.
Context {RS : RandomSource} {HQ : HeapQ} (is_heap : list Event.t → Prop).
Hypothesis heapq_ok : HeapQ_ok HQ is_heap.
Hypothesis random_ok : RandomSource_ok RS.

Lemma get_next_event_time self l c t g ev g' :
  get_next_event self l c t g = Ok (ev, g') →
  (t <= Event.time ev)%Q ∧ Event.link ev = l.
Proof.
  unfold get_next_event. intros H.
  apply bind_Ok in H as (n & _ & H). apply bind_Ok in H as (? & _ & H).
  apply bind_Ok in H as ([[nt xn] g1] & Hd & H). simpl in H. inv_res. simpl.
  split; [|done]. assert (0 <= nt)%Q; [|lra].
  destruct (n =? 1).
  - inv_res. match goal with H : random_exponential _ _ = Ok _ |- _ =>
      apply random_ok in H end. done.
  - revert Hd. apply (for_in_inv (λ '(nt, _, _), (0 <= nt)%Q)); [|done].
    intros i [[nt1 xn1] g2] [[nt2 xn2] g3] _ Hnt Hb. inv_res.
    match goal with H : random_exponential _ _ = Ok _ |- _ =>
      apply random_ok in H end.
    destruct (Qlt_bool _ _); inv_res; done.
Qed.

Lemma future_queue_push t q ev :
  future_queue is_heap t q → (t <= Event.time ev)%Q →
  future_queue is_heap t (heappush q ev).
Proof.
  intros [Hh Hq] Hev. split; [by apply (heappush_heap _ _ heapq_ok)|].
  eapply Permutation_Forall.
  - symmetry. by apply (heappush_perm _ _ heapq_ok).
  - by constructor.
Qed.

Lemma update_link_state_queue self l x t g self' g' :
  update_link_state self l x t g = Ok (self', g') →
  future_queue is_heap t (event_queue self) →
  future_queue is_heap t (event_queue self').
Proof.
  unfold update_link_state. intros H Hq. inv_res.
  destruct (0 <? _); inv_res; simpl; [|done].
  match goal with H : get_next_event _ _ _ _ _ = Ok _ |- _ =>
    apply get_next_event_time in H as [H _] end.
  by apply future_queue_push.
Qed.

Lemma update_links_of_node_queue self ev n g self' g' :
  update_links_of_node self ev n g = Ok (self', g') →
  future_queue is_heap (Event.time ev) (event_queue self) →
  future_queue is_heap (Event.time ev) (event_queue self').
Proof.
  unfold update_links_of_node. intros H Hq. inv_res.
  revert H. apply (for_in_inv
    (λ '(s, _), future_queue is_heap (Event.time ev) (event_queue s))); [|done].
  intros lnk [s1 g1] [s2 g2] _ Hq1 Hb.
  destruct (_ && _); inv_res; [|done].
  eapply update_link_state_queue; eassumption.
Qed.

Lemma do_transition_queue self ev t g self' g' :
  do_transition self ev t g = Ok (self', g') →
  future_queue is_heap (Event.time ev) (event_queue self) →
  future_queue is_heap (Event.time ev) (event_queue self').
Proof.
  intros H Hq.
  apply do_transition_Ok in H as (nu & _ & [(_ & -> & _)|(_ & H)]); [done|].
  destruct H as (fn & tn & s1 & fc & tc & s2 & g2 & s3 & g3 & _ & _ & H1 & H2 & H3 & H4).
  apply update_node_states_frame in H1 as (_ & _ & _ & _ & Hq1). rewrite <- Hq1 in Hq.
  apply update_link_state_queue in H2; [|exact Hq].
  assert (future_queue is_heap (Event.time ev) (event_queue s3)) as Hq3.
  { destruct fc; inv_res; [|done]. eapply update_links_of_node_queue; eassumption. }
  destruct tc; inv_res; [|done]. eapply update_links_of_node_queue; eassumption.
Qed.

(** A pass through the loop of [run] pops an event that is no earlier
    than the clock, and leaves a queue of events no earlier than the new
    clock. *)
Lemma run_step_queue self g ev self' g' :
  future_queue is_heap (current_time self) (event_queue self) →
  run_step self g = Ok (ev, self', g') →
  (current_time self <= Event.time ev)%Q ∧ current_time self' = Event.time ev ∧
  future_queue is_heap (current_time self') (event_queue self').
Proof.
  intros [Hh Hq] H. unfold run_step in H.
  apply bind_Ok in H as ([ev' q] & Hpop & H). inv_res. simpl.
  pose proof (heappop_perm _ _ heapq_ok _ _ _ Hh Hpop) as Hperm.
  pose proof (heappop_min _ _ heapq_ok _ _ _ Hh Hpop) as Hmin.
  pose proof (heappop_heap _ _ heapq_ok _ _ _ Hh Hpop) as Hh'.
  assert (current_time self <= Event.time ev)%Q as Hle.
  { eapply Permutation_Forall in Hq; [|exact Hperm]. by inversion Hq. }
  split; [done|]. split; [done|].
  match goal with H : do_transition _ _ _ _ = _ |- _ =>
    apply do_transition_queue in H; [exact H|] end.
  split; done.
Qed.

Lemma run_loop_trace_order fuel self d g tr self' g' :
  future_queue is_heap (current_time self) (event_queue self) →
  run_loop_trace fuel self d g = Ok (tr, self', g') →
  nondecreasing_from (current_time self) (times tr) ∧
  current_time self' = List.last (times tr) (current_time self) ∧
  future_queue is_heap (current_time self') (event_queue self').
Proof.
  revert self g tr. induction fuel as [|fuel IH]; intros self g tr Hq H; simpl in H.
  - destruct (run_guard self d); inv_res. done.
  - destruct (run_guard self d); inv_res; [|done].
    match goal with H : run_step _ _ = _ |- _ =>
      apply run_step_queue in H as (Hle & Ht & Hq'); [|exact Hq] end.
    match goal with H : run_loop_trace _ _ _ _ = _ |- _ =>
      apply IH in H as (Hnd & Hlast & Hq''); [|exact Hq'] end.
    rewrite Ht in Hnd, Hlast. unfold times in *. simpl.
    split; [done|]. split; [|done].
    rewrite Hlast. symmetry.
    apply (last_cons_default (Event.time _) (current_time self)).
Qed.

Lemma run_calls_order fuel calls self g tr self' g' :
  future_queue is_heap (current_time self) (event_queue self) →
  run_calls fuel self calls g = Ok (tr, self', g') →
  nondecreasing_from (current_time self) (times tr) ∧
  current_time self' = List.last (times tr) (current_time self) ∧
  future_queue is_heap (current_time self') (event_queue self').
Proof.
  revert self g tr. induction calls as [|[d nsg] calls IH]; intros self g tr Hq H;
    simpl in H.
  - inv_res. done.
  - apply bind_Ok in H as (s1 & Hs1 & H). inv_res.
    assert (current_time s1 = current_time self ∧ event_queue s1 = event_queue self)
      as [Ht1 Hq1].
    { destruct nsg; inv_res; [|done]. unfold set_node_state_grid in Hs1. by inv_res. }
    rewrite <- Ht1, <- Hq1 in Hq.
    match goal with H : run_loop_trace _ _ _ _ = _ |- _ =>
      apply run_loop_trace_order in H as (Hnd & Hlast & Hq'); [|exact Hq] end.
    match goal with H : run_calls _ _ _ _ = _ |- _ =>
      apply IH in H as (Hnd' & Hlast' & Hq''); [|exact Hq'] end.
    rewrite Ht1 in *. rewrite Hlast in Hnd', Hlast'.
    unfold times in *. rewrite map_app. split; [by apply nondecreasing_from_app|].
    split; [|done]. rewrite Hlast'. symmetry. apply last_app_default.
Qed.

Lemma push_transitions_to_event_queue_queue self g self' g' :
  push_transitions_to_event_queue self g = Ok (self', g') →
  future_queue is_heap 0 (event_queue self) →
  future_queue is_heap 0 (event_queue self').
Proof.
  unfold push_transitions_to_event_queue. intros H Hq. revert H.
  apply (for_in_inv (λ '(s, _), future_queue is_heap 0 (event_queue s))); [|done].
  intros i [s1 g1] [s2 g2] _ Hq1 Hb. inv_res.
  destruct (0 <? _); inv_res; simpl; [|done].
  match goal with H : get_next_event _ _ _ _ _ = Ok _ |- _ =>
    apply get_next_event_time in H as [H _] end.
  by apply future_queue_push.
Qed.

Lemma init_queue model_grid nsd σ tl ins g self σ' g' :
  __init__ model_grid nsd σ tl ins g = Ok (self, σ', g') →
  current_time self = 0%Q ∧ future_queue is_heap 0 (event_queue self).
Proof.
  intros H. pose proof (init_codec _ _ _ _ _ _ _ _ _ H) as (_ & _ & _ & _ & _ & _ & Ht & _).
  split; [done|].
  apply init_Ok in H as (d & cp & k & tl' & s1 & s2 & _ & _ & _ & _ & H1 & H2 & H3).
  apply push_transitions_to_event_queue_queue in H3; [done|].
  apply setup_transition_data_frame in H2.
  apply assign_link_states_from_node_types_frame in H1.
  rewrite H2, H1. simpl. split; [apply (heap_nil _ _ heapq_ok)|constructor].
Qed.

End Order.

(** C6. From construction on and through any sequence of calls of [run],
    the events are popped, and so applied, in non-decreasing order of
    their times; the clock, which starts at 0 and takes the time of each
    popped event in turn, never decreases; and no event left in the queue
    is earlier than the clock. It holds for every [heapq] that meets its
    contract and every random source whose waiting times are not negative,
    because an event is pushed at the time of the event being processed
    plus a waiting time. *)
Theorem events_fire_in_time_order
    {RS : RandomSource} {HQ : HeapQ} (is_heap : list Event.t → Prop)
    fuel model_grid nsd σ tl ins calls g tr self σ' g' :
  HeapQ_ok HQ is_heap →
  RandomSource_ok RS →
  simulate fuel model_grid nsd σ tl ins calls g = Ok (tr, self, σ', g') →
  nondecreasing_from 0 (times tr) ∧
  nondecreasing_from 0 (times (applied tr)) ∧
  current_time self = List.last (times tr) 0%Q ∧
  (0 <= current_time self)%Q ∧
  Forall (λ e, (current_time self <= Event.time e)%Q) (event_queue self).
Proof.
  intros Hheap Hrand Hsim.
  apply simulate_Ok in Hsim as (self0 & g0 & Hinit & Hrun).
  apply (init_queue is_heap Hheap Hrand) in Hinit as [Ht0 Hq0].
  rewrite <- Ht0 in Hq0.
  apply (run_calls_order is_heap Hheap Hrand) in Hrun as (Hnd & Hlast & Hq); [|exact Hq0].
  rewrite Ht0 in Hnd, Hlast.
  split; [exact Hnd|]. split; [by apply nondecreasing_from_applied|].
  split; [exact Hlast|]. split; [|apply Hq].
  rewrite Hlast. by apply nondecreasing_from_last.
Qed.

(** ** Well-formed grids *)

Lemma getitem_setitem_ne {A} (l : list A) (i j : Z) (x : A) (l' : list A) :
  setitem l i x = Ok l' → 0 <= i → 0 <= j → i ≠ j → getitem l' j = getitem l j.
Proof.
  intros H Hi Hj Hne. apply setitem_Ok in H as (k & Hk & ->).
  apply norm_index_nonneg in Hk as [-> _]; [|done].
  unfold getitem. rewrite length_insert.
  destruct (norm_index (length l) j) as [kj|] eqn:Ej; [|done].
  apply norm_index_nonneg in Ej as [-> _]; [|done].
  rewrite list_lookup_insert_ne; [done|lia].
Qed.

Lemma mapM_res_Ok {A B} (f : A → res B) (l : list A) (k : list B) :
  mapM f l = Ok k → Forall2 (λ x y, f x = Ok y) l k.
Proof.
  revert k. induction l as [|x l IH]; intros k H; simpl in H.
  - injection H as <-. constructor.
  - apply bind_Ok in H as (y & Hy & H). apply bind_Ok in H as (k' & Hk' & H).
    injection H as <-. constructor; [done|by apply IH].
Qed.

Lemma listed_column G i n links :
  listed G i n = true → column (active_node_links G) n = Ok links → i ∈ links.
Proof.
  unfold listed, column. intros Hl Hc. apply mapM_res_Ok in Hc.
  apply existsb_exists in Hl as (row & Hrow & Hi).
  apply list_elem_of_In in Hrow. apply list_elem_of_lookup in Hrow as [j Hj].
  destruct (Forall2_lookup_l _ _ _ _ _ Hc Hj) as (y & Hy & Hg).
  rewrite Hg in Hi. apply Z.eqb_eq in Hi. subst y.
  apply list_elem_of_lookup. eauto.
Qed.

Lemma grid_ok_link G l :
  grid_ok G = true → 0 <= l < number_of_active_links G →
  ∃ fn tn, getitem (activelink_fromnode G) l = Ok fn
    ∧ getitem (activelink_tonode G) l = Ok tn
    ∧ 0 <= fn < number_of_nodes G ∧ 0 <= tn < number_of_nodes G ∧ fn ≠ tn
    ∧ listed G l fn = true ∧ listed G l tn = true.
Proof.
  unfold grid_ok. intros H Hl. apply andb_prop in H as [_ H].
  rewrite forallb_forall in H.
  assert (Hin : In l (range (number_of_active_links G))).
  { apply list_elem_of_In, elem_of_seqZ. lia. }
  specialize (H l Hin).
  destruct (getitem (activelink_fromnode G) l) as [fn|];
    destruct (getitem (activelink_tonode G) l) as [tn|]; try discriminate H.
  repeat (apply andb_prop in H as [H ?]).
  exists fn, tn. repeat split; try done; lia.
Qed.

Lemma grid_ok_column G n links :
  grid_ok G = true → column (active_node_links G) n = Ok links →
  ∀ l, l ∈ links → l = -1 ∨ 0 <= l < number_of_active_links G.
Proof.
  unfold grid_ok, column. intros H Hc l Hl. apply andb_prop in H as [H _].
  apply andb_prop in H as [_ H]. rewrite forallb_forall in H.
  apply mapM_res_Ok in Hc. apply list_elem_of_lookup in Hl as [j Hj].
  destruct (Forall2_lookup_r _ _ _ _ _ Hc Hj) as (row & Hrow & Hg).
  assert (Hin : In row (active_node_links G)).
  { apply list_elem_of_In, list_elem_of_lookup. eauto. }
  specialize (H row Hin). apply andb_prop in H as [_ H]. rewrite forallb_forall in H.
  apply getitem_Ok in Hg as (k & _ & Hk).
  assert (Hin' : In l row) by (apply list_elem_of_In, list_elem_of_lookup; eauto).
  specialize (H l Hin'). apply orb_prop in H as [H|H]; [left; lia|right; lia].
Qed.

Lemma grid_ok_orientation self l :
  grid_ok (grid self) = true → 0 <= l < number_of_active_links (grid self) →
  ∃ o, active_link_orientation self l = Ok o ∧ 0 <= o < 2.
Proof.
  unfold grid_ok. intros H Hl. repeat (apply andb_prop in H as [H ?]).
  unfold active_link_orientation, getitem. rewrite norm_index_in_range by lia.
  destruct (active_links (grid self) !! Z.to_nat l) eqn:E.
  - simpl. destruct (_ <? _); eexists; split; try done; lia.
  - apply lookup_ge_None in E. lia.
Qed.

(** ** Node states and the consistency of links *)

(** [update_node_states] changes the state of a node only if it is an end
    of the link and it reports the change; when both ends are core nodes
    they take the two states of the target link state. *)
Lemma update_node_states_spec self fn tn x self' fc tc :
  0 <= fn → 0 <= tn → fn ≠ tn →
  update_node_states self fn tn x = Ok (self', fc, tc) →
  (∀ n, 0 <= n → (n = fn → fc = false) → (n = tn → tc = false) →
     getitem (node_state self') n = getitem (node_state self) n) ∧
  (getitem (node_status (grid self)) fn = Ok CORE_NODE →
   getitem (node_status (grid self)) tn = Ok CORE_NODE →
   ∃ k p, x = Some k ∧ getitem (cell_pair self) k = Ok p
     ∧ getitem (node_state self') fn = Ok p.1.1
     ∧ getitem (node_state self') tn = Ok p.1.2).
Proof.
  intros Hfn Htn Hne H. unfold update_node_states in H.
  apply bind_Ok in H as (old_f & Hof & H). apply bind_Ok in H as (old_t & Hot & H).
  apply bind_Ok in H as (st1 & Hst1 & H). apply bind_Ok in H as (s1 & Hs1 & H).
  apply bind_Ok in H as (st2 & Hst2 & H). apply bind_Ok in H as (s2 & Hs2 & H).
  apply bind_Ok in H as (new_f & Hnf & H). apply bind_Ok in H as (new_t & Hnt & H).
  injection H as -> <- <-.
  assert (H1 : grid s1 = grid self ∧ cell_pair s1 = cell_pair self ∧
    (∀ n, 0 <= n → n ≠ fn → getitem (node_state s1) n = getitem (node_state self) n) ∧
    (st1 = CORE_NODE → ∃ k p, x = Some k ∧ getitem (cell_pair self) k = Ok p
       ∧ getitem (node_state s1) fn = Ok p.1.1)).
  { destruct (st1 =? CORE_NODE) eqn:Ec.
    - apply bind_Ok in Hs1 as (k & Hk & Hs1). apply bind_Ok in Hs1 as (p & Hp & Hs1).
      apply bind_Ok in Hs1 as (ns & Hns & Hs1). injection Hs1 as <-. simpl.
      split; [done|]. split; [done|]. split.
      + intros n Hn Hnfn. by apply (getitem_setitem_ne _ fn n _ _ Hns).
      + intros _. destruct x as [x|]; [|done]. injection Hk as ->.
        exists k, p. split; [done|]. split; [done|]. by eapply getitem_setitem.
    - injection Hs1 as <-. split; [done|]. split; [done|]. split; [done|].
      intros ->. done. }
  destruct H1 as (Hg1 & Hcp1 & Hn1 & Hc1). rewrite Hg1 in Hst2.
  assert (H2 : (∀ n, 0 <= n → n ≠ tn → getitem (node_state self') n = getitem (node_state s1) n) ∧
    (st2 = CORE_NODE → ∃ k p, x = Some k ∧ getitem (cell_pair self) k = Ok p
       ∧ getitem (node_state self') tn = Ok p.1.2)).
  { destruct (st2 =? CORE_NODE) eqn:Ec.
    - apply bind_Ok in Hs2 as (k & Hk & Hs2). apply bind_Ok in Hs2 as (p & Hp & Hs2).
      apply bind_Ok in Hs2 as (ns & Hns & Hs2). injection Hs2 as <-. simpl. split.
      + intros n Hn Hntn. by apply (getitem_setitem_ne _ tn n _ _ Hns).
      + intros _. destruct x as [x|]; [|done]. injection Hk as ->.
        exists k, p. split; [done|]. split; [by rewrite <- Hcp1|]. by eapply getitem_setitem.
    - injection Hs2 as <-. split; [done|]. intros ->. done. }
  destruct H2 as (Hn2 & Hc2). split.
  - intros n Hn Hf Ht.
    destruct (decide (n = fn)) as [->|Hnf'].
    + specialize (Hf eq_refl). apply negb_false_iff, Z.eqb_eq in Hf. congruence.
    + destruct (decide (n = tn)) as [->|Hnt'].
      * specialize (Ht eq_refl). apply negb_false_iff, Z.eqb_eq in Ht. congruence.
      * rewrite Hn2, Hn1 by done. done.
  - intros Hcf Hct. rewrite Hst1 in Hcf. rewrite Hst2 in Hct.
    injection Hcf as Hcf. injection Hct as Hct.
    destruct (Hc1 Hcf) as (k & p & -> & Hp & Hf).
    destruct (Hc2 Hct) as (k' & p' & Hk' & Hp' & Ht). injection Hk' as <-.
    rewrite Hp in Hp'. injection Hp' as <-.
    exists k, p. repeat (split; [done|]). split; [|done].
    rewrite Hn2 by done. done.
Qed.

Lemma connects_to_boundary_false self fn tn :
  connects_to_boundary self fn tn = Ok false →
  getitem (node_status (grid self)) fn = Ok CORE_NODE
  ∧ getitem (node_status (grid self)) tn = Ok CORE_NODE.
Proof.
  unfold connects_to_boundary. intros H. apply bind_Ok in H as (sf & Hsf & H).
  destruct (sf =? CORE_NODE) eqn:E1; simpl in H; [|done].
  apply bind_Ok in H as (stt & Hstt & H). injection H as H.
  apply negb_false_iff, Z.eqb_eq in H. apply Z.eqb_eq in E1. by subst.
Qed.

Lemma node_pair_of_ext self self' l fn tn :
  config_of self' = config_of self →
  getitem (activelink_fromnode (grid self)) l = Ok fn →
  getitem (activelink_tonode (grid self)) l = Ok tn →
  getitem (node_state self') fn = getitem (node_state self) fn →
  getitem (node_state self') tn = getitem (node_state self) tn →
  node_pair_of self' l = node_pair_of self l.
Proof.
  intros Hc Hf Ht Hnf Hnt. unfold config_of in Hc.
  injection Hc as Hg _ _ _ _ _ Hv _ _ _.
  unfold node_pair_of, active_link_orientation. rewrite Hg, Hv, Hf, Ht. simpl.
  rewrite Hnf, Hnt. reflexivity.
Qed.

Lemma node_pair_of_Ok self l p :
  node_pair_of self l = Ok p →
  ∃ fn tn, getitem (activelink_fromnode (grid self)) l = Ok fn
    ∧ getitem (activelink_tonode (grid self)) l = Ok tn
    ∧ getitem (node_state self) fn = Ok p.1.1
    ∧ getitem (node_state self) tn = Ok p.1.2
    ∧ active_link_orientation self l = Ok p.2.
Proof.
  unfold node_pair_of. intros H. inv_res. simpl. eauto 10.
Qed.

Lemma link_consistent_ext self self' l fn tn :
  config_of self' = config_of self →
  getitem (activelink_fromnode (grid self)) l = Ok fn →
  getitem (activelink_tonode (grid self)) l = Ok tn →
  getitem (node_state self') fn = getitem (node_state self) fn →
  getitem (node_state self') tn = getitem (node_state self) tn →
  getitem (link_state self') l = getitem (link_state self) l →
  link_consistent self l → link_consistent self' l.
Proof.
  intros Hc Hf Ht Hnf Hnt Hl (p & k & Hp & Hd & Hk).
  exists p, k. rewrite (node_pair_of_ext self self' l fn tn) by done.
  rewrite Hl. unfold config_of in Hc. injection Hc as _ _ _ _ Hd' _ _ _ _ _.
  rewrite Hd'. done.
Qed.

Lemma static_ok_config self self' :
  config_of self' = config_of self → static_ok self → static_ok self'.
Proof.
  unfold config_of, static_ok, codec_ok, tables_ok, orientation_of_state.
  intros Hc. injection Hc as Hg Ha HN HL Hd Hcp _ Hn Hx _.
  rewrite Hg, Ha, HN, HL, Hd, Hcp, Hn, Hx. done.
Qed.

Lemma event_ok_config self self' e :
  config_of self' = config_of self → event_ok self e → event_ok self' e.
Proof.
  unfold config_of, event_ok, orientation_of_state, active_link_orientation.
  intros Hc. injection Hc as Hg _ HN HL _ _ Hv _ _ _.
  rewrite Hg, HN, HL, Hv. done.
Qed.

(** In a canonical codec the id of a triple has the orientation of the
    triple, and the triple of an id is the one the pair list holds. *)
Lemma codec_ok_lookup self p k :
  codec_ok self → dict_get (link_state_dict self) p = Ok k →
  0 <= k < num_link_states self ∧ orientation_of_state self k = p.2
  ∧ getitem (cell_pair self) k = Ok p.
Proof.
  intros (HL & k0 & _ & _ & _ & Hcp & Hd) H. unfold dict_get in H.
  destruct (link_state_dict self !! p) as [v|] eqn:E; [|done]. injection H as ->.
  destruct (Hd _ _ E) as [Hk ->]. split; [done|]. split; [reflexivity|].
  destruct (Hcp k Hk) as [Hc _]. apply getitem_Some; [lia|done].
Qed.

Lemma codec_ok_cell_pair self k p :
  codec_ok self → 0 <= k < num_link_states self →
  getitem (cell_pair self) k = Ok p →
  dict_get (link_state_dict self) p = Ok k ∧ p.2 = orientation_of_state self k.
Proof.
  intros (HL & k0 & _ & _ & _ & Hcp & Hd) Hk H.
  destruct (Hcp k Hk) as [Hc Hdk].
  apply getitem_Ok_nonneg in H as [H _]; [|lia]. rewrite Hc in H. injection H as <-.
  unfold dict_get. rewrite Hdk. done.
Qed.

(** ** The invariant through a transition *)

(** A loop whose passes keep [I], keep every [Q y] and establish [Q x] for
    the element [x] they visit when [c x] holds. *)
Lemma for_in_establish {T A B} (I : T → Prop) (Q : B → T → Prop) (c : A → B → Prop)
    (l : list A) (body : A → T → res T) (s s' : T) :
  (∀ x s s', x ∈ l → I s → body x s = Ok s' →
     I s' ∧ (∀ y, c x y → Q y s') ∧ ∀ y, Q y s → Q y s') →
  I s → for_in l body s = Ok s' →
  I s' ∧ (∀ y, Q y s → Q y s') ∧ ∀ x y, x ∈ l → c x y → Q y s'.
Proof.
  revert s. induction l as [|x l IH]; intros s Hbody HI H; simpl in H.
  - injection H as <-. split; [done|]. split; [done|]. intros x y Hx. by apply elem_of_nil in Hx.
  - apply bind_Ok in H as (s1 & Hs1 & H).
    destruct (Hbody x s s1 ltac:(left) HI Hs1) as (HI1 & Hc1 & Hk1).
    destruct (IH s1 (λ x0 s0 s0' Hx0, Hbody x0 s0 s0' ltac:(by right)) HI1 H)
      as (HI' & Hk' & He').
    split; [done|]. split; [intros y Hy; by apply Hk', Hk1|].
    intros x0 y Hx0 Hc. apply elem_of_cons in Hx0 as [->|Hx0].
    + by apply Hk', Hc1.
    + by apply (He' x0).
Qed.

Section Invariant.
Context {RS : RandomSource} {HQ : HeapQ} (is_heap : list Event.t → Prop).
Hypothesis heapq_ok : HeapQ_ok HQ is_heap.

(** The event drawn for a link state leads to a state of the same
    orientation. *)
Lemma get_next_event_target self l c t g ev g' :
  tables_ok self → 0 <= c < num_link_states self →
  get_next_event self l c t g = Ok (ev, g') →
  Event.link ev = l ∧
  ∀ x, Event.xn_to ev = Some x →
    0 <= x < num_link_states self
    ∧ orientation_of_state self x = orientation_of_state self c.
Proof.
  intros Htab Hc H. unfold get_next_event in H.
  apply bind_Ok in H as (n & Hn & H). apply bind_Ok in H as (? & Hpos & H).
  apply assert_Ok, Z.ltb_lt in Hpos.
  apply bind_Ok in H as ([[nt xn] g1] & Hd & H). simpl in H. injection H as <- <-.
  simpl. split; [done|].
  destruct (n =? 1) eqn:E1.
  - apply bind_Ok in Hd as (x0 & Hx0 & Hd). inv_res.
    intros z [= <-]. eapply (Htab c n 0); [done|done|lia|done].
  - apply (for_in_inv (λ '(_, xn, _), ∀ x, xn = Some x →
      0 <= x < num_link_states self
      ∧ orientation_of_state self x = orientation_of_state self c)) in Hd;
      [exact Hd| |done].
    intros i [[nt1 xn1] g2] [[nt2 xn2] g3] Hi Hxn Hb.
    apply elem_of_seqZ in Hi.
    apply bind_Ok in Hb as (r & _ & Hb). apply bind_Ok in Hb as ([tn g4] & _ & Hb).
    simpl in Hb. destruct (Qlt_bool _ _).
    + apply bind_Ok in Hb as (x0 & Hx0 & Hb). injection Hb as _ <- _.
      intros z [= <-]. eapply (Htab c n i); [done|done|lia|done].
    + injection Hb as _ <- _. done.
Qed.

Lemma queue_ok_push self self' e :
  config_of self' = config_of self →
  event_queue self' = heappush (event_queue self) e →
  queue_ok is_heap self → event_ok self e → queue_ok is_heap self'.
Proof.
  intros Hc Hq [Hh Hf] He. unfold queue_ok. rewrite Hq.
  split; [by apply (heappush_heap _ _ heapq_ok)|].
  eapply Permutation_Forall.
  - symmetry. by apply (heappush_perm _ _ heapq_ok).
  - constructor; [by apply (event_ok_config self)|].
    eapply Forall_impl; [exact Hf|]. intros e'. by apply event_ok_config.
Qed.

Lemma queue_ok_same self self' :
  config_of self' = config_of self →
  event_queue self' = event_queue self →
  queue_ok is_heap self → queue_ok is_heap self'.
Proof.
  intros Hc Hq [Hh Hf]. unfold queue_ok. rewrite Hq. split; [done|].
  eapply Forall_impl; [exact Hf|]. intros e'. by apply event_ok_config.
Qed.

(** [update_link_state] makes the link consistent with its nodes, given
    that the state it is passed is the right one when both ends of the
    link are core nodes; it keeps the other links consistent. *)
Lemma update_link_state_consistent self l x t g self' g' :
  static_ok self → queue_ok is_heap self →
  0 <= l < number_of_active_links (grid self) →
  (∀ fn tn, getitem (activelink_fromnode (grid self)) l = Ok fn →
     getitem (activelink_tonode (grid self)) l = Ok tn →
     getitem (node_status (grid self)) fn = Ok CORE_NODE →
     getitem (node_status (grid self)) tn = Ok CORE_NODE →
     ∃ p k, node_pair_of self l = Ok p
       ∧ dict_get (link_state_dict self) p = Ok k ∧ x = Some k) →
  update_link_state self l x t g = Ok (self', g') →
  link_consistent self' l
  ∧ (∀ l', 0 <= l' → link_consistent self l' → link_consistent self' l')
  ∧ queue_ok is_heap self'.
Proof.
  intros Hst Hq Hl Hx H.
  pose proof (update_link_state_frame _ _ _ _ _ _ _ H) as (Hc & Hns & _).
  unfold update_link_state in H.
  apply bind_Ok in H as (fn & Hfn & H). apply bind_Ok in H as (tn & Htn & H).
  apply bind_Ok in H as (bd & Hbd & H).
  apply bind_Ok in H as (new & Hnew & H). apply bind_Ok in H as (k & Hk & H).
  apply bind_Ok in H as (ls & Hls & H). apply bind_Ok in H as (n & Hn & H).
  simpl in Hn.
  assert (∃ p, node_pair_of self l = Ok p ∧ dict_get (link_state_dict self) p = Ok k)
    as (p & Hp & Hd).
  { destruct bd.
    - apply bind_Ok in Hnew as (p & Hp & Hnew). apply bind_Ok in Hnew as (k' & Hk' & Hnew).
      injection Hnew as <-. injection Hk as <-. eauto.
    - injection Hnew as <-. apply connects_to_boundary_false in Hbd as [Hsf Hstt].
      destruct (Hx fn tn Hfn Htn Hsf Hstt) as (p & k' & Hp & Hd & ->).
      injection Hk as <-. eauto. }
  destruct Hst as (Hgrid & Hanl & Hcodec & Htab).
  destruct (codec_ok_lookup self p k Hcodec Hd) as (Hkr & Hko & _).
  apply node_pair_of_Ok in Hp as Hp'. destruct Hp' as (fn' & tn' & _ & _ & _ & _ & Hor).
  assert (Hls' : link_state self' = ls ∧
    (event_queue self' = event_queue self ∨
     ∃ e, event_queue self' = heappush (event_queue self) e ∧ event_ok self e)).
  { destruct (0 <? n).
    - apply bind_Ok in H as ([e g1] & He & H). apply bind_Ok in H as (nu & _ & H).
      injection H as <- <-. simpl. split; [done|]. right. exists e. split; [done|].
      apply get_next_event_target in He as [Hel Hex]; [|done|done].
      split; [simpl in Hel; by rewrite Hel|].
      intros x' Hx'. destruct (Hex x' Hx') as [Hr Ho]. simpl in Hr, Ho.
      split; [done|]. rewrite Hel. unfold orientation_of_state in *. simpl in Ho.
      rewrite Ho, Hko. done.
    - apply bind_Ok in H as (nu & _ & H). injection H as <- <-. simpl. by split; [|left]. }
  destruct Hls' as [Hlsq Hqq]. split; [|split].
  - exists p, k. split; [|split].
    + rewrite <- Hp. unfold config_of in Hc. injection Hc as Hg _ _ _ _ _ Hv _ _ _.
      unfold node_pair_of, active_link_orientation. by rewrite Hg, Hv, Hns.
    + unfold config_of in Hc. injection Hc as _ _ _ _ Hdd _ _ _ _ _. by rewrite Hdd.
    + rewrite Hlsq. by eapply getitem_setitem.
  - intros l' Hl' (p' & k' & Hp' & Hd' & Hk').
    destruct (decide (l' = l)) as [->|Hne].
    + exists p, k. split; [|split].
      * rewrite <- Hp. unfold config_of in Hc. injection Hc as Hg _ _ _ _ _ Hv _ _ _.
        unfold node_pair_of, active_link_orientation. by rewrite Hg, Hv, Hns.
      * unfold config_of in Hc. injection Hc as _ _ _ _ Hdd _ _ _ _ _. by rewrite Hdd.
      * rewrite Hlsq. by eapply getitem_setitem.
    + exists p', k'. split; [|split].
      * rewrite <- Hp'. unfold config_of in Hc. injection Hc as Hg _ _ _ _ _ Hv _ _ _.
        unfold node_pair_of, active_link_orientation. by rewrite Hg, Hv, Hns.
      * unfold config_of in Hc. injection Hc as _ _ _ _ Hdd _ _ _ _ _. by rewrite Hdd.
      * rewrite Hlsq, <- Hk'. apply (getitem_setitem_ne _ l l' _ _ Hls); [lia|done|done].
  - destruct Hqq as [Hqq|(e & Hqq & He)].
    + by apply (queue_ok_same self).
    + by apply (queue_ok_push self self' e).
Qed.

Lemma update_links_of_node_consistent self ev n g self' g' :
  static_ok self → queue_ok is_heap self → 0 <= Event.link ev →
  update_links_of_node self ev n g = Ok (self', g') →
  queue_ok is_heap self'
  ∧ (∀ l', 0 <= l' → link_consistent self l' → link_consistent self' l')
  ∧ ∃ links, column (active_node_links (grid self)) n = Ok links
      ∧ ∀ l', l' ∈ links → 0 <= l' → l' ≠ Event.link ev → link_consistent self' l'.
Proof.
  intros Hst Hq Hev H. unfold update_links_of_node in H.
  apply bind_Ok in H as (links & Hlinks & H).
  pose proof Hst as (Hgrid & Hanl & _). rewrite Hanl in Hlinks.
  apply (for_in_establish
    (λ '(s, _), config_of s = config_of self ∧ queue_ok is_heap s)
    (λ y '(s, _), 0 <= y → link_consistent s y)
    (λ x y, y = x ∧ x ≠ -1 ∧ x ≠ Event.link ev)) in H.
  - destruct H as ((_ & Hq') & Hkeep & Hest). split; [done|].
    split; [intros l' Hl' Hc; by apply (Hkeep l')|].
    exists links. split; [done|]. intros l' Hin Hl' Hne.
    apply (Hest l' l' Hin); [|done]. split; [done|]. split; [lia|done].
  - intros x [s1 g1] [s2 g2] Hx [Hc1 Hq1] Hb.
    pose proof (static_ok_config _ _ Hc1 Hst) as Hst1.
    destruct (negb (x =? -1) && negb (x =? Event.link ev)) eqn:Ec.
    + apply andb_prop in Ec as [E1 E2].
      apply negb_true_iff, Z.eqb_neq in E1, E2.
      apply bind_Ok in Hb as (p & Hp & Hb). apply bind_Ok in Hb as (k & Hk & Hb).
      pose proof (update_link_state_frame _ _ _ _ _ _ _ Hb) as (Hc2 & _ & _).
      apply update_link_state_consistent in Hb as (Hcons & Hkeep & Hq2); [|done|done| |].
      * split; [split; [congruence|done]|]. split.
        -- intros y (-> & _ & _) _. done.
        -- intros y Hy Hy0. by apply Hkeep, Hy.
      * destruct (grid_ok_column _ _ _ Hgrid Hlinks x Hx) as [?|?]; [done|].
        unfold config_of in Hc1. injection Hc1 as -> _ _ _ _ _ _ _ _ _. done.
      * intros _ _ _ _ _ _. eauto.
    + injection Hb as <- <-. split; [done|]. split; [|done].
      intros y (-> & Hy1 & Hy2). apply andb_false_iff in Ec as [E|E];
        apply negb_false_iff, Z.eqb_eq in E; done.
  - done.
Qed.

(** A transition keeps the invariant. *)
Lemma do_transition_consistent self ev t g self' g' :
  static_ok self → queue_ok is_heap self → links_consistent self →
  event_ok self ev →
  do_transition self ev t g = Ok (self', g') →
  queue_ok is_heap self' ∧ links_consistent self'.
Proof.
  intros Hst Hq Hcons [Hl Hx] H.
  apply do_transition_Ok in H as (nu & _ & [(_ & -> & _)|(_ & H)]); [done|].
  destruct H as (fn & tn & s1 & fc & tc & s2 & g2 & s3 & g3 & Hfn & Htn & H1 & H2 & H3 & H4).
  pose proof Hst as (Hgrid & Hanl & Hcodec & Htab).
  destruct (grid_ok_link _ _ Hgrid Hl) as (fn' & tn' & Hfn' & Htn' & Hfr & Htr & Hne & _).
  rewrite Hfn in Hfn'. rewrite Htn in Htn'. injection Hfn' as <-. injection Htn' as <-.
  pose proof (update_node_states_frame _ _ _ _ _ _ _ H1) as (Hc1 & _ & Hls1 & _ & Hq1).
  apply update_node_states_spec in H1 as [Hsame Hcore]; [|lia|lia|done].
  pose proof (static_ok_config _ _ Hc1 Hst) as Hst1.
  pose proof (queue_ok_same _ _ Hc1 Hq1 Hq) as Hqs1.
  assert (Hg1 : grid s1 = grid self).
  { unfold config_of in Hc1. by injection Hc1 as -> _ _ _ _ _ _ _ _ _. }
  pose proof (update_link_state_frame _ _ _ _ _ _ _ H2) as (Hc2 & _ & _).
  apply update_link_state_consistent in H2 as (Hcl & Hkeep2 & Hq2);
    [|done|done|by rewrite Hg1|].
  2:{ rewrite Hg1. intros fn' tn' Hfn' Htn' Hcf Hct.
      rewrite Hfn in Hfn'. rewrite Htn in Htn'. injection Hfn' as <-. injection Htn' as <-.
      destruct (Hcore Hcf Hct) as (k & p & Hk & Hp & Hnf & Hnt).
      destruct (Hx k Hk) as [Hkr Hor].
      assert (cell_pair s1 = cell_pair self ∧ link_state_dict s1 = link_state_dict self)
        as [Hcp1 Hd1].
      { unfold config_of in Hc1. by injection Hc1 as _ _ _ _ -> -> _ _ _ _. }
      destruct (codec_ok_cell_pair self k p Hcodec Hkr Hp) as [Hd Ho].
      exists p, k. rewrite Hd1. split; [|done].
      unfold node_pair_of. rewrite Hg1, Hfn, Htn. simpl. rewrite Hnf, Hnt. simpl.
      assert (active_link_orientation s1 (Event.link ev)
              = active_link_orientation self (Event.link ev)) as ->.
      { unfold active_link_orientation, config_of in *.
        by injection Hc1 as -> _ _ _ _ _ -> _ _ _. }
      rewrite Hor. simpl. rewrite <- Ho. by destruct p as [[??]?]. }
  pose proof (static_ok_config _ _ Hc2 Hst1) as Hst2.
  assert (Hg2 : grid s2 = grid self).
  { unfold config_of in Hc2. injection Hc2 as Hg2 _ _ _ _ _ _ _ _ _. congruence. }
  assert (H3' : config_of s3 = config_of s2 ∧ queue_ok is_heap s3
    ∧ (∀ l', 0 <= l' → link_consistent s2 l' → link_consistent s3 l')
    ∧ (fc = true → ∃ links, column (active_node_links (grid self)) fn = Ok links
        ∧ ∀ l', l' ∈ links → 0 <= l' → l' ≠ Event.link ev → link_consistent s3 l')).
  { destruct fc.
    - pose proof (update_links_of_node_frame _ _ _ _ _ _ H3) as (Hc3 & _).
      apply update_links_of_node_consistent in H3 as (? & ? & ?); [|done|done|lia].
      rewrite Hg2 in *. done.
    - injection H3 as <- <-. done. }
  destruct H3' as (Hc3 & Hq3 & Hkeep3 & Hest3).
  pose proof (static_ok_config _ _ Hc3 Hst2) as Hst3.
  assert (Hg3 : grid s3 = grid self).
  { unfold config_of in Hc3. injection Hc3 as Hg3 _ _ _ _ _ _ _ _ _. congruence. }
  assert (H4' : queue_ok is_heap self'
    ∧ (∀ l', 0 <= l' → link_consistent s3 l' → link_consistent self' l')
    ∧ (tc = true → ∃ links, column (active_node_links (grid self)) tn = Ok links
        ∧ ∀ l', l' ∈ links → 0 <= l' → l' ≠ Event.link ev → link_consistent self' l')
    ∧ grid self' = grid self).
  { destruct tc.
    - pose proof (update_links_of_node_frame _ _ _ _ _ _ H4) as (Hc4 & _).
      apply update_links_of_node_consistent in H4 as (? & ? & ?); [|done|done|lia].
      rewrite Hg3 in *. repeat (split; [done|]).
      unfold config_of in Hc4. injection Hc4 as Hg4 _ _ _ _ _ _ _ _ _. congruence.
    - injection H4 as <- <-. done. }
  destruct H4' as (Hq4 & Hkeep4 & Hest4 & Hg4).
  split; [done|]. intros l' Hl'. rewrite Hg4 in Hl'.
  destruct (decide (l' = Event.link ev)) as [->|Hnel].
  { apply Hkeep4; [lia|]. apply Hkeep3; [lia|done]. }
  destruct (grid_ok_link _ _ Hgrid Hl') as (a & b & Ha & Hb & Har & Hbr & _ & Hla & Hlb).
  destruct (decide (fc = true ∧ (a = fn ∨ b = fn))) as [[Hfc Hab]|Hnf].
  { destruct (Hest3 Hfc) as (links & Hcol & Hall).
    apply Hkeep4; [lia|]. apply Hall; [|lia|done].
    destruct Hab as [->| ->];
      [exact (listed_column _ _ _ _ Hla Hcol)|exact (listed_column _ _ _ _ Hlb Hcol)]. }
  destruct (decide (tc = true ∧ (a = tn ∨ b = tn))) as [[Htc Hab]|Hnt].
  { destruct (Hest4 Htc) as (links & Hcol & Hall).
    apply Hall; [|lia|done].
    destruct Hab as [->| ->];
      [exact (listed_column _ _ _ _ Hla Hcol)|exact (listed_column _ _ _ _ Hlb Hcol)]. }
  apply Hkeep4; [lia|]. apply Hkeep3; [lia|]. apply Hkeep2; [lia|].
  apply (link_consistent_ext self s1 l' a b); try done.
  - apply Hsame; [lia| |]; intros ->; destruct fc, tc; try done; exfalso; tauto.
  - apply Hsame; [lia| |]; intros ->; destruct fc, tc; try done; exfalso; tauto.
  - by rewrite Hls1.
  - by apply Hcons.
Qed.

End Invariant.

(** ** The transition tables *)

Lemma getitem2_setitem2 {A} (m : list (list A)) (a j : Z) (v : A) m' :
  setitem2 m a j v = Ok m' → getitem2 m' a j = Ok v.
Proof.
  unfold setitem2, getitem2. intros H.
  apply bind_Ok in H as (row & Hrow & H). apply bind_Ok in H as (row' & Hrow' & H).
  rewrite (getitem_setitem _ _ _ _ H). simpl. by eapply getitem_setitem.
Qed.

Lemma getitem2_setitem2_ne {A} (m : list (list A)) (a j c i : Z) (v : A) m' :
  setitem2 m a j v = Ok m' → 0 <= a → 0 <= j → 0 <= c → 0 <= i →
  c ≠ a ∨ i ≠ j → getitem2 m' c i = getitem2 m c i.
Proof.
  unfold setitem2, getitem2. intros H Ha Hj Hc Hi Hne.
  apply bind_Ok in H as (row & Hrow & H). apply bind_Ok in H as (row' & Hrow' & H).
  destruct (decide (c = a)) as [->|Hca].
  - rewrite (getitem_setitem _ _ _ _ H), Hrow. simpl.
    apply (getitem_setitem_ne _ j i _ _ Hrow'); [done|done|]. destruct Hne; congruence.
  - by rewrite (getitem_setitem_ne _ a c _ _ H).
Qed.

Lemma getitem_const_zero {A} (l : list A) (c n : Z) :
  getitem ((λ _, 0) <$> l) c = Ok n → n = 0.
Proof.
  intros H. apply getitem_Ok in H as (k & _ & H).
  rewrite list_lookup_fmap in H. destruct (l !! k); simpl in H; congruence.
Qed.

Lemma as_int_Ok v z : as_int v = Ok z → v = PInt z ∧ - 2 ^ 63 <= z < 2 ^ 63.
Proof.
  destruct v as [b|l]; [|done]. unfold as_int.
  destruct (- 2 ^ 63 <=? b) eqn:E1; destruct (b <? 2 ^ 63) eqn:E2; simpl; try done.
  intros [= <-]. split; [done|]. lia.
Qed.

Lemma setup_transition_data_tables σ tl self self' :
  rules_as_ids_ok self σ tl →
  setup_transition_data σ tl self = Ok self' →
  tables_ok self'.
Proof.
  intros Hrules H. unfold setup_transition_data in H.
  apply bind_Ok in H as (n1 & _ & H). apply bind_Ok in H as (mx & _ & H).
  apply bind_Ok in H as ([[n2 to2] rt2] & Hloop & H). injection H as <-.
  unfold tables_ok, orientation_of_state. simpl.
  set (J := λ st : list Z * list (list Z) * list (list Q),
    (∀ c n, 0 <= c → getitem st.1.1 c = Ok n → 0 <= n) ∧
    (∀ c n i x, 0 <= c < num_link_states self → getitem st.1.1 c = Ok n →
       0 <= i < n → getitem2 st.1.2 c i = Ok x →
       0 <= x < num_link_states self
       ∧ x / (num_node_states self * num_node_states self)
         = c / (num_node_states self * num_node_states self))).
  assert (HJ : J (n2, to2, rt2)); [|apply HJ].
  apply (for_in_inv J) in Hloop; [exact Hloop| |].
  - intros r [[n3 to3] rt3] [[n4 to4] rt4] Hr [Hpos Htab] Hb. simpl in Hpos, Htab.
    destruct (Hrules r Hr) as (t & a & b & Ht & Hf & Hto & Ha & Hbr & Hor).
    unfold deref in Hb. rewrite Ht in Hb. simpl in Hb. rewrite Hf, Hto in Hb. simpl in Hb.
    apply bind_Ok in Hb as (slot & Hslot & Hb).
    apply bind_Ok in Hb as (bv & Hbv & Hb).
    apply (as_int_Ok (PInt b)) in Hbv as [[= <-] _].
    apply bind_Ok in Hb as (to' & Hto' & Hb).
    apply bind_Ok in Hb as (slot' & Hslot' & Hb). apply bind_Ok in Hb as (rt' & _ & Hb).
    apply bind_Ok in Hb as (c0 & Hc0 & Hb). apply bind_Ok in Hb as (n' & Hn' & Hb).
    injection Hb as <- <- <-.
    rewrite Hslot in Hc0. injection Hc0 as <-.
    pose proof (Hpos a slot ltac:(lia) Hslot) as Hslot0.
    split; simpl.
    + intros c n Hc Hn. destruct (decide (c = a)) as [->|Hca].
      * rewrite (getitem_setitem _ _ _ _ Hn') in Hn. injection Hn as <-. lia.
      * rewrite (getitem_setitem_ne _ a c _ _ Hn') in Hn by lia. by eapply Hpos.
    + intros c n i x Hc Hn Hi Hx. destruct (decide (c = a)) as [->|Hca].
      * rewrite (getitem_setitem _ _ _ _ Hn') in Hn. injection Hn as <-.
        destruct (decide (i = slot)) as [->|His].
        -- rewrite (getitem2_setitem2 _ _ _ _ _ Hto') in Hx. injection Hx as <-.
           unfold orientation_of_state in Hor. by rewrite Hor.
        -- rewrite (getitem2_setitem2_ne _ a slot a i _ _ Hto') in Hx by (try lia; by right).
           apply (Htab a slot i x); [done|done|lia|done].
      * rewrite (getitem_setitem_ne _ a c _ _ Hn') in Hn by lia.
        rewrite (getitem2_setitem2_ne _ a slot c i _ _ Hto') in Hx by (try lia; by left).
        by apply (Htab c n i x).
  - split; simpl.
    + intros c n _ Hn. apply getitem_const_zero in Hn. lia.
    + intros c n i x _ Hn Hi. apply getitem_const_zero in Hn. lia.
Qed.

(** ** The rules in id form *)

Lemma for_in_body_Ok {T A} (l : list A) (body : A → T → res T) (s s' : T) x :
  for_in l body s = Ok s' → x ∈ l → ∃ s1 s2, body x s1 = Ok s2.
Proof.
  revert s. induction l as [|y l IH]; intros s H Hx; [by apply elem_of_nil in Hx|].
  simpl in H. apply bind_Ok in H as (s1 & Hs1 & H).
  apply elem_of_cons in Hx as [->|Hx]; [eauto|]. by eapply IH.
Qed.

(** A rule given by two ids passes the checks only if the ids are below
    the number of link states. *)
Lemma check_transition_ids NL NN t last a b r :
  from_state t = PInt a → to_state t = PInt b →
  check_transition NL NN t last = Ok r → a < NL ∧ b < NL.
Proof.
  intros Hf Ht H. unfold check_transition, check_as_int, check_as_tuple in H.
  rewrite Hf, Ht in H. simpl in H.
  destruct (a <? NL) eqn:Ea; simpl in H; [|done].
  destruct (b <? NL) eqn:Eb; simpl in H; [|done]. lia.
Qed.

Lemma rules_as_ids_after_conversion self N (σ : store) tl (σ' : store) tl' :
  num_node_states self = N → codec_ok self →
  check_transition_list (num_link_states self) N σ tl = Ok tt →
  convert_transition_list (link_state_dict self) σ tl = Ok (σ', tl') →
  rules_keep_orientation N σ tl = true →
  tl' = tl ∧ rules_as_ids_ok self σ' tl.
Proof.
  intros HN Hcodec Hcheck Hconv Hrules. subst N.
  apply orb_prop in Hrules as [Hr|Hr]; rewrite forallb_forall in Hr.
  - (* ids *)
    assert (Hall : ∀ r, r ∈ tl → ∃ t a b, σ !! r = Some t ∧ from_state t = PInt a
              ∧ to_state t = PInt b ∧ 0 <= a ∧ 0 <= b
              ∧ orientation_of_state self a = orientation_of_state self b).
    { intros r Hin. apply list_elem_of_In in Hin. specialize (Hr r Hin).
      destruct (σ !! r) as [t|]; [|done].
      destruct (from_state t) as [a|] eqn:Ef; [|done].
      destruct (to_state t) as [b|] eqn:Et; [|done].
      apply andb_prop in Hr as [Hr H3]. apply andb_prop in Hr as [H1 H2].
      exists t, a, b. unfold orientation_of_state. repeat split; try done; lia. }
    unfold convert_transition_list in Hconv.
    apply bind_Ok in Hconv as (r0 & Hr0 & Hconv). apply bind_Ok in Hconv as (t0 & Ht0 & Hconv).
    apply getitem_Ok_nonneg in Hr0 as [Hr0 _]; [|lia].
    apply deref_Ok in Ht0.
    destruct (Hall r0) as (t & a & b & Ht & Hf & _).
    { apply list_elem_of_lookup. eauto. }
    rewrite Ht in Ht0. injection Ht0 as <-. rewrite Hf in Hconv. simpl in Hconv.
    injection Hconv as <- <-. split; [done|].
    intros r Hin. destruct (Hall r Hin) as (t' & a' & b' & Ht' & Hf' & Hto' & Ha & Hb & Hor).
    unfold check_transition_list in Hcheck.
    apply bind_Ok in Hcheck as (? & _ & Hcheck). apply bind_Ok in Hcheck as (lt & Hloop & _).
    destruct (for_in_body_Ok _ _ _ _ r Hloop Hin) as (s1 & s2 & Hb').
    unfold deref in Hb'. rewrite Ht' in Hb'. simpl in Hb'.
    apply (check_transition_ids _ _ _ _ a' b') in Hb' as [? ?]; [|done|done].
    exists t', a', b'. repeat split; try done; lia.
  - (* tuples *)
    assert (Hall : ∀ r, r ∈ tl → ∃ t f1 f2 t1 t2 o, σ !! r = Some t
              ∧ from_state t = PTuple [f1; t1; o] ∧ to_state t = PTuple [f2; t2; o]).
    { intros r Hin. apply list_elem_of_In in Hin. specialize (Hr r Hin).
      destruct (σ !! r) as [t|]; [|done].
      destruct (from_state t) as [a|[|f1 [|t1 [|o [|??]]]]] eqn:Ef; try done.
      destruct (to_state t) as [b|[|f2 [|t2 [|o' [|??]]]]] eqn:Et; try done.
      apply Z.eqb_eq in Hr. subst o'. eauto 10. }
    assert (Hfirst : ∃ r0 t0, tl !! 0%nat = Some r0 ∧ σ !! r0 = Some t0
              ∧ is_tuple (from_state t0) = true).
    { unfold convert_transition_list in Hconv.
      apply bind_Ok in Hconv as (r0 & Hr0 & _).
      apply getitem_Ok_nonneg in Hr0 as [Hr0 _]; [|lia].
      destruct (Hall r0) as (t & f1 & f2 & t1 & t2 & o & Ht & Hf & _).
      { apply list_elem_of_lookup. eauto. }
      exists r0, t. rewrite Hf. done. }
    apply convert_transition_list_tuples in Hconv as (-> & Hin & _); [|done].
    split; [done|]. intros r Hr'.
    destruct (Hin r Hr') as (t & p & q & k & k' & Ht & Hf & Hp & Hto & Hq & Hs).
    destruct (Hall r Hr') as (t' & f1 & f2 & t1 & t2 & o & Ht' & Hf' & Hto').
    rewrite Ht in Ht'. injection Ht' as <-.
    rewrite Hf in Hf'. rewrite Hto in Hto'.
    injection Hf' as _ _ Hpo. injection Hto' as _ _ Hqo.
    destruct (codec_ok_lookup self p k Hcodec) as (Hk & Hko & _).
    { unfold dict_get. by rewrite Hp. }
    destruct (codec_ok_lookup self q k' Hcodec) as (Hk' & Hko' & _).
    { unfold dict_get. by rewrite Hq. }
    eexists _, k, k'. split; [exact Hs|]. simpl. repeat (split; [done|]). congruence.
Qed.

(** ** The invariant of the engine *)

Lemma assign_link_states_from_node_types_consistent self self' :
  assign_link_states_from_node_types self = Ok self' → links_consistent self'.
Proof.
  intros H. pose proof (assign_link_states_from_node_types_frame _ _ H) as Hf.
  unfold assign_link_states_from_node_types in H.
  apply bind_Ok in H as (ls & Hloop & H). injection H as <-.
  intros l Hl. simpl in Hl. unfold link_consistent. simpl.
  change (node_pair_of (set_link_state self ls) l) with (node_pair_of self l).
  destruct Hl as [Hl0 Hl1].
  set (P := λ (i : Z) (ls : list Z), ∀ j, 0 <= j < i →
    ∃ p k, node_pair_of self j = Ok p ∧ dict_get (link_state_dict self) p = Ok k
           ∧ getitem ls j = Ok k).
  assert (HP : P (0 + number_of_active_links (grid self)) ls); [|apply HP; lia].
  revert Hloop. unfold range. apply for_in_seqZ_inv.
  - lia.
  - intros j Hj. lia.
  - intros i s s' Hi HP Hb j Hj.
    apply bind_Ok in Hb as (p & Hp & Hb). apply bind_Ok in Hb as (k & Hk & Hb).
    destruct (decide (j = i)) as [->|Hne].
    + exists p, k. repeat (split; [done|]). by eapply getitem_setitem.
    + destruct (HP j ltac:(lia)) as (p' & k' & ? & ? & ?). exists p', k'.
      repeat (split; [done|]). by rewrite (getitem_setitem_ne _ i j _ _ Hb) by lia.
Qed.

Section EngineInvariant.
Context {RS : RandomSource} {HQ : HeapQ} (is_heap : list Event.t → Prop).
Hypothesis heapq_ok : HeapQ_ok HQ is_heap.

Lemma push_transitions_to_event_queue_consistent self g self' g' :
  static_ok self → links_consistent self → queue_ok is_heap self →
  push_transitions_to_event_queue self g = Ok (self', g') →
  queue_ok is_heap self' ∧ links_consistent self'.
Proof.
  intros Hst Hcons Hq H.
  pose proof (push_transitions_to_event_queue_frame _ _ _ _ H) as (Hc & Hn & Hl & _).
  split.
  - unfold push_transitions_to_event_queue in H.
    apply (for_in_inv (λ '(s, _), config_of s = config_of self
      ∧ node_state s = node_state self ∧ link_state s = link_state self
      ∧ queue_ok is_heap s)) in H; [apply H| |done].
    intros i [s1 g1] [s2 g2] Hi (Hc1 & Hn1 & Hl1 & Hq1) Hb.
    apply elem_of_seqZ in Hi.
    apply bind_Ok in Hb as (ls & Hls & Hb). apply bind_Ok in Hb as (n & _ & Hb).
    destruct (0 <? n).
    + apply bind_Ok in Hb as ([e g3] & He & Hb). apply bind_Ok in Hb as (nu & _ & Hb).
      injection Hb as <- <-. simpl. repeat (split; [done|]).
      apply (queue_ok_push is_heap heapq_ok s1 _ e); [done|done|done|].
      destruct (Hcons i ltac:(lia)) as (p & k & Hp & Hd & Hk).
      rewrite Hl1, Hk in Hls. injection Hls as <-.
      pose proof Hst as (_ & _ & Hcodec & Htab).
      destruct (codec_ok_lookup self p k Hcodec Hd) as (Hkr & Hko & _).
      apply node_pair_of_Ok in Hp as (_ & _ & _ & _ & _ & _ & Hor).
      apply (event_ok_config self); [done|].
      apply get_next_event_target in He as [Hel Hex].
      * split; [rewrite Hel; lia|]. intros x Hx. destruct (Hex x Hx) as [Hr Ho].
        unfold config_of in Hc1. injection Hc1 as _ _ HN HL _ _ _ _ _ _.
        unfold orientation_of_state in *. rewrite HN, HL in *.
        split; [done|]. rewrite Hel, Ho, Hko. done.
      * apply (static_ok_config self s1 Hc1 Hst).
      * unfold config_of in Hc1. injection Hc1 as _ _ _ HL _ _ _ _ _ _. by rewrite HL.
    + apply bind_Ok in Hb as (nu & _ & Hb). injection Hb as <- <-. simpl.
      repeat (split; [done|]). by apply (queue_ok_same is_heap s1).
  - intros l Hl'. unfold config_of in Hc.
    injection Hc as Hg _ _ _ Hd _ Hv _ _ _. rewrite Hg in Hl'.
    destruct (Hcons l Hl') as (p & k & Hp & Hdp & Hk). exists p, k.
    rewrite Hd, Hl. split; [|done]. rewrite <- Hp.
    unfold node_pair_of, active_link_orientation. by rewrite Hg, Hv, Hn.
Qed.

Lemma run_step_consistent self g ev self' g' :
  static_ok self → queue_ok is_heap self → links_consistent self →
  run_step self g = Ok (ev, self', g') →
  static_ok self' ∧ queue_ok is_heap self' ∧ links_consistent self'.
Proof.
  intros Hst [Hh Hf] Hcons H.
  pose proof (run_step_frame _ _ _ _ _ H) as [Hc _].
  split; [by apply (static_ok_config self)|].
  unfold run_step in H. apply bind_Ok in H as ([ev' q] & Hpop & H).
  apply bind_Ok in H as ([s1 g1] & Hdo & H). injection H as -> <- <-.
  pose proof (heappop_perm _ _ heapq_ok _ _ _ Hh Hpop) as Hperm.
  pose proof (heappop_heap _ _ heapq_ok _ _ _ Hh Hpop) as Hh'.
  eapply Permutation_Forall in Hf; [|exact Hperm].
  apply Forall_cons in Hf as [Hev Hq].
  apply (do_transition_consistent is_heap heapq_ok) in Hdo as [Hq1 Hc1];
    [done|done|by split|done|done].
Qed.

(** The constructor establishes the invariant. *)
Lemma init_consistent model_grid nsd σ tl ins g self σ' g' :
  grid_ok model_grid = true →
  rules_keep_orientation (Z.of_nat (size nsd)) σ tl = true →
  __init__ model_grid nsd σ tl ins g = Ok (self, σ', g') →
  static_ok self ∧ queue_ok is_heap self ∧ links_consistent self.
Proof.
  intros Hgrid Hrules H.
  pose proof (init_codec _ _ _ _ _ _ _ _ _ H) as (HN & HL & Hg & Hanl & _).
  pose proof (init_codec_upto _ _ _ _ _ _ _ _ _ H) as Hup.
  apply init_Ok in H as (d & cp & k & tl' & s1 & s2 & _ & Hcheck & Hcreate & Hconv
                         & H1 & H2 & H3).
  pose proof (push_transitions_to_event_queue_frame _ _ _ _ H3) as (Hc3 & _).
  pose proof (setup_transition_data_frame _ _ _ _ H2) as Hf2.
  pose proof (assign_link_states_from_node_types_frame _ _ H1) as Hf1.
  assert (Hcodec1 : codec_ok s1).
  { rewrite Hf1. unfold codec_ok, init_base. simpl. split; [done|].
    exists k. pose proof (create_codec_upto (Z.of_nat (size nsd)) ltac:(lia)) as Hcu.
    rewrite Hcreate in Hcu. exact Hcu. }
  assert (Hrules' : tl' = tl ∧ rules_as_ids_ok s1 σ' tl).
  { apply (rules_as_ids_after_conversion s1 (Z.of_nat (size nsd)) σ); try done.
    - by rewrite Hf1.
    - by rewrite Hf1.
    - by rewrite Hf1. }
  destruct Hrules' as [-> Hrules'].
  pose proof (setup_transition_data_tables _ _ _ _ Hrules' H2) as Htab.
  assert (Hst2 : static_ok s2).
  { split; [|split; [|split]]; try done.
    - rewrite Hf2, Hf1. done.
    - rewrite Hf2, Hf1. done.
    - rewrite Hf2. exact Hcodec1. }
  apply assign_link_states_from_node_types_consistent in H1.
  assert (Hcons2 : links_consistent s2).
  { rewrite Hf2. exact H1. }
  assert (Hq2 : queue_ok is_heap s2).
  { rewrite Hf2, Hf1. split; simpl; [apply (heap_nil _ _ heapq_ok)|constructor]. }
  split; [by apply (static_ok_config s2)|].
  by apply (push_transitions_to_event_queue_consistent s2 g self g').
Qed.

End EngineInvariant.

(** C1, as the code has it. On a well-formed grid, and when every rule
    keeps the orientation of the link (the constructor does not check
    it), the state of every active link is the id that the dictionary gives
    for the states of its two nodes and its orientation: after
    construction (a session without calls), after any sequence of calls of
    [run] that pass no grid of node states, and after any number of further
    passes through the loop of [run], each of which applies [do_transition]
    to the popped event. *)
Theorem link_states_stay_consistent
    {RS : RandomSource} {HQ : HeapQ} (is_heap : list Event.t → Prop)
    fuel model_grid nsd σ tl ins calls g tr self σ' g' :
  HeapQ_ok HQ is_heap →
  grid_ok model_grid = true →
  rules_keep_orientation (Z.of_nat (size nsd)) σ tl = true →
  Forall (λ c : Q * option (list Z), c.2 = None) calls →
  simulate fuel model_grid nsd σ tl ins calls g = Ok (tr, self, σ', g') →
  links_consistent self ∧
  ∀ n s g1, run_steps n self g' = Ok (s, g1) → links_consistent s.
Proof.
  intros Hheap Hgrid Hrules Hnone Hsim.
  apply simulate_Ok in Hsim as (self0 & g0 & Hinit & Hrun).
  apply (init_consistent is_heap Hheap) in Hinit; [|done|done].
  set (P := λ s, static_ok s ∧ queue_ok is_heap s ∧ links_consistent s).
  assert (Hstep : ∀ s g ev s' g', P s → run_step s g = Ok (ev, s', g') → P s').
  { intros s g1 ev s' g1' (? & ? & ?) Hs.
    by apply (run_step_consistent is_heap Hheap s g1 ev s' g1'). }
  assert (HP : P self).
  { revert Hrun. by apply (run_calls_inv_None P). }
  split; [apply HP|].
  intros n. revert HP. generalize self g'. clear -Hstep.
  induction n as [|n IH]; intros s g HP s' g1 H; simpl in H.
  - injection H as <- <-. apply HP.
  - apply bind_Ok in H as ([[ev s1] g2] & Hs1 & H). simpl in H.
    eapply IH; [|exact H]. by eapply Hstep.
Qed.

(** ** Determinism *)

Section Determinism.
Context (RS1 RS2 : RandomSource) {HQ : HeapQ}.
Context (R : @rng RS1 → @rng RS2 → Prop).
Hypothesis draws : same_draws RS1 RS2 R.

Lemma agree_bind {A B} (m1 : res (A * @rng RS1)) (m2 : res (A * @rng RS2))
    (k1 : A * @rng RS1 → res (B * @rng RS1)) (k2 : A * @rng RS2 → res (B * @rng RS2)) :
  agree R m1 m2 →
  (∀ a g1 g2, R g1 g2 → agree R (k1 (a, g1)) (k2 (a, g2))) →
  agree R (m1 ≫= k1) (m2 ≫= k2).
Proof.
  intros Hm Hk. destruct m1 as [[a1 g1]|e1], m2 as [[a2 g2]|e2]; simpl in *; try done.
  destruct Hm as [-> HR]. by apply Hk.
Qed.

(** A step that does not draw is the same on both sides. *)
Lemma agree_pure {A B} (m : res A)
    (k1 : A → res (B * @rng RS1)) (k2 : A → res (B * @rng RS2)) :
  (∀ a, agree R (k1 a) (k2 a)) → agree R (m ≫= k1) (m ≫= k2).
Proof. intros Hk. destruct m as [a|e]; simpl; [apply Hk|done]. Qed.

Lemma agree_ret {A} (a : A) g1 g2 : R g1 g2 → agree R (Ok (a, g1)) (Ok (a, g2)).
Proof. done. Qed.

Lemma agree_for_in {T A} (l : list A)
    (b1 : A → T * @rng RS1 → res (T * @rng RS1))
    (b2 : A → T * @rng RS2 → res (T * @rng RS2)) s g1 g2 :
  (∀ x s g1 g2, R g1 g2 → agree R (b1 x (s, g1)) (b2 x (s, g2))) →
  R g1 g2 → agree R (for_in l b1 (s, g1)) (for_in l b2 (s, g2)).
Proof.
  intros Hb. revert s g1 g2. induction l as [|x l IH]; intros s g1 g2 HR; simpl; [done|].
  apply agree_bind; [by apply Hb|]. intros a g1' g2' HR'. by apply IH.
Qed.

Lemma get_next_event_agree self l c t g1 g2 :
  R g1 g2 →
  agree R (@get_next_event RS1 self l c t g1) (@get_next_event RS2 self l c t g2).
Proof.
  intros HR. unfold get_next_event.
  apply agree_pure; intros n. apply agree_pure; intros _.
  match goal with |- agree R (?m1 ≫= ?k1) (?m2 ≫= ?k2) =>
    assert (Hm : agree R (A := Q * option Z)
              (x ← m1; Ok (x.1, x.2)) (x ← m2; Ok (x.1, x.2))) end.
  { destruct (n =? 1).
    - destruct (getitem2 (xn_to self) c 0) as [xn|]; simpl; [|done].
      destruct (getitem2 (xn_rate self) c 0) as [r|]; simpl; [|done].
      pose proof (draws r g1 g2 HR) as Hd.
      destruct (random_exponential r g1) as [[x1 g1']|], (random_exponential r g2) as [[x2 g2']|];
        simpl in *; try done. destruct Hd as [-> ?]. done.
    - set (b1 := λ (i : Z) '(next_time, xn, g), _).
      set (b2 := λ (i : Z) '(next_time, xn, g), _).
      assert (Hloop : ∀ st g1 g2, R g1 g2 →
        agree R (A := Q * option Z)
          (x ← for_in (range n) b1 (st.1, st.2, g1); Ok (x.1, x.2))
          (x ← for_in (range n) b2 (st.1, st.2, g2); Ok (x.1, x.2))).
      { generalize (range n) as li. induction li as [|i li IH]; intros [nt xn] h1 h2 HR'; simpl.
        - done.
        - destruct (getitem2 (xn_rate self) c i) as [r|]; simpl; [|done].
          pose proof (draws r h1 h2 HR') as Hd.
          destruct (random_exponential r h1) as [[x1 h1']|],
            (random_exponential r h2) as [[x2 h2']|]; simpl in *; try done.
          destruct Hd as [-> HR'']. destruct (Qlt_bool x2 nt).
          + destruct (getitem2 (xn_to self) c i) as [xn'|]; simpl; [|done].
            apply (IH (x2, Some xn') _ _ HR'').
          + apply (IH (nt, xn) _ _ HR''). }
      apply (Hloop (_NEVER, None) g1 g2 HR). }
  match goal with |- agree R (?m1 ≫= ?k1) (?m2 ≫= ?k2) =>
    destruct m1 as [[[nt1 xn1] h1]|e1], m2 as [[[nt2 xn2] h2]|e2] end;
    simpl in *; try done.
  destruct Hm as [[= -> ->] ?]. done.
Qed.

Lemma update_link_state_agree self l x t g1 g2 :
  R g1 g2 →
  agree R (@update_link_state RS1 HQ self l x t g1)
          (@update_link_state RS2 HQ self l x t g2).
Proof.
  intros HR. unfold update_link_state.
  do 6 (apply agree_pure; intros ?). apply agree_pure; intros n.
  destruct (0 <? n).
  - apply agree_bind; [by apply get_next_event_agree|].
    intros e h1 h2 HR'. apply agree_pure; intros nu. done.
  - apply agree_pure; intros nu. done.
Qed.

Lemma update_links_of_node_agree self ev n g1 g2 :
  R g1 g2 →
  agree R (@update_links_of_node RS1 HQ self ev n g1)
          (@update_links_of_node RS2 HQ self ev n g2).
Proof.
  intros HR. unfold update_links_of_node. apply agree_pure; intros links.
  apply agree_for_in; [|done]. intros lnk s h1 h2 HR'.
  destruct (_ && _); [|done].
  do 2 (apply agree_pure; intros ?). by apply update_link_state_agree.
Qed.

Lemma do_transition_agree self ev t g1 g2 :
  R g1 g2 →
  agree R (@do_transition RS1 HQ self ev t g1) (@do_transition RS2 HQ self ev t g2).
Proof.
  intros HR. unfold do_transition. apply agree_pure; intros nu.
  destruct (Qeq_bool _ _); [|done].
  do 2 (apply agree_pure; intros ?). apply agree_pure; intros [[s1 fc] tc].
  apply agree_bind; [by apply update_link_state_agree|]. intros s2 h1 h2 HR2.
  apply agree_bind.
  - destruct fc; [by apply update_links_of_node_agree|done].
  - intros s3 k1 k2 HR3. destruct tc; [by apply update_links_of_node_agree|done].
Qed.

Lemma run_step_agree self g1 g2 :
  R g1 g2 →
  agree R (x ← @run_step RS1 HQ self g1; Ok (x.1, x.2))
          (x ← @run_step RS2 HQ self g2; Ok (x.1, x.2)).
Proof.
  intros HR. unfold run_step.
  destruct (heappop (event_queue self)) as [[ev q]|]; simpl; [|done].
  pose proof (do_transition_agree (set_event_queue self q) ev (current_time self) g1 g2 HR)
    as Hd.
  destruct (do_transition _ _ _ g1) as [[s1 h1]|], (do_transition _ _ _ g2) as [[s2 h2]|];
    simpl in *; try done.
  destruct Hd as [-> ?]. done.
Qed.

Lemma run_loop_trace_agree fuel self d g1 g2 :
  R g1 g2 →
  agree R (x ← @run_loop_trace RS1 HQ fuel self d g1; Ok (x.1, x.2))
          (x ← @run_loop_trace RS2 HQ fuel self d g2; Ok (x.1, x.2)).
Proof.
  revert self g1 g2. induction fuel as [|fuel IH]; intros self g1 g2 HR; simpl.
  - destruct (run_guard self d); done.
  - destruct (run_guard self d); [|done].
    pose proof (run_step_agree self g1 g2 HR) as Hs.
    destruct (run_step self g1) as [[[ev1 s1] h1]|], (run_step self g2) as [[[ev2 s2] h2]|];
      simpl in *; try done.
    destruct Hs as [[= -> ->] HR']. specialize (IH s2 h1 h2 HR').
    destruct (run_loop_trace fuel s2 d h1) as [[[tr1 s1'] k1]|],
      (run_loop_trace fuel s2 d h2) as [[[tr2 s2'] k2]|]; simpl in *; try done.
    destruct IH as [[= -> ->] ?]. done.
Qed.

Lemma run_calls_agree fuel calls self g1 g2 :
  R g1 g2 →
  agree R (x ← @run_calls RS1 HQ fuel self calls g1; Ok (x.1, x.2))
          (x ← @run_calls RS2 HQ fuel self calls g2; Ok (x.1, x.2)).
Proof.
  revert self g1 g2. induction calls as [|[d nsg] calls IH]; intros self g1 g2 HR; simpl.
  - done.
  - destruct (match nsg with Some ns => set_node_state_grid self ns | None => Ok self end)
      as [s0|]; simpl; [|done].
    pose proof (run_loop_trace_agree fuel s0 d g1 g2 HR) as Hs.
    destruct (run_loop_trace fuel s0 d g1) as [[[tr1 s1] h1]|],
      (run_loop_trace fuel s0 d g2) as [[[tr2 s2] h2]|]; simpl in *; try done.
    destruct Hs as [[= -> ->] HR']. specialize (IH s2 h1 h2 HR').
    destruct (run_calls fuel s2 calls h1) as [[[tr1' s1'] k1]|],
      (run_calls fuel s2 calls h2) as [[[tr2' s2'] k2]|]; simpl in *; try done.
    destruct IH as [[= -> ->] ?]. done.
Qed.

Lemma push_transitions_to_event_queue_agree self g1 g2 :
  R g1 g2 →
  agree R (@push_transitions_to_event_queue RS1 HQ self g1)
          (@push_transitions_to_event_queue RS2 HQ self g2).
Proof.
  intros HR. unfold push_transitions_to_event_queue.
  apply agree_for_in; [|done]. intros i s h1 h2 HR'.
  do 2 (apply agree_pure; intros ?). destruct (0 <? _).
  - apply agree_bind; [by apply get_next_event_agree|].
    intros e k1 k2 HR''. apply agree_pure; intros nu. done.
  - apply agree_pure; intros nu. done.
Qed.

Lemma init_agree model_grid nsd σ tl ins g1 g2 :
  R g1 g2 →
  agree R (@__init__ RS1 HQ model_grid nsd σ tl ins g1)
          (@__init__ RS2 HQ model_grid nsd σ tl ins g2).
Proof.
  intros HR. unfold __init__.
  apply agree_pure; intros s0. simpl. apply agree_pure; intros _.
  destruct (create_link_state_dict_and_pair_list _) as [[d cp] k].
  apply agree_pure; intros [σ' tl']. apply agree_pure; intros sa.
  apply agree_pure; intros sb.
  pose proof (push_transitions_to_event_queue_agree sb g1 g2 HR) as Hp.
  destruct (push_transitions_to_event_queue sb g1) as [[s1 h1]|],
    (push_transitions_to_event_queue sb g2) as [[s2 h2]|]; simpl in *; try done.
  destruct Hp as [-> ?]. done.
Qed.

Lemma simulate_agree fuel model_grid nsd σ tl ins calls g1 g2 :
  R g1 g2 →
  agree R (@simulate RS1 HQ fuel model_grid nsd σ tl ins calls g1)
          (@simulate RS2 HQ fuel model_grid nsd σ tl ins calls g2).
Proof.
  intros HR. unfold simulate.
  pose proof (init_agree model_grid nsd σ tl ins g1 g2 HR) as Hi.
  destruct (__init__ model_grid nsd σ tl ins g1) as [[[s1 σ1] h1]|],
    (__init__ model_grid nsd σ tl ins g2) as [[[s2 σ2] h2]|]; simpl in *; try done.
  destruct Hi as [[= -> ->] HR'].
  pose proof (run_calls_agree fuel calls s2 h1 h2 HR') as Hc.
  destruct (run_calls fuel s2 calls h1) as [[[tr1 s1'] k1]|],
    (run_calls fuel s2 calls h2) as [[[tr2 s2'] k2]|]; simpl in *; try done.
  destruct Hc as [[= -> ->] ?]. done.
Qed.

End Determinism.

(** A session in which nothing else draws is a session of [simulate]. *)
Lemma simulate_shared_alone {RS : RandomSource} {HQ : HeapQ}
    fuel model_grid nsd σ tl ins calls g :
  simulate_shared fuel model_grid nsd σ tl ins ((λ c, ([], c)) <$> calls) g
  = simulate fuel model_grid nsd σ tl ins calls g.
Proof.
  unfold simulate_shared, simulate.
  destruct (__init__ model_grid nsd σ tl ins g) as [[[s0 σ0] g0]|e]; simpl; [|done].
  assert (H : ∀ s h, run_calls_shared fuel s ((λ c, ([], c)) <$> calls) h
                     = run_calls fuel s calls h); [|by rewrite H].
  induction calls as [|[d nsg] calls IH]; intros s h; simpl; [done|].
  destruct (match nsg with Some ns => set_node_state_grid s ns | None => Ok s end)
    as [s1|]; simpl; [|done].
  destruct (run_loop_trace fuel s1 d h) as [[[tr s2] h2]|]; simpl; [|done].
  by rewrite IH.
Qed.

Section SharedAgree.
Context (RS1 RS2 : RandomSource) {HQ : HeapQ}.
Context (R : @rng RS1 → @rng RS2 → Prop).
Hypothesis draws : same_draws RS1 RS2 R.

Lemma draw_elsewhere_agree rates g1 g2 :
  R g1 g2 →
  match @draw_elsewhere RS1 rates g1, @draw_elsewhere RS2 rates g2 with
  | Ok h1, Ok h2 => R h1 h2
  | Raise e1, Raise e2 => e1 = e2
  | _, _ => False
  end.
Proof.
  unfold draw_elsewhere. revert g1 g2.
  induction rates as [|r rates IH]; intros g1 g2 HR; simpl; [done|].
  pose proof (draws r g1 g2 HR) as Hd.
  destruct (random_exponential r g1) as [[x1 h1]|], (random_exponential r g2) as [[x2 h2]|];
    simpl in *; try done.
  destruct Hd as [_ HR']. by apply IH.
Qed.

Lemma run_calls_shared_agree fuel calls self g1 g2 :
  R g1 g2 →
  agree R (x ← @run_calls_shared RS1 HQ fuel self calls g1; Ok (x.1, x.2))
          (x ← @run_calls_shared RS2 HQ fuel self calls g2; Ok (x.1, x.2)).
Proof.
  revert self g1 g2. induction calls as [|[elsewhere [d nsg]] calls IH];
    intros self g1 g2 HR; simpl.
  - done.
  - pose proof (draw_elsewhere_agree elsewhere g1 g2 HR) as He.
    destruct (draw_elsewhere elsewhere g1) as [e1|], (draw_elsewhere elsewhere g2) as [e2|];
      simpl in *; try done.
    destruct (match nsg with Some ns => set_node_state_grid self ns | None => Ok self end)
      as [s0|]; simpl; [|done].
    pose proof (run_loop_trace_agree RS1 RS2 R draws fuel s0 d e1 e2 He) as Hs.
    destruct (run_loop_trace fuel s0 d e1) as [[[tr1 s1] h1]|],
      (run_loop_trace fuel s0 d e2) as [[[tr2 s2] h2]|]; simpl in *; try done.
    destruct Hs as [[= -> ->] HR']. specialize (IH s2 h1 h2 HR').
    destruct (run_calls_shared fuel s2 calls h1) as [[[tr1' s1'] k1]|],
      (run_calls_shared fuel s2 calls h2) as [[[tr2' s2'] k2]|]; simpl in *; try done.
    destruct IH as [[= -> ->] ?]. done.
Qed.

Lemma simulate_shared_agree fuel model_grid nsd σ tl ins calls g1 g2 :
  R g1 g2 →
  agree R (@simulate_shared RS1 HQ fuel model_grid nsd σ tl ins calls g1)
          (@simulate_shared RS2 HQ fuel model_grid nsd σ tl ins calls g2).
Proof.
  intros HR. unfold simulate_shared.
  pose proof (init_agree RS1 RS2 R draws model_grid nsd σ tl ins g1 g2 HR) as Hi.
  destruct (__init__ model_grid nsd σ tl ins g1) as [[[s1 σ1] h1]|],
    (__init__ model_grid nsd σ tl ins g2) as [[[s2 σ2] h2]|]; simpl in *; try done.
  destruct Hi as [[= -> ->] HR'].
  pose proof (run_calls_shared_agree fuel calls s2 h1 h2 HR') as Hc.
  destruct (run_calls_shared fuel s2 calls h1) as [[[tr1 s1'] k1]|],
    (run_calls_shared fuel s2 calls h2) as [[[tr2 s2'] k2]|]; simpl in *; try done.
  destruct Hc as [[= -> ->] ?]. done.
Qed.

End SharedAgree.


(** ** The reference instances meet the contracts *)

Lemma Event_lt_spec (e x : Event.t) :
  if Event.__lt__ e x then (Event.time e < Event.time x)%Q
  else (Event.time x <= Event.time e)%Q.
Proof.
  unfold Event.__lt__, Qlt_bool.
  destruct (Qle_bool (Event.time x) (Event.time e)) eqn:E; simpl.
  - by apply Qle_bool_iff.
  - apply Qnot_le_lt. intros H. apply Qle_bool_iff in H. congruence.
Qed.

Lemma sorted_insert_perm h e : Permutation (sorted_insert h e) (e :: h).
Proof.
  induction h as [|x h IH]; simpl; [done|].
  destruct (Event.__lt__ e x); [done|]. rewrite IH. apply perm_swap.
Qed.

Lemma sorted_insert_sorted h e : sorted_by_time h → sorted_by_time (sorted_insert h e).
Proof.
  induction h as [|x h IH]; simpl; [done|]. intros [Hx Hh].
  pose proof (Event_lt_spec e x) as Hlt. destruct (Event.__lt__ e x); simpl.
  - split; [|done]. constructor; [lra|].
    eapply Forall_impl; [exact Hx|]. intros y Hy. simpl in Hy. lra.
  - split; [|by apply IH].
    eapply Permutation_Forall; [symmetry; apply sorted_insert_perm|].
    by constructor.
Qed.

Lemma sorted_heapq_ok : HeapQ_ok sorted_heapq sorted_by_time.
Proof.
  split; simpl.
  - done.
  - intros h e. apply sorted_insert_sorted.
  - intros h e _. apply sorted_insert_perm.
  - intros [|x h] _ Hne; done.
  - intros [|x h] e h' Hs H; [done|]. injection H as <- <-. apply Hs.
  - intros [|x h] e h' Hs H; [done|]. injection H as <- <-. done.
  - intros [|x h] e h' Hs H; [done|]. injection H as <- <-. apply Hs.
Qed.

Lemma tape_source_ok : RandomSource_ok tape_source.
Proof.
  intros r g x g'. simpl. unfold tape_exponential.
  destruct (Qle_bool r 0) eqn:E; [done|].
  assert (0 < r)%Q as Hr.
  { apply Qnot_le_lt. intros H. apply Qle_bool_iff in H. congruence. }
  assert (0 <= / r)%Q as Hinv by (apply Qlt_le_weak, Qinv_lt_0_compat, Hr).
  destruct g as [|[n d] g0]; intros [= <- <-].
  - unfold Qdiv. apply Qmult_le_0_compat; [done|exact Hinv].
  - unfold Qdiv. apply Qmult_le_0_compat; [|exact Hinv].
    unfold Qle. simpl. lia.
Qed.

(** ** The theorems and the engine at concrete inputs *)

Lemma size_two_states : Z.of_nat (size two_states) = 2.
Proof. vm_compute. reflexivity. Qed.

(** [after_first_event] is the engine after a call of [run] that stops
    after one event. *)
Lemma after_first_event_reached :
  ('(_, self, _, g) ← @simulate tape_source sorted_heapq 10 grid_3x4 two_states
       weathering [0%nat; 1%nat] sap_at_4_and_6 [((1 # 2)%Q, None)] tape_123;
   Ok (self, g)) = Ok (after_first_event, []).
Proof. vm_compute. reflexivity. Qed.

Lemma codec_canonical_enumeration_witness :
  match @__init__ tape_source sorted_heapq grid_3x4 two_states weathering
          [0%nat; 1%nat] sap_at_4_and_6 tape_123 with
  | Ok (self, _, _) =>
      num_link_states self = 8
      ∧ dict_get (link_state_dict self) (1, 0, 1) = Ok (1 * 2 * 2 + 1 * 2 + 0)
  | Raise _ => False
  end.
Proof.
  destruct (@__init__ tape_source sorted_heapq grid_3x4 two_states weathering
              [0%nat; 1%nat] sap_at_4_and_6 tape_123) as [[[self σ'] g']|e] eqn:H.
  - pose proof (codec_canonical_enumeration _ _ _ _ _ _ _ _ _ H) as (_ & HL & _ & _ & Hd).
    rewrite size_two_states in HL, Hd. split; [exact HL|]. apply (Hd 1 0 1); lia.
  - vm_compute in H. discriminate H.
Defined.

Lemma codec_roundtrip_witness :
  match @__init__ tape_source sorted_heapq grid_3x4 two_states weathering
          [0%nat; 1%nat] sap_at_4_and_6 tape_123 with
  | Ok (self, _, _) =>
      (k ← dict_get (link_state_dict self) (1, 0, 1); getitem (cell_pair self) k)
        = Ok (1, 0, 1)
      ∧ (p ← getitem (cell_pair self) 6; dict_get (link_state_dict self) p) = Ok 6
  | Raise _ => False
  end.
Proof.
  destruct (@__init__ tape_source sorted_heapq grid_3x4 two_states weathering
              [0%nat; 1%nat] sap_at_4_and_6 tape_123) as [[[self σ'] g']|e] eqn:H.
  - pose proof (codec_roundtrip _ _ _ _ _ _ _ _ _ H) as [H1 H2].
    pose proof (init_codec _ _ _ _ _ _ _ _ _ H) as (HN & HL & _).
    rewrite size_two_states in HN, HL. rewrite HN in H1. rewrite HL in H2.
    split; [apply H1; lia|apply H2; lia].
  - vm_compute in H. discriminate H.
Defined.

Lemma init_overwrites_callers_transitions_witness :
  match @__init__ tape_source sorted_heapq grid_3x4 two_states weathering_tuples
          [0%nat; 1%nat] sap_at_4_and_6 tape_123 with
  | Ok (_, σ', _) =>
      ∃ t p q, weathering_tuples !! 1%nat = Some t
        ∧ from_state t = PTuple [p.1.1; p.1.2; p.2]
        ∧ to_state t = PTuple [q.1.1; q.1.2; q.2]
        ∧ σ' !! 1%nat = Some (mkTransition (PInt (encode 2 p)) (PInt (encode 2 q))
                                 (rate t) (name t))
        ∧ from_state t ≠ PInt (encode 2 p) ∧ to_state t ≠ PInt (encode 2 q)
  | Raise _ => False
  end.
Proof.
  destruct (@__init__ tape_source sorted_heapq grid_3x4 two_states weathering_tuples
              [0%nat; 1%nat] sap_at_4_and_6 tape_123) as [[[self σ'] g']|e] eqn:H.
  - pose proof (init_overwrites_callers_transitions _ _ _ _ _ _ _ _ _ H) as [Hin _].
    + exists 0%nat, (mkTransition (PTuple [0; 1; 0]) (PTuple [1; 1; 0]) 1
                       (Some "weathering"%string)).
      repeat split; reflexivity.
    + rewrite size_two_states in Hin. apply (Hin 1%nat).
      apply elem_of_cons. right. apply elem_of_cons. by left.
  - vm_compute in H. discriminate H.
Defined.

Lemma stale_event_is_noop_witness :
  getitem (next_update after_first_event) 5 = Ok _NEVER
  ∧ ¬ (2 == _NEVER)%Q
  ∧ @do_transition tape_source sorted_heapq after_first_event
      (Event.mk 2 5 (Some 3)) 1%Q [] = Ok (after_first_event, []).
Proof.
  assert (H1 : getitem (next_update after_first_event) 5 = Ok _NEVER)
    by (vm_compute; reflexivity).
  assert (H2 : ¬ (2 == _NEVER)%Q) by (intros H; vm_compute in H; discriminate H).
  split; [exact H1|]. split; [exact H2|].
  exact (@stale_event_is_noop tape_source sorted_heapq after_first_event
           (Event.mk 2 5 (Some 3)) 1%Q [] _NEVER H1 H2).
Defined.

Lemma clock_follows_every_popped_event_witness :
  @heappop sorted_heapq (event_queue after_first_event)
    = Ok (Event.mk 2 5 (Some 3), [Event.mk 3 6 (Some 3)])
  ∧ @run_step tape_source sorted_heapq after_first_event []
    = Ok (Event.mk 2 5 (Some 3),
          set_current_time
            (set_event_queue after_first_event [Event.mk 3 6 (Some 3)]) 2%Q,
          []).
Proof.
  assert (H : @heappop sorted_heapq (event_queue after_first_event)
              = Ok (Event.mk 2 5 (Some 3), [Event.mk 3 6 (Some 3)]))
    by (vm_compute; reflexivity).
  split; [exact H|].
  destruct (@clock_follows_every_popped_event tape_source sorted_heapq
              after_first_event [] _ _ H) as [_ Hstale].
  apply (Hstale _NEVER); [vm_compute; reflexivity|].
  intros Heq. vm_compute in Heq. discriminate Heq.
Defined.

Lemma validation_ignores_rates_witness :
  same_states weathering weathering_not_positive
  ∧ check_transition_list 8 2 weathering [0%nat; 1%nat]
    = check_transition_list 8 2 weathering_not_positive [0%nat; 1%nat].
Proof.
  assert (H : same_states weathering weathering_not_positive)
    by (repeat constructor).
  split; [exact H|]. exact (validation_ignores_rates 8 2 _ _ [0%nat; 1%nat] H).
Defined.

(** ** Sessions at concrete inputs *)

Lemma link_states_stay_consistent_witness :
  match @simulate tape_source sorted_heapq 10 grid_3x4 two_states weathering
          [0%nat; 1%nat] sap_at_4_and_6 [((7 # 2)%Q, None)] tape_123 with
  | Ok (_, self, _, _) =>
      grid_ok grid_3x4 = true
      ∧ rules_keep_orientation 2 weathering [0%nat; 1%nat] = true
      ∧ links_consistent self
  | Raise _ => False
  end.
Proof.
  destruct (@simulate tape_source sorted_heapq 10 grid_3x4 two_states weathering
              [0%nat; 1%nat] sap_at_4_and_6 [((7 # 2)%Q, None)] tape_123)
    as [[[[tr self] σ'] g']|e] eqn:H.
  - assert (Hg : grid_ok grid_3x4 = true) by (vm_compute; reflexivity).
    assert (Hr : rules_keep_orientation 2 weathering [0%nat; 1%nat] = true)
      by (vm_compute; reflexivity).
    split; [exact Hg|]. split; [exact Hr|].
    refine (proj1 (link_states_stay_consistent sorted_by_time _ _ _ _ _ _ _ _ _ _ _ _
                     sorted_heapq_ok Hg _ _ H)).
    + rewrite size_two_states. exact Hr.
    + repeat constructor.
  - vm_compute in H. discriminate H.
Defined.

Lemma boundary_nodes_keep_initial_state_witness :
  match @simulate tape_source sorted_heapq 10 grid_3x4 two_states weathering
          [0%nat; 1%nat] sap_at_4_and_6 [((7 # 2)%Q, None)] tape_123 with
  | Ok (_, self, _, _) =>
      node_status grid_3x4 !! 7%nat = Some 1 ∧ 1 ≠ CORE_NODE
      ∧ node_state self !! 7%nat = sap_at_4_and_6 !! 7%nat
  | Raise _ => False
  end.
Proof.
  destruct (@simulate tape_source sorted_heapq 10 grid_3x4 two_states weathering
              [0%nat; 1%nat] sap_at_4_and_6 [((7 # 2)%Q, None)] tape_123)
    as [[[[tr self] σ'] g']|e] eqn:H.
  - assert (Hs : node_status grid_3x4 !! 7%nat = Some 1) by reflexivity.
    assert (Hc : 1 ≠ CORE_NODE) by discriminate.
    split; [exact Hs|]. split; [exact Hc|].
    refine (boundary_nodes_keep_initial_state _ _ _ _ _ _ _ _ _ _ _ _ _ _ H 7%nat 1 Hs Hc).
    + reflexivity.
    + repeat constructor.
  - vm_compute in H. discriminate H.
Defined.

Lemma events_fire_in_time_order_witness :
  match @simulate tape_source sorted_heapq 10 grid_3x4 two_states weathering
          [0%nat; 1%nat] sap_at_4_and_6 [((7 # 2)%Q, None)] tape_123 with
  | Ok (tr, self, _, _) =>
      nondecreasing_from 0 (times tr) ∧
      nondecreasing_from 0 (times (applied tr)) ∧
      current_time self = List.last (times tr) 0%Q ∧
      (0 <= current_time self)%Q ∧
      Forall (λ e, (current_time self <= Event.time e)%Q) (event_queue self)
  | Raise _ => False
  end.
Proof.
  destruct (@simulate tape_source sorted_heapq 10 grid_3x4 two_states weathering
              [0%nat; 1%nat] sap_at_4_and_6 [((7 # 2)%Q, None)] tape_123)
    as [[[[tr self] σ'] g']|e] eqn:H.
  - exact (events_fire_in_time_order sorted_by_time _ _ _ _ _ _ _ _ _ _ _ _
             sorted_heapq_ok tape_source_ok H).
  - vm_compute in H. discriminate H.
Defined.

Lemma tape_equiv_same_draws : same_draws tape_source tape_source tape_equiv.
Proof.
  intros r g1 g2 [-> Hg2]. simpl. unfold tape_exponential.
  destruct (Qle_bool r 0); [done|].
  destruct Hg2 as [->| ->]; simpl; (split; [reflexivity|]); split; auto.
Qed.


(** ** Where the code departs from the specification *)

(** Against C1. The rule list [turning] passes the checks of the
    constructor. When its only event fires, the link 5 of [grid_3x4], a
    horizontal link between the core nodes 5 and 6, is given the vertical
    link state 5, while the dictionary gives 1 for the states 0 and 1 of
    its nodes and its orientation 0. *)
Lemma turning_rule_breaks_consistency :
  match @simulate tape_source sorted_heapq 10 grid_3x4 two_states turning
          [0%nat] sap_at_6 [(10%Q, None)] [] with
  | Ok (_, self, _, _) =>
      node_pair_of self 5 = Ok (0, 1, 0)
      ∧ dict_get (link_state_dict self) (0, 1, 0) = Ok 1
      ∧ getitem (link_state self) 5 = Ok 5
      ∧ ¬ link_consistent self 5
  | Raise _ => False
  end.
Proof.
  assert (H : (x ← @simulate tape_source sorted_heapq 10 grid_3x4 two_states turning
                     [0%nat] sap_at_6 [(10%Q, None)] [];
               Ok (node_pair_of x.1.1.2 5,
                   dict_get (link_state_dict x.1.1.2) (0, 1, 0),
                   getitem (link_state x.1.1.2) 5))
              = Ok (Ok (0, 1, 0), Ok 1, Ok 5)) by (vm_compute; reflexivity).
  destruct (@simulate tape_source sorted_heapq 10 grid_3x4 two_states turning
              [0%nat] sap_at_6 [(10%Q, None)] []) as [[[[tr self] σ'] g']|e];
    simpl in H; [|discriminate H].
  injection H as H1 H2 H3. repeat (split; [done|]).
  intros (p & k & Hp & Hd & Hk). rewrite H1 in Hp. injection Hp as <-.
  rewrite H2 in Hd. rewrite H3 in Hk. congruence.
Qed.

(** Against C3. A call of [run] that passes a grid of node states replaces
    the array of node states: the boundary node 0 of [grid_3x4], built in
    state 0, is in state 1 after [run(10, all_sap)]. *)
Lemma run_with_grid_changes_boundary_node :
  match @simulate tape_source sorted_heapq 10 grid_3x4 two_states weathering
          [0%nat; 1%nat] all_rock [(10%Q, Some all_sap)] [] with
  | Ok (_, self, _, _) =>
      node_status grid_3x4 !! 0%nat = Some 1 ∧ 1 ≠ CORE_NODE
      ∧ all_rock !! 0%nat = Some 0
      ∧ node_state self !! 0%nat = Some 1
  | Raise _ => False
  end.
Proof.
  assert (H : (x ← @simulate tape_source sorted_heapq 10 grid_3x4 two_states weathering
                     [0%nat; 1%nat] all_rock [(10%Q, Some all_sap)] [];
               Ok (node_state x.1.1.2 !! 0%nat)) = Ok (Some 1))
    by (vm_compute; reflexivity).
  destruct (@simulate tape_source sorted_heapq 10 grid_3x4 two_states weathering
              [0%nat; 1%nat] all_rock [(10%Q, Some all_sap)] [])
    as [[[[tr self] σ'] g']|e]; simpl in H; [|discriminate H].
  injection H as H. repeat (split; [done|]). exact H.
Qed.

(** Against C5. In the engine [after_first_event], whose clock is at 1, the
    next event popped is the stale event of link 5 at time 2: it is not
    applied, node states, link states and [next_update] stay as they are,
    and the clock is moved to 2. *)
Lemma stale_pop_advances_clock :
  match @run_step tape_source sorted_heapq after_first_event [] with
  | Ok (ev, self, _) =>
      ev = Event.mk 2 5 (Some 3)
      ∧ is_current after_first_event ev = false
      ∧ node_state self = node_state after_first_event
      ∧ link_state self = link_state after_first_event
      ∧ next_update self = next_update after_first_event
      ∧ current_time after_first_event = 1%Q
      ∧ current_time self = 2%Q
      ∧ ¬ (current_time self == current_time after_first_event)%Q
  | Raise _ => False
  end.
Proof.
  vm_compute. repeat (split; [reflexivity|]). discriminate.
Qed.

(** Against C7. The rules [weathering_not_positive] have the rates -1 and
    0, and the constructor accepts them and returns an engine. *)
Lemma not_positive_rates_are_accepted :
  Forall (λ t, (rate t <= 0)%Q) weathering_not_positive
  ∧ check_transition_list 8 2 weathering_not_positive [0%nat; 1%nat] = Ok tt
  ∧ is_ok (@__init__ tape_source sorted_heapq grid_3x4 two_states
             weathering_not_positive [0%nat; 1%nat] all_rock []) = true.
Proof.
  split; [repeat constructor; vm_compute; discriminate|].
  split; vm_compute; reflexivity.
Qed.


(** * Further properties of the code *)

(** ** Rejected and accepted inputs of the constructor *)

(** An empty list of transitions is refused, whatever the other arguments
    are: the assertion on the length of the initial node states or the
    assertion on the list fails. *)
Theorem init_rejects_empty_transition_list
    {RS : RandomSource} {HQ : HeapQ} model_grid nsd (σ : store) ins g :
  __init__ model_grid nsd σ [] ins g = Raise AssertionError.
Proof.
  unfold __init__, set_node_state_grid. simpl.
  destruct (Z.of_nat (length ins) =? number_of_nodes model_grid); reflexivity.
Qed.

(** Initial node states whose number is not the number of nodes of the grid
    are refused with an [AssertionError], before the transitions are looked
    at. *)
Theorem init_rejects_wrong_number_of_node_states
    {RS : RandomSource} {HQ : HeapQ} model_grid nsd (σ : store) tl ins g :
  Z.of_nat (length ins) ≠ number_of_nodes model_grid →
  __init__ model_grid nsd σ tl ins g = Raise AssertionError.
Proof.
  intros H. unfold __init__, set_node_state_grid. simpl.
  apply Z.eqb_neq in H. rewrite H. reflexivity.
Qed.

Lemma res_bind_Ok {A B} (a : A) (f : A → res B) : Ok a ≫= f = f a.
Proof. reflexivity. Qed.

(** The checks on one rule given by two ids. *)
Lemma check_transition_of_ids NL NN t last a b :
  from_state t = PInt a → to_state t = PInt b →
  check_transition NL NN t last =
    if (a <? NL) && (b <? NL)
    then match last with
         | Some TTuple => Raise AssertionError
         | _ => Ok (Some TInt)
         end
    else Raise AssertionError.
Proof.
  intros Hf Ht. unfold check_transition, check_as_int, check_as_tuple.
  rewrite Hf, Ht. simpl.
  destruct (a <? NL); simpl; [|done]. destruct (b <? NL); simpl; [|done].
  destruct last as [[|]|]; reflexivity.
Qed.

Lemma check_loop_of_ids NL NN (σ : store) tl last :
  (∀ r, r ∈ tl → ∃ t a b, σ !! r = Some t ∧ from_state t = PInt a ∧ to_state t = PInt b) →
  last ≠ Some TTuple →
  for_in tl (λ r last_type, t ← deref σ r; check_transition NL NN t last_type) last
  = if forallb (λ r, match σ !! r with
                     | Some t => match from_state t, to_state t with
                                 | PInt a, PInt b => (a <? NL) && (b <? NL)
                                 | _, _ => false
                                 end
                     | None => false
                     end) tl
    then Ok (match tl with [] => last | _ => Some TInt end)
    else Raise AssertionError.
Proof.
  revert last. induction tl as [|r tl IH]; intros last Hall Hlast; simpl; [done|].
  destruct (Hall r ltac:(left)) as (t & a & b & Ht & Hf & Hto).
  assert (Hd : deref σ r = Ok t) by (unfold deref; by rewrite Ht).
  simpl. rewrite Hd, res_bind_Ok.
  rewrite (check_transition_of_ids NL NN t last a b Hf Hto).
  rewrite Ht, Hf, Hto.
  destruct ((a <? NL) && (b <? NL)); simpl; [|done].
  assert (match last with Some TTuple => Raise AssertionError | _ => Ok (Some TInt) end
          = Ok (Some TInt)) as ->.
  { destruct last as [[|]|]; done. }
  simpl. rewrite IH; [|intros r' Hr'; apply Hall; by right|done].
  destruct (forallb _ tl); [|done]. by destruct tl.
Qed.

(** A list of rules given by ids passes the checks of the constructor
    exactly when it is not empty and every id is below the number of link
    states; otherwise the checks raise [AssertionError]. There is no lower
    bound: negative ids pass. *)
Theorem id_rules_checked_from_above_only NL NN (σ : store) tl :
  (∀ r, r ∈ tl → ∃ t a b, σ !! r = Some t ∧ from_state t = PInt a ∧ to_state t = PInt b) →
  check_transition_list NL NN σ tl =
    if negb (bool_decide (tl = []))
       && forallb (λ r, match σ !! r with
                        | Some t => match from_state t, to_state t with
                                    | PInt a, PInt b => (a <? NL) && (b <? NL)
                                    | _, _ => false
                                    end
                        | None => false
                        end) tl
    then Ok tt else Raise AssertionError.
Proof.
  intros Hall. unfold check_transition_list.
  destruct (bool_decide (tl = [])); simpl; [done|].
  rewrite (check_loop_of_ids NL NN σ tl None Hall); [|done].
  destruct (forallb _ tl); reflexivity.
Qed.

(** What one pass of the checks that returns says of the rule. *)
Lemma check_transition_Ok NL NN t last res :
  check_transition NL NN t last = Ok res →
  ∃ ty, res = Some ty ∧ check_transition NL NN t None = Ok (Some ty)
    ∧ (∀ ty0, last = Some ty0 → ty0 = ty)
    ∧ (is_tuple (from_state t) = false → ty = TInt)
    ∧ (is_tuple (from_state t) = true → ty = TTuple).
Proof.
  unfold check_transition. intros H.
  apply bind_Ok in H as (ty & Hty & H). apply bind_Ok in H as (u & Hu & H).
  injection H as <-. apply assert_Ok in Hu. exists ty. rewrite Hty. simpl.
  split; [done|]. split; [done|]. split.
  { intros ty0 ->. destruct ty0, ty; done. }
  destruct (check_as_int NL t) as [?|e] eqn:Ei.
  - injection Hty as <-. split; [done|]. intros Htup.
    unfold check_as_int in Ei. destruct (from_state t); done.
  - apply bind_Ok in Hty as (u' & Hu' & Hty). injection Hty as <-.
    split; [|done]. intros Htup. unfold check_as_tuple in Hu'.
    rewrite Htup in Hu'. done.
Qed.

Lemma check_loop_one_type NL NN (σ : store) tl last res :
  for_in tl (λ r last_type, t ← deref σ r; check_transition NL NN t last_type) last
    = Ok res →
  (∀ ty0, last = Some ty0 → res = Some ty0) ∧
  (∀ r, r ∈ tl → ∃ t ty, σ !! r = Some t ∧ res = Some ty
     ∧ (is_tuple (from_state t) = false → ty = TInt)
     ∧ (is_tuple (from_state t) = true → ty = TTuple)).
Proof.
  revert last. induction tl as [|r tl IH]; intros last H; simpl in H.
  - injection H as <-. split; [done|]. intros r Hr. by apply elem_of_nil in Hr.
  - apply bind_Ok in H as (l1 & Hl1 & H). apply bind_Ok in Hl1 as (t & Ht & Hl1).
    apply deref_Ok in Ht.
    apply check_transition_Ok in Hl1 as (ty & -> & _ & Hlast & Hint & Htup).
    destruct (IH _ H) as [IH1 IH2]. pose proof (IH1 ty eq_refl) as ->.
    split.
    + intros ty0 Hty0. by rewrite (Hlast ty0 Hty0).
    + intros r' Hr'. apply elem_of_cons in Hr' as [->|Hr']; [|by apply IH2].
      exists t, ty. done.
Qed.

(** A list that holds a rule given by ids and a rule given by tuples is
    refused: the checks raise, and so does the constructor. *)
Theorem init_rejects_mixed_forms
    {RS : RandomSource} {HQ : HeapQ} model_grid nsd (σ : store) tl ins g
    r1 r2 t1 t2 :
  r1 ∈ tl → r2 ∈ tl → σ !! r1 = Some t1 → σ !! r2 = Some t2 →
  is_tuple (from_state t1) = false → is_tuple (from_state t2) = true →
  (∀ NL NN, is_ok (check_transition_list NL NN σ tl) = false)
  ∧ is_ok (__init__ model_grid nsd σ tl ins g) = false.
Proof.
  intros Hr1 Hr2 Ht1 Ht2 Hint Htup.
  assert (Hcheck : ∀ NL NN, is_ok (check_transition_list NL NN σ tl) = false).
  { intros NL NN. destruct (check_transition_list NL NN σ tl) as [u|e] eqn:H; [|done].
    exfalso. unfold check_transition_list in H.
    apply bind_Ok in H as (? & _ & H). apply bind_Ok in H as (res & Hloop & _).
    apply check_loop_one_type in Hloop as [_ Hall].
    destruct (Hall r1 Hr1) as (t & ty & Ht & Hres & Hi & _).
    destruct (Hall r2 Hr2) as (t' & ty' & Ht' & Hres' & _ & Hu).
    rewrite Ht1 in Ht. rewrite Ht2 in Ht'. injection Ht as <-. injection Ht' as <-.
    rewrite (Hi Hint) in Hres. rewrite (Hu Htup) in Hres'. congruence. }
  split; [exact Hcheck|].
  unfold __init__. destruct (set_node_state_grid _ ins) as [s|e]; simpl; [|done].
  specialize (Hcheck (2 * Z.of_nat (size nsd) * Z.of_nat (size nsd)) (Z.of_nat (size nsd))).
  destruct (check_transition_list _ _ σ tl); done.
Qed.

(** ** The caller's rules after construction *)

(** When the first rule is given by ids, the constructor leaves the
    caller's [Transition] objects as they are. *)
Theorem init_keeps_id_rules
    {RS : RandomSource} {HQ : HeapQ} model_grid nsd (σ : store) tl ins g self σ' g'
    r0 t0 :
  __init__ model_grid nsd σ tl ins g = Ok (self, σ', g') →
  tl !! 0%nat = Some r0 → σ !! r0 = Some t0 → is_tuple (from_state t0) = false →
  σ' = σ.
Proof.
  intros H Hr0 Ht0 Hint.
  apply init_Ok in H as (d & cp & k & tl' & s1 & s2 & _ & _ & _ & Hconv & _).
  unfold convert_transition_list in Hconv.
  apply bind_Ok in Hconv as (r & Hr & Hconv). apply bind_Ok in Hconv as (t & Ht & Hconv).
  apply getitem_Ok_nonneg in Hr as [Hr _]; [|lia]. change (Z.to_nat 0) with 0%nat in Hr.
  apply deref_Ok in Ht. simplify_eq. cbv beta in Hconv. rewrite Hint in Hconv.
  by injection Hconv as <- _.
Qed.

(** ** The shape of the arrays *)

Section Shape.
Context {RS : RandomSource} {HQ : HeapQ}.

Lemma update_link_state_shape self l x t g self' g' :
  update_link_state self l x t g = Ok (self', g') →
  length (link_state self') = length (link_state self)
  ∧ length (next_update self') = length (next_update self).
Proof.
  unfold update_link_state. intros H. inv_res.
  destruct (0 <? _); inv_res; simpl;
    repeat match goal with H : setitem _ _ _ = Ok _ |- _ =>
      apply setitem_length in H end; simpl in *; split; congruence.
Qed.

Lemma update_node_states_shape self fn tn x self' b1 b2 :
  update_node_states self fn tn x = Ok (self', b1, b2) →
  length (node_state self') = length (node_state self).
Proof.
  unfold update_node_states. intros H. inv_res.
  destruct (_ =? CORE_NODE) in E2; destruct (_ =? CORE_NODE) in E4; inv_res; simpl;
    repeat match goal with H : setitem _ _ _ = Ok _ |- _ =>
      apply setitem_length in H end; simpl in *; congruence.
Qed.

Lemma update_links_of_node_shape self ev n g self' g' :
  update_links_of_node self ev n g = Ok (self', g') →
  length (link_state self') = length (link_state self)
  ∧ length (next_update self') = length (next_update self).
Proof.
  unfold update_links_of_node. intros H. inv_res.
  revert H. apply (for_in_inv (λ '(s, _),
    length (link_state s) = length (link_state self)
    ∧ length (next_update s) = length (next_update self))); [|done].
  intros lnk [s1 g1] [s2 g2] _ [Hl Hn] Hb.
  destruct (_ && _); inv_res; [|done].
  apply update_link_state_shape in Hb as [-> ->]. done.
Qed.

Lemma do_transition_shape self ev t g self' g' :
  do_transition self ev t g = Ok (self', g') →
  length (node_state self') = length (node_state self)
  ∧ length (link_state self') = length (link_state self)
  ∧ length (next_update self') = length (next_update self).
Proof.
  intros H. apply do_transition_Ok in H as (nu & _ & [(_ & -> & _)|(_ & H)]); [done|].
  destruct H as (fn & tn & s1 & fc & tc & s2 & g2 & s3 & g3 & _ & _ & H1 & H2 & H3 & H4).
  pose proof (update_node_states_shape _ _ _ _ _ _ _ H1) as Hn1.
  apply update_node_states_frame in H1 as (_ & _ & Hl1 & Hu1 & _).
  pose proof (update_link_state_shape _ _ _ _ _ _ _ H2) as [Hl2 Hu2].
  apply update_link_state_frame in H2 as (_ & Hn2 & _).
  assert (node_state s3 = node_state s2 ∧ length (link_state s3) = length (link_state s2)
          ∧ length (next_update s3) = length (next_update s2)) as (Hn3 & Hl3 & Hu3).
  { destruct fc; inv_res; [|done].
    pose proof (update_links_of_node_shape _ _ _ _ _ _ H3) as [? ?].
    apply update_links_of_node_frame in H3 as (_ & ? & _). done. }
  assert (node_state self' = node_state s3
          ∧ length (link_state self') = length (link_state s3)
          ∧ length (next_update self') = length (next_update s3)) as (Hn4 & Hl4 & Hu4).
  { destruct tc; inv_res; [|done].
    pose proof (update_links_of_node_shape _ _ _ _ _ _ H4) as [? ?].
    apply update_links_of_node_frame in H4 as (_ & ? & _). done. }
  repeat split; congruence.
Qed.

Lemma run_step_shape self g ev self' g' :
  arrays_in_shape self → run_step self g = Ok (ev, self', g') → arrays_in_shape self'.
Proof.
  intros (Hn & Hl & Hu) H.
  pose proof (run_step_frame _ _ _ _ _ H) as [Hc _].
  assert (grid self' = grid self) as Hg by (unfold config_of in Hc; congruence).
  unfold run_step in H. inv_res.
  match goal with H : do_transition _ _ _ _ = _ |- _ =>
    apply do_transition_shape in H as (Hn' & Hl' & Hu') end.
  simpl in *. unfold arrays_in_shape. simpl. rewrite Hg.
  repeat split; congruence.
Qed.

Lemma set_node_state_grid_shape self ns self' :
  arrays_in_shape self → set_node_state_grid self ns = Ok self' → arrays_in_shape self'.
Proof.
  intros (Hn & Hl & Hu) H. unfold set_node_state_grid in H. inv_res.
  apply Z.eqb_eq in E. unfold arrays_in_shape. simpl. done.
Qed.

Lemma assign_link_states_from_node_types_length self self' :
  assign_link_states_from_node_types self = Ok self' →
  length (link_state self') = Z.to_nat (number_of_active_links (grid self)).
Proof.
  unfold assign_link_states_from_node_types. intros H. inv_res. simpl.
  revert E. apply (for_in_inv (λ ls : list Z,
    length ls = Z.to_nat (number_of_active_links (grid self)))).
  - intros i ls ls' _ Hls Hb. inv_res. apply setitem_length in Hb. congruence.
  - unfold zeros. apply length_replicate.
Qed.

Lemma push_transitions_to_event_queue_length self g self' g' :
  push_transitions_to_event_queue self g = Ok (self', g') →
  length (next_update self') = length (next_update self).
Proof.
  unfold push_transitions_to_event_queue.
  apply (for_in_inv (λ '(s, _), length (next_update s) = length (next_update self)));
    [|done].
  intros i [s1 g1] [s2 g2] _ Hl Hb. inv_res.
  destruct (0 <? _); inv_res; simpl;
    match goal with H : setitem _ _ _ = Ok _ |- _ => apply setitem_length in H end;
    simpl in *; congruence.
Qed.

Lemma init_shape model_grid nsd σ tl ins g self σ' g' :
  __init__ model_grid nsd σ tl ins g = Ok (self, σ', g') → arrays_in_shape self.
Proof.
  intros H. apply init_Ok in H as (d & cp & k & tl' & s1 & s2 & Hlen & _ & _ & _
    & Hassign & Hsetup & Hpush).
  pose proof (assign_link_states_from_node_types_length _ _ Hassign) as Hl1.
  pose proof (assign_link_states_from_node_types_frame _ _ Hassign) as Hs1.
  pose proof (setup_transition_data_frame _ _ _ _ Hsetup) as Hs2.
  pose proof (push_transitions_to_event_queue_length _ _ _ _ Hpush) as Hu.
  apply push_transitions_to_event_queue_frame in Hpush as (Hc & Hn & Hl & _).
  assert (grid self = grid s2) as Hg by (unfold config_of in Hc; congruence).
  unfold arrays_in_shape. rewrite Hg, Hn, Hl, Hu, Hs2. simpl. rewrite Hs1. simpl.
  rewrite Hs1 in Hl1. simpl in Hl1.
  split; [done|]. split; [done|]. unfold zeros. apply length_replicate.
Qed.

End Shape.

(** After any session the arrays of the engine have the lengths the grid
    announces: one node state for each node, one link state and one time
    of next update for each active link. *)
Theorem arrays_keep_their_shape
    {RS : RandomSource} {HQ : HeapQ}
    fuel model_grid nsd σ tl ins calls g tr self σ' g' :
  simulate fuel model_grid nsd σ tl ins calls g = Ok (tr, self, σ', g') →
  grid self = model_grid ∧ arrays_in_shape self.
Proof.
  intros H. apply simulate_Ok in H as (s0 & g0 & Hinit & Hcalls).
  pose proof (init_shape _ _ _ _ _ _ _ _ _ Hinit) as Hs0.
  assert (grid s0 = model_grid) as Hg0.
  { apply init_Ok in Hinit as (d & cp & k & tl' & s1 & s2 & _ & _ & _ & _
      & Hassign & Hsetup & Hpush).
    apply push_transitions_to_event_queue_frame in Hpush as (Hc & _).
    apply setup_transition_data_frame in Hsetup.
    apply assign_link_states_from_node_types_frame in Hassign.
    assert (grid s0 = grid s2) as -> by (unfold config_of in Hc; congruence).
    rewrite Hsetup. simpl. rewrite Hassign. reflexivity. }
  revert Hcalls.
  apply (run_calls_inv (λ s, grid s = model_grid ∧ arrays_in_shape s)); [| |done].
  - intros s g1 ev s' g1' [Hg Hs] Hstep. split; [|by eapply run_step_shape].
    apply run_step_frame in Hstep as [Hc _]. unfold config_of in Hc. congruence.
  - intros s ns s' [Hg Hs] Hset. split; [|by eapply set_node_state_grid_shape].
    unfold set_node_state_grid in Hset. inv_res. done.
Qed.

(** ** The schedule of the links *)

Lemma get_next_event_link {RS : RandomSource} self l c t g ev g' :
  get_next_event self l c t g = Ok (ev, g') → Event.link ev = l.
Proof.
  unfold get_next_event. intros H.
  apply bind_Ok in H as (n & _ & H). apply bind_Ok in H as (? & _ & H).
  apply bind_Ok in H as ([[nt xn] g1] & Hd & H). simpl in H. inv_res. done.
Qed.

Lemma Qeq_bool_self (x : Q) : Qeq_bool x x = true.
Proof. apply Qeq_bool_iff. reflexivity. Qed.

Section Schedule.
Context {RS : RandomSource} {HQ : HeapQ} (is_heap : list Event.t → Prop).
Hypothesis heapq_ok : HeapQ_ok HQ is_heap.

(** The code that [update_link_state] and
    [push_transitions_to_event_queue] share: it schedules link [l], whose
    state is [ls], and leaves the other links as they are scheduled. *)
Lemma schedule_link self l ls t g self' g' :
  length (link_state self) = length (next_update self) →
  is_heap (event_queue self) →
  getitem (link_state self) l = Ok ls →
  (n ← getitem (n_xn self) ls;
   if 0 <? n then
     '(event, g) ← get_next_event self l ls t g;
     let self := set_event_queue self (heappush (event_queue self) event) in
     nu ← setitem (next_update self) l (Event.time event);
     Ok (set_next_update self nu, g)
   else
     nu ← setitem (next_update self) l _NEVER;
     Ok (set_next_update self nu, g)) = Ok (self', g') →
  link_state self' = link_state self ∧ n_xn self' = n_xn self
  ∧ length (next_update self') = length (next_update self)
  ∧ is_heap (event_queue self') ∧
  ∃ p, norm_index (length (next_update self)) l = Some p ∧ scheduled self' p
    ∧ ∀ p', p' ≠ p → scheduled self p' → scheduled self' p'.
Proof.
  intros Hlen Hheap Hls H.
  apply bind_Ok in H as (n & Hn & H).
  apply getitem_Ok in Hls as (p & Hp & Hls).
  destruct (0 <? n) eqn:En.
  - apply bind_Ok in H as ([ev g1] & Hev & H). apply bind_Ok in H as (nu' & Hnu & H).
    injection H as <- <-. simpl in Hnu. apply get_next_event_link in Hev.
    apply setitem_Ok in Hnu as (p2 & Hp2 & ->).
    rewrite <- Hlen in Hp2. rewrite Hp in Hp2. injection Hp2 as <-.
    pose proof (norm_index_lt _ _ _ Hp) as Hplt.
    pose proof (heappush_perm _ _ heapq_ok (event_queue self) ev Hheap) as Hperm.
    simpl. split; [done|]. split; [done|]. split; [apply length_insert|].
    split; [by apply (heappush_heap _ _ heapq_ok)|].
    exists p. rewrite <- Hlen. split; [done|]. split.
    + intros ls0 n0. simpl. rewrite Hls.
      intros [= <-] Hn0. rewrite Hn in Hn0. injection Hn0 as <-. rewrite En.
      exists ev, (Event.time ev). rewrite length_insert, <- Hlen, Hev.
      split; [rewrite Hperm; by left|]. split; [done|].
      split; [apply list_lookup_insert_eq; lia|]. apply Qeq_bool_self.
    + intros p' Hne Hs ls0 n0. simpl. intros Hl0 Hn0.
      specialize (Hs ls0 n0 Hl0 Hn0). destruct (0 <? n0).
      * destruct Hs as (e & nu & He & Hpe & Hnu & Hq). exists e, nu.
        rewrite length_insert, list_lookup_insert_ne by done.
        split; [rewrite Hperm; by right|]. done.
      * rewrite list_lookup_insert_ne by done. done.
  - apply bind_Ok in H as (nu' & Hnu & H). injection H as <- <-.
    apply setitem_Ok in Hnu as (p2 & Hp2 & ->).
    rewrite <- Hlen in Hp2. rewrite Hp in Hp2. injection Hp2 as <-.
    pose proof (norm_index_lt _ _ _ Hp) as Hplt.
    simpl. split; [done|]. split; [done|]. split; [apply length_insert|].
    split; [done|]. exists p. rewrite <- Hlen. split; [done|]. split.
    + intros ls0 n0. simpl. rewrite Hls.
      intros [= <-] Hn0. rewrite Hn in Hn0. injection Hn0 as <-. rewrite En.
      apply list_lookup_insert_eq. lia.
    + intros p' Hne Hs ls0 n0. simpl. intros Hl0 Hn0.
      specialize (Hs ls0 n0 Hl0 Hn0). destruct (0 <? n0).
      * destruct Hs as (e & nu & He & Hpe & Hnu & Hq). exists e, nu.
        rewrite length_insert, list_lookup_insert_ne by done. done.
      * rewrite list_lookup_insert_ne by done. done.
Qed.

Lemma update_link_state_scheduled self l x t g self' g' :
  length (link_state self) = length (next_update self) →
  is_heap (event_queue self) →
  update_link_state self l x t g = Ok (self', g') →
  is_heap (event_queue self') ∧
  ∃ p, norm_index (length (next_update self)) l = Some p ∧ scheduled self' p
    ∧ ∀ p', p' ≠ p → scheduled self p' → scheduled self' p'.
Proof.
  intros Hlen Hheap H. unfold update_link_state in H.
  apply bind_Ok in H as (fn & _ & H). apply bind_Ok in H as (tn & _ & H).
  apply bind_Ok in H as (b & _ & H). apply bind_Ok in H as (nls & _ & H).
  apply bind_Ok in H as (new & _ & H). apply bind_Ok in H as (ls' & Hls & H).
  pose proof (getitem_setitem _ _ _ _ Hls) as Hget.
  apply setitem_Ok in Hls as (p & Hp & ->).
  apply (schedule_link (set_link_state self (<[p:=new]> (link_state self)))) in H
    as (_ & _ & _ & Hh & p2 & Hp2 & Hsp & Hothers);
    [|simpl; by rewrite length_insert|done|exact Hget].
  simpl in Hp2. split; [done|]. exists p2. split; [done|]. split; [done|].
  intros p' Hne Hs. apply Hothers; [done|].
  rewrite <- Hlen, Hp in Hp2. injection Hp2 as <-.
  intros ls0 n0. simpl. rewrite list_lookup_insert_ne by done. apply Hs.
Qed.

(** The same for the links of a node. *)
Lemma update_links_of_node_scheduled self ev n g self' g' :
  length (link_state self) = length (next_update self) →
  is_heap (event_queue self) → (∀ p, scheduled self p) →
  update_links_of_node self ev n g = Ok (self', g') →
  is_heap (event_queue self') ∧ ∀ p, scheduled self' p.
Proof.
  intros Hlen Hheap Hs H. unfold update_links_of_node in H.
  apply bind_Ok in H as (links & _ & H).
  apply (for_in_inv (λ '(s, _),
    length (link_state s) = length (next_update s) ∧ is_heap (event_queue s)
    ∧ ∀ p, scheduled s p)) in H; [tauto| |done].
  intros lnk [s1 g1] [s2 g2] _ (Hl1 & Hh1 & Hs1) Hb.
  destruct (_ && _); inv_res; [|done].
  pose proof (update_link_state_shape _ _ _ _ _ _ _ Hb) as [Hl2 Hu2].
  apply update_link_state_scheduled in Hb as (Hh2 & p & _ & Hp & Hothers); [|done..].
  split; [congruence|]. split; [done|].
  intros p'. destruct (decide (p' = p)) as [->|Hne]; [done|].
  apply Hothers; [done|]. by apply Hs1.
Qed.

Lemma scheduled_ext self self' p :
  link_state self' = link_state self → next_update self' = next_update self →
  event_queue self' = event_queue self → n_xn self' = n_xn self →
  scheduled self p → scheduled self' p.
Proof. unfold scheduled. intros -> -> -> ->. done. Qed.

(** [do_transition] on an event just popped: the link of the event, if
    the event is applied, has lost its event and is scheduled anew. *)
Lemma do_transition_scheduled self ev t g self' g' :
  length (link_state self) = length (next_update self) →
  is_heap (event_queue self) →
  (∀ p, norm_index (length (next_update self)) (Event.link ev) ≠ Some p
        ∨ is_current self ev = false → scheduled self p) →
  do_transition self ev t g = Ok (self', g') →
  is_heap (event_queue self') ∧ ∀ p, scheduled self' p.
Proof.
  intros Hlen Hheap Hs H.
  apply do_transition_Ok in H as (nu & Hnu & [(Hstale & -> & _)|(_ & H)]).
  { split; [done|]. intros p. apply Hs. right. unfold is_current. by rewrite Hnu. }
  destruct H as (fn & tn & s1 & fc & tc & s2 & g2 & s3 & g3 & _ & _ & H1 & H2 & H3 & H4).
  pose proof (update_node_states_frame _ _ _ _ _ _ _ H1) as (Hc1 & _ & Hl1 & Hu1 & Hq1).
  assert (n_xn s1 = n_xn self) as Hx1 by (unfold config_of in Hc1; congruence).
  pose proof (update_link_state_shape _ _ _ _ _ _ _ H2) as [Hl2 Hu2].
  apply update_link_state_scheduled in H2 as (Hh2 & p & Hp & Hsp & Hothers);
    [|congruence..].
  assert (∀ p', scheduled s2 p') as Hs2.
  { intros p'. destruct (decide (p' = p)) as [->|Hne]; [done|].
    apply Hothers; [done|]. apply (scheduled_ext self); [done..|].
    apply Hs. left. rewrite <- Hu1, Hp. congruence. }
  assert (length (link_state s2) = length (next_update s2)) as Hlen2 by congruence.
  assert (length (link_state s3) = length (next_update s3)
          ∧ is_heap (event_queue s3) ∧ ∀ p, scheduled s3 p) as (Hlen3 & Hh3 & Hs3).
  { destruct fc; inv_res; [|done].
    pose proof (update_links_of_node_shape _ _ _ _ _ _ H3) as [? ?].
    apply update_links_of_node_scheduled in H3 as [? ?]; [|done..].
    split; [congruence|]. done. }
  destruct tc; inv_res; [|done].
  apply update_links_of_node_scheduled in H4 as [? ?]; done.
Qed.

Lemma run_step_scheduled self g ev self' g' :
  length (link_state self) = length (next_update self) →
  is_heap (event_queue self) → (∀ p, scheduled self p) →
  run_step self g = Ok (ev, self', g') →
  is_heap (event_queue self') ∧ ∀ p, scheduled self' p.
Proof.
  intros Hlen Hheap Hs H. unfold run_step in H.
  apply bind_Ok in H as ([ev' q] & Hpop & H).
  apply bind_Ok in H as ([s1 g1] & Hdo & H). injection H as <- <- <-.
  pose proof (heappop_perm _ _ heapq_ok _ _ _ Hheap Hpop) as Hperm.
  pose proof (heappop_heap _ _ heapq_ok _ _ _ Hheap Hpop) as Hh'.
  apply do_transition_scheduled in Hdo as [Hh1 Hs1]; [|done..|].
  { split; [done|]. intros p. eapply scheduled_ext; [..|apply Hs1]; done. }
  simpl. intros p Hp ls n Hl Hn. specialize (Hs p ls n Hl Hn). simpl.
  destruct (0 <? n); [|done].
  destruct Hs as (e & nu & He & Hpe & Hnu & Hq). exists e, nu.
  split; [|done]. rewrite Hperm in He. apply elem_of_cons in He as [->|He]; [|done].
  exfalso. destruct Hp as [Hp|Hp]; [done|].
  unfold is_current, getitem in Hp. simpl in Hp. rewrite Hpe, Hnu in Hp. congruence.
Qed.

Lemma push_transitions_to_event_queue_scheduled self g self' g' :
  length (link_state self) = Z.to_nat (number_of_active_links (grid self)) →
  length (next_update self) = Z.to_nat (number_of_active_links (grid self)) →
  is_heap (event_queue self) →
  push_transitions_to_event_queue self g = Ok (self', g') →
  is_heap (event_queue self') ∧ ∀ p, scheduled self' p.
Proof.
  intros Hll Hlu Hheap H. unfold push_transitions_to_event_queue in H.
  pose proof (push_transitions_to_event_queue_frame _ _ _ _ H) as (_ & _ & Hlink & _).
  unfold push_transitions_to_event_queue in H.
  set (nal := number_of_active_links (grid self)) in *.
  destruct (decide (0 <= nal)) as [Hnal|Hnal]; cycle 1.
  { unfold range in H. rewrite seqZ_nil in H by lia. simpl in H. injection H as <- <-.
    split; [done|]. intros p ls n Hl. apply lookup_lt_Some in Hl. lia. }
  set (P := λ (i : Z) (st : LinkCellularAutomaton * rng),
    link_state st.1 = link_state self
    ∧ length (next_update st.1) = length (next_update self)
    ∧ is_heap (event_queue st.1)
    ∧ ∀ p, Z.of_nat p < i → scheduled st.1 p).
  assert (HP : P (0 + nal) (self', g')).
  { revert H. unfold range. apply for_in_seqZ_inv; [done| |].
    - unfold P. simpl. repeat (split; [done|]). intros p Hp. lia.
    - intros i [s1 g1] [s2 g2] Hi (Hl1 & Hu1 & Hh1 & Hs1) Hb. simpl in *.
      apply bind_Ok in Hb as (ls & Hls & Hb).
      pose proof Hls as Hls'.
      apply getitem_Ok_nonneg in Hls' as [_ Hlt]; [|lia].
      apply (schedule_link s1) in Hb
        as (Hl2 & _ & Hu2 & Hh2 & p & Hp & Hsp & Hothers); [|congruence|done|done].
      apply norm_index_nonneg in Hp as [-> _]; [|lia].
      unfold P. simpl. split; [congruence|]. split; [congruence|]. split; [done|].
      intros p Hp. destruct (decide (p = Z.to_nat i)) as [->|Hne]; [done|].
      apply Hothers; [done|]. apply Hs1. lia. }
  destruct HP as (Hl & Hu & Hh & Hs). simpl in *. split; [done|].
  intros p. destruct (decide (Z.of_nat p < nal)) as [Hp|Hp]; [apply Hs; lia|].
  intros ls n Hlp. rewrite Hl in Hlp. apply lookup_lt_Some in Hlp. lia.
Qed.

End Schedule.

(** After any session every link is scheduled, whatever the rules and
    the grid: a link whose state has a transition has an event in the
    queue with the time recorded for it in [next_update], and the entry
    of [next_update] of a link whose state has none is [_NEVER]. *)
Theorem every_link_stays_scheduled
    {RS : RandomSource} {HQ : HeapQ} (is_heap : list Event.t → Prop)
    fuel model_grid nsd σ tl ins calls g tr self σ' g' :
  HeapQ_ok HQ is_heap →
  simulate fuel model_grid nsd σ tl ins calls g = Ok (tr, self, σ', g') →
  ∀ p, scheduled self p.
Proof.
  intros Hheap H. apply simulate_Ok in H as (s0 & g0 & Hinit & Hcalls).
  pose proof (init_shape _ _ _ _ _ _ _ _ _ Hinit) as (_ & Hl0 & Hu0).
  assert (is_heap (event_queue s0) ∧ ∀ p, scheduled s0 p) as [Hh0 Hs0].
  { apply init_Ok in Hinit as (d & cp & k & tl' & s1 & s2 & _ & _ & _ & _
      & Hassign & Hsetup & Hpush).
    pose proof (assign_link_states_from_node_types_length _ _ Hassign) as Hl1.
    apply assign_link_states_from_node_types_frame in Hassign.
    apply setup_transition_data_frame in Hsetup.
    apply (push_transitions_to_event_queue_scheduled is_heap Hheap) in Hpush; [done|..].
    - rewrite Hsetup. simpl. rewrite Hassign. simpl.
      rewrite Hassign in Hl1. exact Hl1.
    - rewrite Hsetup. simpl. rewrite Hassign. simpl. unfold zeros. apply length_replicate.
    - rewrite Hsetup. simpl. rewrite Hassign. simpl. apply (heap_nil _ _ Hheap). }
  assert (length (link_state self) = length (next_update self)
          ∧ is_heap (event_queue self) ∧ ∀ p, scheduled self p) as (_ & _ & Hs);
    [|exact Hs].
  revert Hcalls.
  apply (run_calls_inv (λ s, length (link_state s) = length (next_update s)
    ∧ is_heap (event_queue s) ∧ ∀ p, scheduled s p)).
  - intros s g1 ev s' g1' (Hl & Hh & Hs) Hstep.
    pose proof Hstep as Hstep'. unfold run_step in Hstep'.
    apply bind_Ok in Hstep' as ([ev' q] & _ & Hstep').
    apply bind_Ok in Hstep' as ([s1 g2] & Hdo & Hstep'). injection Hstep' as <- <- <-.
    apply do_transition_shape in Hdo as (_ & Hl' & Hu'). simpl in Hl', Hu'.
    split; [simpl; congruence|].
    eapply (run_step_scheduled is_heap Hheap); eassumption.
  - intros s ns s' (Hl & Hh & Hs) Hset. unfold set_node_state_grid in Hset. inv_res.
    simpl. split; [done|]. split; [done|]. intros p.
    eapply scheduled_ext; [..|apply Hs]; done.
  - split; [congruence|]. done.
Qed.

(** ** The range of the node states *)

Lemma node_states_in_range_spec N ns :
  node_states_in_range N ns = true ↔ Forall (λ s, 0 <= s < N) ns.
Proof.
  unfold node_states_in_range. induction ns as [|s ns IH]; simpl.
  - split; [constructor|done].
  - rewrite andb_true_iff, Forall_cons, IH. intuition lia.
Qed.

Lemma codec_upto_cell_pair N d cp k p :
  0 <= N → codec_upto N (d, cp, k) (2 * N * N) → p ∈ cp → in_domain N p.
Proof.
  intros HN (_ & Hlen & _ & Hcp & _) Hp.
  apply list_elem_of_lookup in Hp as (i & Hi).
  pose proof (lookup_lt_Some _ _ _ Hi) as Hlt.
  destruct (Hcp (Z.of_nat i) ltac:(lia)) as [Hc _].
  rewrite Nat2Z.id, Hi in Hc. injection Hc as ->.
  apply decode_in_domain; nia.
Qed.

Lemma update_node_states_range N self fn tn x self' b1 b2 :
  (∀ p, p ∈ cell_pair self → in_domain N p) →
  Forall (λ s, 0 <= s < N) (node_state self) →
  update_node_states self fn tn x = Ok (self', b1, b2) →
  Forall (λ s, 0 <= s < N) (node_state self').
Proof.
  intros Hcp Hns H. unfold update_node_states in H.
  apply bind_Ok in H as (old_f & _ & H). apply bind_Ok in H as (old_t & _ & H).
  apply bind_Ok in H as (st1 & _ & H). apply bind_Ok in H as (s1 & Hs1 & H).
  apply bind_Ok in H as (st2 & _ & H). apply bind_Ok in H as (s2 & Hs2 & H).
  apply bind_Ok in H as (new_f & _ & H). apply bind_Ok in H as (new_t & _ & H).
  injection H as -> _ _.
  assert (cell_pair s1 = cell_pair self ∧ Forall (λ s, 0 <= s < N) (node_state s1))
    as [Hcp1 Hns1].
  { destruct (st1 =? CORE_NODE).
    - apply bind_Ok in Hs1 as (k & _ & Hs1). apply bind_Ok in Hs1 as ([[f t] o] & Hp & Hs1).
      apply bind_Ok in Hs1 as (ns & Hset & Hs1). injection Hs1 as <-. simpl.
      split; [done|]. apply setitem_Ok in Hset as (i & _ & ->).
      apply getitem_Ok in Hp as (j & _ & Hj). apply list_elem_of_lookup_2 in Hj.
      apply Hcp in Hj. simpl in Hj. apply Forall_insert; [done|]. simpl. tauto.
    - by injection Hs1 as <-. }
  destruct (st2 =? CORE_NODE).
  - apply bind_Ok in Hs2 as (k & _ & Hs2). apply bind_Ok in Hs2 as ([[f t] o] & Hp & Hs2).
    apply bind_Ok in Hs2 as (ns & Hset & Hs2). injection Hs2 as <-. simpl.
    apply setitem_Ok in Hset as (i & _ & ->).
    apply getitem_Ok in Hp as (j & _ & Hj). apply list_elem_of_lookup_2 in Hj.
    rewrite Hcp1 in Hj. apply Hcp in Hj. simpl in Hj.
    apply Forall_insert; [done|]. simpl. tauto.
  - by injection Hs2 as <-.
Qed.

Section Range.
Context {RS : RandomSource} {HQ : HeapQ}.

Lemma run_step_range N self g ev self' g' :
  (∀ p, p ∈ cell_pair self → in_domain N p) →
  Forall (λ s, 0 <= s < N) (node_state self) →
  run_step self g = Ok (ev, self', g') →
  Forall (λ s, 0 <= s < N) (node_state self').
Proof.
  intros Hcp Hns H. unfold run_step in H.
  apply bind_Ok in H as ([ev' q] & _ & H).
  apply bind_Ok in H as ([s1 g1] & Hdo & H). injection H as <- <- <-. simpl.
  apply do_transition_Ok in Hdo as (nu & _ & [(_ & -> & _)|(_ & H)]); [done|].
  destruct H as (fn & tn & s1' & fc & tc & s2 & g2 & s3 & g3 & _ & _ & H1 & H2 & H3 & H4).
  apply (update_node_states_range N) in H1; [|done..].
  apply update_link_state_frame in H2 as (_ & Hn2 & _).
  assert (node_state s3 = node_state s2) as Hn3.
  { destruct fc; inv_res; [|done]. by apply update_links_of_node_frame in H3 as (_ & ? & _). }
  assert (node_state s1 = node_state s3) as Hn4.
  { destruct tc; inv_res; [|done]. by apply update_links_of_node_frame in H4 as (_ & ? & _). }
  congruence.
Qed.

Lemma run_calls_range N fuel calls self g tr self' g' :
  (∀ p, p ∈ cell_pair self → in_domain N p) →
  Forall (λ s, 0 <= s < N) (node_state self) →
  Forall (λ c : Q * option (list Z),
            from_option (node_states_in_range N) true c.2 = true) calls →
  run_calls fuel self calls g = Ok (tr, self', g') →
  Forall (λ s, 0 <= s < N) (node_state self').
Proof.
  revert self g tr. induction calls as [|[d nsg] calls IH];
    intros self g tr Hcp Hns Hcalls H; simpl in H.
  - by inv_res.
  - inversion Hcalls as [|?? Hc Hcalls']; subst. simpl in Hc.
    apply bind_Ok in H as (s1 & Hs1 & H).
    apply bind_Ok in H as ([[tr1 s2] g2] & Hloop & H). simpl in H.
    apply bind_Ok in H as ([[tr2 s3] g3] & Hrest & H). injection H as _ <- <-.
    assert (cell_pair s1 = cell_pair self ∧ Forall (λ s, 0 <= s < N) (node_state s1))
      as [Hcp1 Hns1].
    { destruct nsg as [ns|]; [|by injection Hs1 as <-].
      unfold set_node_state_grid in Hs1. inv_res. simpl. split; [done|].
      by apply node_states_in_range_spec. }
    assert (cell_pair s2 = cell_pair self ∧ Forall (λ s, 0 <= s < N) (node_state s2))
      as [Hcp2 Hns2].
    { revert Hloop. apply (run_loop_trace_inv (λ s, cell_pair s = cell_pair self
        ∧ Forall (λ s, 0 <= s < N) (node_state s))); [|done].
      intros s g0 ev s' g0' [Hc' Hn'] Hstep. split.
      - apply run_step_frame in Hstep as [Hcfg _]. unfold config_of in Hcfg. congruence.
      - eapply run_step_range; [|done..]. by rewrite Hc'. }
    apply (IH s2 g2 tr2); [by rewrite Hcp2|exact Hns2|exact Hcalls'|exact Hrest].
Qed.

End Range.

(** When the initial node states, and the node states passed to [run],
    are among the [N] states of the state dictionary, so are the node
    states of the engine after any session, whatever the rules are. *)
Theorem node_states_stay_in_range
    {RS : RandomSource} {HQ : HeapQ}
    fuel model_grid nsd σ tl ins calls g tr self σ' g' :
  let N := Z.of_nat (size nsd) in
  node_states_in_range N ins = true →
  Forall (λ c : Q * option (list Z),
            from_option (node_states_in_range N) true c.2 = true) calls →
  simulate fuel model_grid nsd σ tl ins calls g = Ok (tr, self, σ', g') →
  Forall (λ s, 0 <= s < N) (node_state self).
Proof.
  intros N Hins Hcalls H. apply simulate_Ok in H as (s0 & g0 & Hinit & Hrun).
  pose proof (init_codec_upto _ _ _ _ _ _ _ _ _ Hinit) as (k & Hk).
  apply init_codec in Hinit as (HN & HL & _ & _ & _ & Hns & _). fold N in HN, HL.
  rewrite HN, HL in Hk.
  eapply run_calls_range; [| |exact Hcalls|exact Hrun].
  - intros p Hp. eapply codec_upto_cell_pair; [|exact Hk|exact Hp]. lia.
  - rewrite Hns. by apply node_states_in_range_spec.
Qed.

Lemma node_states_stay_in_range_witness :
  match @simulate tape_source sorted_heapq 10 grid_3x4 two_states weathering
          [0%nat; 1%nat] sap_at_4_and_6 [((1 # 2)%Q, None); ((7 # 2)%Q, Some all_sap)]
          tape_123 with
  | Ok (_, self, _, _) => Forall (λ s, 0 <= s < 2) (node_state self)
  | Raise _ => False
  end.
Proof.
  destruct (@simulate tape_source sorted_heapq 10 grid_3x4 two_states weathering
          [0%nat; 1%nat] sap_at_4_and_6 [((1 # 2)%Q, None); ((7 # 2)%Q, Some all_sap)]
          tape_123)
    as [[[[tr self] σ'] g']|e] eqn:H.
  - refine (node_states_stay_in_range _ _ _ _ _ _ _ _ _ _ _ _ _ _ H).
    + vm_compute. reflexivity.
    + repeat constructor.
  - vm_compute in H. discriminate H.
Defined.

(** ** The contents of the transition tables *)

(** A property of the part of the list already visited is kept by a loop
    whose passes extend it by the element they visit. *)
Lemma for_in_prefix_inv {T A} (P : list A → T → Prop) (l : list A)
    (body : A → T → res T) (s s' : T) :
  P [] s →
  (∀ pre x s s', x ∈ l → P pre s → body x s = Ok s' → P (pre ++ [x]) s') →
  for_in l body s = Ok s' → P l s'.
Proof.
  intros H0 Hstep H.
  enough (Hgen : ∀ l2 pre s, (∀ x, x ∈ l2 → x ∈ l) → P pre s →
            for_in l2 body s = Ok s' → P (pre ++ l2) s').
  { apply (Hgen l [] s); done. }
  clear H0 H s. induction l2 as [|x l2 IH]; intros pre s Hin HP H; simpl in H.
  - injection H as <-. by rewrite app_nil_r.
  - apply bind_Ok in H as (s1 & Hs1 & H).
    replace (pre ++ x :: l2) with ((pre ++ [x]) ++ l2) by by rewrite <- app_assoc.
    apply (IH _ s1); [|eapply Hstep; [|done..]|done].
    + intros y Hy. apply Hin. by right.
    + apply Hin. by left.
Qed.

Lemma rules_from_snoc σ pre r c t a :
  σ !! r = Some t → from_state t = PInt a →
  rules_from σ (pre ++ [r]) c = rules_from σ pre c ++ (if a =? c then [t] else []).
Proof.
  intros Ht Hf. unfold rules_from. rewrite omap_app. simpl. rewrite Ht, Hf.
  destruct (a =? c); reflexivity.
Qed.

(** The tables built by [setup_transition_data] from rules in id form
    with non-negative from-states hold exactly the rules: for every link
    state, [n_xn] counts the rules that leave it, and the rows of [xn_to]
    and [xn_rate] list their to-states and rates in the order of the
    list. *)
Theorem transition_tables_list_the_rules (σ : store) xn_list self self' :
  (∀ r, r ∈ xn_list → ∃ t a b, σ !! r = Some t ∧ from_state t = PInt a
     ∧ to_state t = PInt b ∧ 0 <= a) →
  setup_transition_data σ xn_list self = Ok self' →
  ∀ c, 0 <= c < num_link_states self →
    getitem (n_xn self') c = Ok (Z.of_nat (length (rules_from σ xn_list c)))
    ∧ ∀ j t, rules_from σ xn_list c !! j = Some t →
        ∃ b, to_state t = PInt b
          ∧ getitem2 (xn_to self') c (Z.of_nat j) = Ok b
          ∧ getitem2 (xn_rate self') c (Z.of_nat j) = Ok (rate t).
Proof.
  intros Hrules H. unfold setup_transition_data in H.
  apply bind_Ok in H as (n1 & Hfirst & H). apply bind_Ok in H as (mx & _ & H).
  apply bind_Ok in H as ([[n2 to2] rt2] & Hloop & H). injection H as <-. simpl.
  assert (Hlen1 : length n1 = Z.to_nat (num_link_states self)).
  { revert Hfirst. apply (for_in_inv (λ n : list Z,
      length n = Z.to_nat (num_link_states self))).
    - intros r n n' _ Hn Hb. inv_res. apply setitem_length in Hb. congruence.
    - unfold zeros. apply length_replicate. }
  set (P := λ (pre : list nat) (st : list Z * list (list Z) * list (list Q)),
    length st.1.1 = Z.to_nat (num_link_states self) ∧
    ∀ c, 0 <= c < num_link_states self →
      getitem st.1.1 c = Ok (Z.of_nat (length (rules_from σ pre c)))
      ∧ ∀ j t, rules_from σ pre c !! j = Some t →
          ∃ b, to_state t = PInt b
            ∧ getitem2 st.1.2 c (Z.of_nat j) = Ok b
            ∧ getitem2 st.2 c (Z.of_nat j) = Ok (rate t)).
  assert (HP : P xn_list (n2, to2, rt2)); [|exact (proj2 HP)].
  revert Hloop. apply for_in_prefix_inv.
  - split; [simpl; by rewrite length_fmap|]. intros c Hc. simpl. split; [|intros j t Hj; by rewrite lookup_nil in Hj].
    apply getitem_Some; [lia|]. rewrite list_lookup_fmap.
    destruct (n1 !! Z.to_nat c) eqn:E; [done|].
    apply lookup_ge_None in E. lia.
  - intros pre r [[n3 to3] rt3] [[n4 to4] rt4] Hr [Hlen3 HPpre] Hb. simpl in Hlen3.
    destruct (Hrules r Hr) as (t & a & b & Ht & Hf & Hto & Ha).
    unfold deref in Hb. rewrite Ht in Hb. simpl in Hb. rewrite Hf, Hto in Hb. simpl in Hb.
    apply bind_Ok in Hb as (slot & Hslot & Hb).
    apply bind_Ok in Hb as (bv & Hbv & Hb).
    apply (as_int_Ok (PInt b)) in Hbv as [[= <-] _].
    apply bind_Ok in Hb as (to' & Hto' & Hb).
    apply bind_Ok in Hb as (slot' & Hslot' & Hb). apply bind_Ok in Hb as (rt' & Hrt' & Hb).
    apply bind_Ok in Hb as (c0 & Hc0 & Hb). apply bind_Ok in Hb as (n' & Hn' & Hb).
    injection Hb as <- <- <-.
    rewrite Hslot in Hc0, Hslot'. injection Hc0 as <-. injection Hslot' as <-.
    assert (Hslot0 : 0 <= slot).
    { pose proof Hslot as Hlt. apply getitem_Ok_nonneg in Hlt as [_ Hlt]; [|done].
      destruct (HPpre a ltac:(lia)) as [Hn _]. simpl in Hn.
      rewrite Hslot in Hn. injection Hn as ->. lia. }
    split; [simpl; apply setitem_length in Hn'; congruence|].
    intros c Hc. simpl. rewrite (rules_from_snoc σ pre r c t a Ht Hf).
    destruct (HPpre c Hc) as [Hn Hrows]. simpl in Hn, Hrows.
    destruct (a =? c) eqn:Eac.
    + apply Z.eqb_eq in Eac. subst c. rewrite Hslot in Hn. injection Hn as ->.
      rewrite length_app. simpl. split.
      * rewrite (getitem_setitem _ _ _ _ Hn'). f_equal. lia.
      * intros j t' Hj. apply lookup_app_Some in Hj as [Hj|[Hge Hj]].
        -- pose proof (lookup_lt_Some _ _ _ Hj) as Hlt.
           rewrite (getitem2_setitem2_ne _ a _ a (Z.of_nat j) _ _ Hto')
             by (try lia; right; lia).
           rewrite (getitem2_setitem2_ne _ a _ a (Z.of_nat j) _ _ Hrt')
             by (try lia; right; lia).
           by apply Hrows.
        -- destruct (j - length (rules_from σ pre a))%nat as [|?] eqn:Ej; [|done].
           injection Hj as <-. replace (Z.of_nat j)
             with (Z.of_nat (length (rules_from σ pre a))) by lia.
           exists b. rewrite (getitem2_setitem2 _ _ _ _ _ Hto').
           rewrite (getitem2_setitem2 _ _ _ _ _ Hrt'). done.
    + apply Z.eqb_neq in Eac. rewrite app_nil_r. split.
      * rewrite (getitem_setitem_ne _ a c _ _ Hn') by lia. done.
      * intros j t' Hj.
        rewrite (getitem2_setitem2_ne _ a _ c (Z.of_nat j) _ _ Hto')
          by (try lia; left; lia).
        rewrite (getitem2_setitem2_ne _ a _ c (Z.of_nat j) _ _ Hrt')
          by (try lia; left; lia).
        by apply Hrows.
Qed.

(** ** The rules after normalisation *)

(** The store of rules that the constructor leaves is accepted by the
    constructor again and gives the same engine and the same store: the
    rules in id form are a fixed point of the normalisation. *)
Theorem init_accepts_its_own_rules
    {RS : RandomSource} {HQ : HeapQ} model_grid nsd (σ : store) tl ins g self
    (σ' : store) g' :
  __init__ model_grid nsd σ tl ins g = Ok (self, σ', g') →
  __init__ model_grid nsd σ' tl ins g = Ok (self, σ', g').
Proof.
  intros H.
  pose proof (init_Ok _ _ _ _ _ _ _ _ _ H)
    as (d & cp & k & tl' & s1 & s2 & _ & Hcheck & Hc & Hconv & _).
  set (N := Z.of_nat (size nsd)) in *.
  pose proof Hconv as Hconv0. unfold convert_transition_list in Hconv0.
  apply bind_Ok in Hconv0 as (r0 & Hr0 & Hconv0).
  apply bind_Ok in Hconv0 as (t0 & Ht0 & Hconv0).
  pose proof Hr0 as Hr0'. apply getitem_Ok_nonneg in Hr0' as [Hr0' _]; [|lia].
  change (Z.to_nat 0) with 0%nat in Hr0'. apply deref_Ok in Ht0.
  destruct (is_tuple (from_state t0)) eqn:Etup; cycle 1.
  { injection Hconv0 as <- _. exact H. }
  clear Hconv0. pose proof Hconv as Hconv0.
  apply convert_transition_list_tuples in Hconv as (-> & Hin & _); [|eauto].
  pose proof (create_codec_upto N ltac:(lia)) as Hup.
  rewrite Hc in Hup. destruct Hup as (_ & _ & _ & _ & Hd).
  assert (Hids : ∀ r, r ∈ tl → ∃ t a b, σ' !! r = Some t ∧ from_state t = PInt a
            ∧ to_state t = PInt b ∧ a < 2 * N * N ∧ b < 2 * N * N).
  { intros r Hr. destruct (Hin r Hr) as (t & p & q & kp & kq & _ & _ & Hp & _ & Hq & Hs).
    destruct (Hd _ _ Hp) as [? _]. destruct (Hd _ _ Hq) as [? _].
    eexists _, kp, kq. split; [exact Hs|]. simpl. repeat split; lia. }
  assert (Hne : tl ≠ []) by (intros ->; done).
  assert (Hcheck' : check_transition_list (2 * N * N) N σ' tl = Ok tt).
  { unfold check_transition_list.
    rewrite bool_decide_eq_false_2 by done. simpl.
    rewrite check_loop_of_ids; [|intros r Hr; destruct (Hids r Hr) as (t & a & b & ?);
      exists t, a, b; tauto|done].
    rewrite (proj2 (forallb_forall _ _)); [done|].
    intros r Hr. apply list_elem_of_In in Hr.
    destruct (Hids r Hr) as (t & a & b & -> & -> & -> & Ha & Hb).
    apply andb_true_iff. split; apply Z.ltb_lt; lia. }
  assert (Hconv' : convert_transition_list d σ' tl = Ok (σ', tl)).
  { unfold convert_transition_list. rewrite Hr0. simpl.
    destruct (Hids r0) as (t & a & b & Ht & Hf & _).
    { apply list_elem_of_lookup. eauto. }
    unfold deref. rewrite Ht. simpl. rewrite Hf. done. }
  revert H. unfold __init__.
  destruct (set_node_state_grid _ ins) as [s0|e]; simpl; [|done].
  fold N. rewrite Hcheck, Hcheck'. simpl. rewrite Hc. simpl.
  rewrite Hconv0, Hconv'. done.
Qed.

(** ** What the constructor checks of the initial node states *)

(** The constructor returns only if the initial states of the two nodes
    of every active link are among the [N] states of the state dictionary
    (otherwise the lookup of the link state raises). *)
Theorem init_checks_states_on_links
    {RS : RandomSource} {HQ : HeapQ} model_grid nsd (σ : store) tl ins g self
    (σ' : store) g' :
  __init__ model_grid nsd σ tl ins g = Ok (self, σ', g') →
  ∀ l, 0 <= l < number_of_active_links model_grid →
    ∃ fn tn fs ts,
      getitem (activelink_fromnode model_grid) l = Ok fn
      ∧ getitem (activelink_tonode model_grid) l = Ok tn
      ∧ getitem ins fn = Ok fs ∧ getitem ins tn = Ok ts
      ∧ 0 <= fs < Z.of_nat (size nsd) ∧ 0 <= ts < Z.of_nat (size nsd).
Proof.
  intros H l Hl.
  apply init_Ok in H as (d & cp & k & tl' & s1 & s2 & _ & _ & Hc & _ & Hassign & _).
  set (N := Z.of_nat (size nsd)) in *.
  pose proof (assign_link_states_from_node_types_frame _ _ Hassign) as Hf.
  apply assign_link_states_from_node_types_consistent in Hassign.
  destruct (Hassign l) as ([[fs ts] o] & kl & Hp & Hk & _).
  { rewrite Hf. simpl. exact Hl. }
  rewrite Hf in Hp, Hk. simpl in Hk.
  change (node_pair_of (set_link_state _ _) l)
    with (node_pair_of (init_base model_grid N ins d cp) l) in Hp.
  apply node_pair_of_Ok in Hp as (fn & tn & Hfn & Htn & Hfs & Hts & _). simpl in *.
  pose proof (create_codec_upto N ltac:(lia)) as Hup.
  rewrite Hc in Hup. destruct Hup as (_ & _ & _ & _ & Hd).
  unfold dict_get in Hk. destruct (d !! (fs, ts, o)) as [v|] eqn:E; [|done].
  destruct (Hd _ _ E) as [Hv Hdec].
  assert (0 < N) by nia.
  pose proof (decode_in_domain N v ltac:(done) Hv) as Hdom.
  rewrite <- Hdec in Hdom. simpl in Hdom.
  exists fn, tn, fs, ts. repeat (split; [done|]). split; tauto.
Qed.

Lemma init_checks_states_on_links_witness :
  match @__init__ tape_source sorted_heapq grid_3x4 two_states weathering
          [0%nat; 1%nat] sap_at_4_and_6 tape_123 with
  | Ok _ =>
      ∃ fn tn fs ts,
        getitem (activelink_fromnode grid_3x4) 4 = Ok fn
        ∧ getitem (activelink_tonode grid_3x4) 4 = Ok tn
        ∧ getitem sap_at_4_and_6 fn = Ok fs ∧ getitem sap_at_4_and_6 tn = Ok ts
        ∧ 0 <= fs < Z.of_nat (size two_states) ∧ 0 <= ts < Z.of_nat (size two_states)
  | Raise _ => False
  end.
Proof.
  destruct (@__init__ tape_source sorted_heapq grid_3x4 two_states weathering
              [0%nat; 1%nat] sap_at_4_and_6 tape_123) as [[[self σ'] g']|e] eqn:H.
  - apply (init_checks_states_on_links _ _ _ _ _ _ _ _ _ H 4). simpl. lia.
  - vm_compute in H. discriminate H.
Defined.

Lemma init_accepts_its_own_rules_witness :
  match @__init__ tape_source sorted_heapq grid_3x4 two_states weathering_tuples
          [0%nat; 1%nat] sap_at_4_and_6 tape_123 with
  | Ok (self, σ', g') =>
      @__init__ tape_source sorted_heapq grid_3x4 two_states σ'
          [0%nat; 1%nat] sap_at_4_and_6 tape_123 = Ok (self, σ', g')
  | Raise _ => False
  end.
Proof.
  destruct (@__init__ tape_source sorted_heapq grid_3x4 two_states weathering_tuples
              [0%nat; 1%nat] sap_at_4_and_6 tape_123) as [[[self σ'] g']|e] eqn:H.
  - exact (init_accepts_its_own_rules _ _ _ _ _ _ _ _ _ H).
  - vm_compute in H. discriminate H.
Defined.

(** ** The event drawn for a link *)

Lemma Qlt_bool_true (a b : Q) : Qlt_bool a b = true → (a < b)%Q.
Proof.
  unfold Qlt_bool. intros H. apply negb_true_iff in H.
  apply Qnot_le_lt. intros Hle. apply Qle_bool_iff in Hle. congruence.
Qed.

(** The event that [get_next_event] returns names the link it was given,
    and its time is the current time after a waiting time [w]. With a
    single transition out of the state, [w] is the one waiting time drawn
    and the event has the target of that transition. With several, [w] is
    not above [_NEVER], and the event has no target ([xn_to] is [None])
    exactly when [w] is [_NEVER]. *)
Theorem event_without_target_is_due_never
    {RS : RandomSource} self l c t g ev g' n :
  get_next_event self l c t g = Ok (ev, g') →
  getitem (n_xn self) c = Ok n →
  Event.link ev = l ∧
  ∃ w, Event.time ev = (w + t)%Q ∧
    (n = 1 → ∃ x r, getitem2 (xn_to self) c 0 = Ok x ∧ Event.xn_to ev = Some x
               ∧ getitem2 (xn_rate self) c 0 = Ok r
               ∧ random_exponential r g = Ok (w, g')) ∧
    (n ≠ 1 → (w <= _NEVER)%Q ∧ (Event.xn_to ev = None ↔ (w == _NEVER)%Q)).
Proof.
  intros H Hn. unfold get_next_event in H. rewrite Hn in H. simpl in H.
  apply bind_Ok in H as (u & _ & H).
  apply bind_Ok in H as ([[nt xn] g1] & Hd & H). simpl in H. injection H as <- <-.
  simpl. split; [done|]. exists nt. split; [done|]. split.
  - intros ->. simpl in Hd. apply bind_Ok in Hd as (x & Hx & Hd).
    apply bind_Ok in Hd as (r & Hr & Hd). apply bind_Ok in Hd as ([w g2] & Hw & Hd).
    simpl in Hd. injection Hd as <- <- <-. exists x, r. done.
  - intros Hne. apply Z.eqb_neq in Hne. rewrite Hne in Hd.
    apply (for_in_inv (λ '(nt, xn, _), (nt <= _NEVER)%Q
      ∧ (xn = None → nt = _NEVER) ∧ (xn ≠ None → (nt < _NEVER)%Q))) in Hd.
    + destruct Hd as (Hle & Hnone & Hsome). split; [done|]. split.
      * intros Hx. rewrite (Hnone Hx). reflexivity.
      * intros Heq. destruct xn as [x|]; [|done].
        assert (nt < _NEVER)%Q by (by apply Hsome). lra.
    + intros i [[nt1 xn1] g2] [[nt2 xn2] g3] _ (Hle & Hnone & Hsome) Hb.
      apply bind_Ok in Hb as (r & _ & Hb). apply bind_Ok in Hb as ([w g4] & _ & Hb).
      simpl in Hb. destruct (Qlt_bool w nt1) eqn:Elt.
      * apply bind_Ok in Hb as (x & _ & Hb). injection Hb as <- <- _.
        apply Qlt_bool_true in Elt. split; [lra|]. split; [done|]. intros _. lra.
      * injection Hb as <- <- _. done.
    + split; [lra|]. split; [done|]. done.
Qed.

(** ** The loop of [run] *)

(** When the loop of [run] is left, the clock is not below the duration
    or the queue is empty; and every event popped before the last one has
    a time below the duration: the clock passes the duration by at most
    one event. *)
Theorem run_passes_duration_by_one_event
    {RS : RandomSource} {HQ : HeapQ} fuel self d g tr self' g' :
  run_loop_trace fuel self d g = Ok (tr, self', g') →
  run_guard self' d = false
  ∧ (tr = [] → self' = self ∧ g' = g)
  ∧ ∀ i e, tr !! i = Some e → is_Some (tr !! S i) → (Event.time e.1 < d)%Q.
Proof.
  revert self g tr. induction fuel as [|fuel IH]; intros self g tr H; simpl in H.
  - destruct (run_guard self d) eqn:Eg; [done|]. injection H as <- <- <-.
    split; [done|]. split; [done|]. intros i e Hi. by rewrite lookup_nil in Hi.
  - destruct (run_guard self d) eqn:Eg; cycle 1.
    { injection H as <- <- <-.
      split; [done|]. split; [done|]. intros i e Hi. by rewrite lookup_nil in Hi. }
    apply bind_Ok in H as ([[ev s1] g1] & Hstep & H). simpl in H.
    apply bind_Ok in H as ([[tr1 s2] g2] & Hrest & H). injection H as <- <- <-.
    destruct (IH _ _ _ Hrest) as (Hg & Hnil & Hlt).
    split; [done|]. split; [done|].
    intros [|i] e Hi Hnext; simpl in *; [|by eapply Hlt].
    injection Hi as <-. simpl.
    destruct tr1 as [|e1 tr1]; [by destruct Hnext|].
    destruct fuel as [|fuel]; simpl in Hrest.
    + destruct (run_guard s1 d); done.
    + destruct (run_guard s1 d) eqn:Eg1; [|done].
      apply run_step_frame in Hstep as [_ Ht]. unfold run_guard in Eg1.
      apply andb_true_iff in Eg1 as [Eg1 _]. rewrite Ht in Eg1.
      by apply Qlt_bool_true.
Qed.

(** ** Locality of a transition *)

Lemma update_node_states_local self fn tn x self' b1 b2 k :
  update_node_states self fn tn x = Ok (self', b1, b2) →
  norm_index (length (node_state self)) fn ≠ Some k →
  norm_index (length (node_state self)) tn ≠ Some k →
  node_state self' !! k = node_state self !! k.
Proof.
  intros H Hfn Htn. unfold update_node_states in H.
  apply bind_Ok in H as (old_f & _ & H). apply bind_Ok in H as (old_t & _ & H).
  apply bind_Ok in H as (st1 & _ & H). apply bind_Ok in H as (s1 & Hs1 & H).
  apply bind_Ok in H as (st2 & _ & H). apply bind_Ok in H as (s2 & Hs2 & H).
  apply bind_Ok in H as (new_f & _ & H). apply bind_Ok in H as (new_t & _ & H).
  injection H as -> _ _.
  assert (length (node_state s1) = length (node_state self)
          ∧ node_state s1 !! k = node_state self !! k) as [Hl1 Hk1].
  { destruct (st1 =? CORE_NODE).
    - apply bind_Ok in Hs1 as (i & _ & Hs1). apply bind_Ok in Hs1 as (p & _ & Hs1).
      apply bind_Ok in Hs1 as (ns & Hset & Hs1). injection Hs1 as <-. simpl.
      apply setitem_Ok in Hset as (j & Hj & ->). rewrite length_insert. split; [done|].
      apply list_lookup_insert_ne. congruence.
    - by injection Hs1 as <-. }
  rewrite <- Hk1. destruct (st2 =? CORE_NODE).
  - apply bind_Ok in Hs2 as (i & _ & Hs2). apply bind_Ok in Hs2 as (p & _ & Hs2).
    apply bind_Ok in Hs2 as (ns & Hset & Hs2). injection Hs2 as <-. simpl.
    apply setitem_Ok in Hset as (j & Hj & ->). rewrite Hl1 in Hj.
    apply list_lookup_insert_ne. congruence.
  - by injection Hs2 as <-.
Qed.

Section Local.
Context {RS : RandomSource} {HQ : HeapQ}.

Lemma update_link_state_local self l x t g self' g' :
  length (link_state self) = length (next_update self) →
  update_link_state self l x t g = Ok (self', g') →
  ∀ p, norm_index (length (link_state self)) l ≠ Some p →
    link_state self' !! p = link_state self !! p
    ∧ next_update self' !! p = next_update self !! p.
Proof.
  intros Hlen H p Hp. unfold update_link_state in H.
  apply bind_Ok in H as (fn & _ & H). apply bind_Ok in H as (tn & _ & H).
  apply bind_Ok in H as (b & _ & H). apply bind_Ok in H as (nls & _ & H).
  apply bind_Ok in H as (new & _ & H). apply bind_Ok in H as (ls' & Hls & H).
  apply bind_Ok in H as (n & _ & H).
  apply setitem_Ok in Hls as (k & Hk & ->).
  assert (Hne : k ≠ p) by congruence.
  destruct (0 <? n).
  - apply bind_Ok in H as ([ev g1] & _ & H). apply bind_Ok in H as (nu & Hnu & H).
    injection H as <- <-. simpl in *.
    apply setitem_Ok in Hnu as (k2 & Hk2 & ->). rewrite <- Hlen, Hk in Hk2.
    injection Hk2 as <-. rewrite !list_lookup_insert_ne by done. done.
  - apply bind_Ok in H as (nu & Hnu & H). injection H as <- <-. simpl in *.
    apply setitem_Ok in Hnu as (k2 & Hk2 & ->). rewrite <- Hlen, Hk in Hk2.
    injection Hk2 as <-. rewrite !list_lookup_insert_ne by done. done.
Qed.

Lemma update_links_of_node_local self ev n g self' g' links p :
  length (link_state self) = length (next_update self) →
  update_links_of_node self ev n g = Ok (self', g') →
  column (node_active_links self) n = Ok links →
  (∀ lnk, lnk ∈ links → lnk ≠ -1 → lnk ≠ Event.link ev →
     norm_index (length (link_state self)) lnk ≠ Some p) →
  link_state self' !! p = link_state self !! p
  ∧ next_update self' !! p = next_update self !! p.
Proof.
  intros Hlen H Hcol Hp. unfold update_links_of_node in H. rewrite Hcol in H.
  simpl in H.
  apply (for_in_inv (λ '(s, _),
    length (link_state s) = length (link_state self)
    ∧ length (next_update s) = length (next_update self)
    ∧ link_state s !! p = link_state self !! p
    ∧ next_update s !! p = next_update self !! p)) in H; [tauto| |done].
  intros lnk [s1 g1] [s2 g2] Hin (Hl1 & Hu1 & Hls1 & Hnu1) Hb.
  destruct (negb (lnk =? -1) && negb (lnk =? Event.link ev)) eqn:Etest;
    inv_res; [|done].
  apply andb_true_iff in Etest as [E1 E2].
  apply negb_true_iff, Z.eqb_neq in E1. apply negb_true_iff, Z.eqb_neq in E2.
  pose proof (update_link_state_shape _ _ _ _ _ _ _ Hb) as [Hl2 Hu2].
  apply update_link_state_local with (p := p) in Hb as [? ?]; [|congruence|].
  - repeat split; congruence.
  - rewrite Hl1. by apply Hp.
Qed.

End Local.

(** A transition is local. When [do_transition] returns, the only node
    states that may differ are those of the two nodes of the link of the
    event, and the only entries of [link_state] and [next_update] that may
    differ are those of that link and of the links listed at these two
    nodes in [node_active_links] (the entries -1 are no links). *)
Theorem transition_is_local
    {RS : RandomSource} {HQ : HeapQ} self ev t g self' g' fn tn :
  length (link_state self) = length (next_update self) →
  do_transition self ev t g = Ok (self', g') →
  getitem (activelink_fromnode (grid self)) (Event.link ev) = Ok fn →
  getitem (activelink_tonode (grid self)) (Event.link ev) = Ok tn →
  (∀ k, norm_index (length (node_state self)) fn ≠ Some k →
        norm_index (length (node_state self)) tn ≠ Some k →
        node_state self' !! k = node_state self !! k) ∧
  (∀ p, norm_index (length (link_state self)) (Event.link ev) ≠ Some p →
        (∀ n links lnk, n = fn ∨ n = tn →
           column (node_active_links self) n = Ok links → lnk ∈ links → lnk ≠ -1 →
           norm_index (length (link_state self)) lnk ≠ Some p) →
        link_state self' !! p = link_state self !! p
        ∧ next_update self' !! p = next_update self !! p).
Proof.
  intros Hlen H Hfn Htn.
  apply do_transition_Ok in H as (nu & _ & [(_ & -> & _)|(_ & H)]); [done|].
  destruct H as (fn' & tn' & s1 & fc & tc & s2 & g2 & s3 & g3 & Hfn' & Htn'
                 & H1 & H2 & H3 & H4).
  rewrite Hfn in Hfn'. rewrite Htn in Htn'. injection Hfn' as <-. injection Htn' as <-.
  pose proof (update_node_states_frame _ _ _ _ _ _ _ H1) as (Hc1 & _ & Hl1 & Hu1 & _).
  pose proof (update_link_state_shape _ _ _ _ _ _ _ H2) as [Hll2 Hlu2].
  pose proof (update_link_state_frame _ _ _ _ _ _ _ H2) as (Hc2 & Hn2 & _).
  assert (Hnal2 : node_active_links s2 = node_active_links self).
  { unfold config_of in Hc1, Hc2. congruence. }
  assert (Hlen2 : length (link_state s2) = length (next_update s2)) by congruence.
  assert (Hlens2 : length (link_state s2) = length (link_state self)) by congruence.
  assert (config_of s3 = config_of s2 ∧ node_state s3 = node_state s2
          ∧ length (link_state s3) = length (link_state s2)
          ∧ length (next_update s3) = length (next_update s2))
    as (Hc3 & Hn3 & Hll3 & Hlu3).
  { destruct fc; inv_res; [|done].
    pose proof (update_links_of_node_shape _ _ _ _ _ _ H3) as [? ?].
    apply update_links_of_node_frame in H3 as (? & ? & _). done. }
  assert (Hnal3 : node_active_links s3 = node_active_links self).
  { unfold config_of in Hc3. congruence. }
  split.
  - intros k Hkf Hkt.
    assert (node_state self' = node_state s3) as ->.
    { destruct tc; inv_res; [|done].
      by apply update_links_of_node_frame in H4 as (_ & ? & _). }
    rewrite Hn3, Hn2. by eapply update_node_states_local.
  - intros p Hp Hcols.
    apply update_link_state_local with (p := p) in H2 as [Hls2 Hnu2];
      [|congruence|by rewrite Hl1].
    assert (link_state s3 !! p = link_state s2 !! p
            ∧ next_update s3 !! p = next_update s2 !! p) as [Hls3 Hnu3].
    { destruct fc; inv_res; [|done].
      pose proof H3 as H3'. unfold update_links_of_node in H3'.
      apply bind_Ok in H3' as (links & Hcol & _).
      eapply update_links_of_node_local; [done|exact H3|exact Hcol|].
      intros lnk Hin Hm1 _. rewrite Hlens2. eapply (Hcols fn); [by left| |done..].
      by rewrite <- Hnal2. }
    assert (link_state self' !! p = link_state s3 !! p
            ∧ next_update self' !! p = next_update s3 !! p) as [Hls4 Hnu4].
    { destruct tc; inv_res; [|done].
      pose proof H4 as H4'. unfold update_links_of_node in H4'.
      apply bind_Ok in H4' as (links & Hcol & _).
      eapply update_links_of_node_local; [congruence|exact H4|exact Hcol|].
      intros lnk Hin Hm1 _. rewrite Hll3, Hlens2. eapply (Hcols tn); [by right| |done..].
      by rewrite <- Hnal3. }
    split; congruence.
Qed.

(** ** Runs in several calls *)

Section Compose.
Context {RS : RandomSource} {HQ : HeapQ}.

(** More fuel does not change what the loop returns. *)
Lemma run_loop_more_fuel fuel k self d g r :
  run_loop fuel self d g = Ok r → run_loop (fuel + k) self d g = Ok r.
Proof.
  revert self g. induction fuel as [|fuel IH]; intros self g H; simpl in H.
  - destruct (run_guard self d) eqn:Eg; [done|].
    destruct k; simpl; rewrite Eg; done.
  - simpl. destruct (run_guard self d); [|done].
    destruct (run_step self g) as [[[ev s1] g1]|e]; simpl in *; [|done].
    by apply IH.
Qed.

Lemma run_guard_later self d1 d2 :
  (d1 <= d2)%Q → run_guard self d1 = true → run_guard self d2 = true.
Proof.
  unfold run_guard, Qlt_bool. intros Hle H.
  apply andb_true_iff in H as [H1 H2]. apply andb_true_iff. split; [|done].
  apply negb_true_iff in H1. apply negb_true_iff.
  destruct (Qle_bool d2 (current_time self)) eqn:E; [|done].
  apply Qle_bool_iff in E.
  assert (Hle1 : (d1 <= current_time self)%Q) by lra.
  apply Qle_bool_iff in Hle1. congruence.
Qed.

Lemma run_loop_compose f1 f2 self d1 d2 g s1 g1 r :
  (d1 <= d2)%Q →
  run_loop f1 self d1 g = Ok (s1, g1) →
  run_loop f2 s1 d2 g1 = Ok r →
  run_loop (f1 + f2) self d2 g = Ok r.
Proof.
  intros Hle. revert self g. induction f1 as [|f1 IH]; intros self g H1 H2; simpl in H1.
  - destruct (run_guard self d1); [done|]. injection H1 as <- <-. exact H2.
  - destruct (run_guard self d1) eqn:Eg; cycle 1.
    { injection H1 as <- <-. rewrite Nat.add_comm. by apply run_loop_more_fuel. }
    simpl. rewrite (run_guard_later _ _ _ Hle Eg).
    destruct (run_step self g) as [[[ev s0] g0]|e]; simpl in *; [|done].
    by apply IH.
Qed.

End Compose.

(** A run made in two calls is the run made in one: when [run] has
    returned for a duration, and [run] called again, with no grid of node
    states, returns for a later duration, then a single call of [run] for
    the later duration returns the same engine and leaves the generator
    in the same state. *)
Theorem run_in_two_calls_is_one_run
    {RS : RandomSource} {HQ : HeapQ} f1 f2 self d1 d2 nsg g s1 g1 s2 g2 :
  (d1 <= d2)%Q →
  run f1 self d1 nsg g = Ok (s1, g1) →
  run f2 s1 d2 None g1 = Ok (s2, g2) →
  run (f1 + f2) self d2 nsg g = Ok (s2, g2).
Proof.
  unfold run. intros Hle H1 H2. simpl in H2.
  destruct (match nsg with Some ns => set_node_state_grid self ns | None => Ok self end)
    as [s0|e]; simpl in *; [|done].
  by eapply run_loop_compose.
Qed.

(** ** The rules the constructor accepts *)

(** When the rules are given as tuples, the constructor returns only if
    the two tuples of every rule are triples of the codec: two of the [N]
    node states and an orientation 0 or 1. (The assertions test the
    entries from above only; the lookup in the dictionary refuses the
    others.) *)
Theorem init_accepts_only_triples_of_the_codec
    {RS : RandomSource} {HQ : HeapQ} model_grid nsd (σ : store) tl ins g self
    (σ' : store) g' :
  __init__ model_grid nsd σ tl ins g = Ok (self, σ', g') →
  (∃ r0 t0, tl !! 0%nat = Some r0 ∧ σ !! r0 = Some t0 ∧ is_tuple (from_state t0) = true) →
  ∀ r, r ∈ tl →
    ∃ t p q, σ !! r = Some t
      ∧ from_state t = PTuple [p.1.1; p.1.2; p.2] ∧ in_domain (Z.of_nat (size nsd)) p
      ∧ to_state t = PTuple [q.1.1; q.1.2; q.2] ∧ in_domain (Z.of_nat (size nsd)) q.
Proof.
  intros H Hfirst r Hr.
  apply init_Ok in H as (d & cp & k & tl' & s1 & s2 & _ & _ & Hc & Hconv & _).
  set (N := Z.of_nat (size nsd)) in *.
  pose proof (create_codec_upto N ltac:(lia)) as Hup.
  rewrite Hc in Hup. destruct Hup as (_ & _ & _ & _ & Hd).
  apply convert_transition_list_tuples in Hconv as (_ & Hin & _); [|exact Hfirst].
  destruct (Hin r Hr) as (t & p & q & kp & kq & Ht & Hf & Hp & Hto & Hq & _).
  destruct (Hd _ _ Hp) as [Hkp ->]. destruct (Hd _ _ Hq) as [Hkq ->].
  assert (0 < N) by nia.
  exists t, (decode N kp), (decode N kq).
  repeat (split; [done|]). split; [by apply decode_in_domain|].
  split; [done|]. by apply decode_in_domain.
Qed.

Lemma for_in_body_inv {T A} (P : T → Prop) (l : list A) (body : A → T → res T)
    (s s' : T) x :
  (∀ y s s', y ∈ l → P s → body y s = Ok s' → P s') →
  P s → for_in l body s = Ok s' → x ∈ l →
  ∃ s1 s2, P s1 ∧ body x s1 = Ok s2.
Proof.
  revert s. induction l as [|y l IH]; intros s Hstep HP H Hx;
    [by apply elem_of_nil in Hx|].
  simpl in H. apply bind_Ok in H as (s1 & Hs1 & H).
  apply elem_of_cons in Hx as [->|Hx]; [eauto|].
  apply (IH s1); [|eapply Hstep; [by left|done..]|done..].
  intros z s2 s3 Hz. apply Hstep. by right.
Qed.

Lemma norm_index_range (n : nat) (i : Z) (k : nat) :
  norm_index n i = Some k → - Z.of_nat n <= i < Z.of_nat n.
Proof.
  unfold norm_index.
  destruct (0 <=? i) eqn:E1; destruct (i <? Z.of_nat n) eqn:E2; simpl;
    try (intros _; lia);
    destruct (- Z.of_nat n <=? i) eqn:E3; destruct (i <? 0) eqn:E4; simpl;
    try done; intros _; lia.
Qed.

(** When the rules are given as ids, the constructor returns only if
    every rule is a pair of ids, the from-state is an index of the tables,
    negative indices included, and the to-state is below the number of
    link states and fits the 64-bit integers of the table [xn_to]. *)
Theorem init_accepts_ids_that_index_the_tables
    {RS : RandomSource} {HQ : HeapQ} model_grid nsd (σ : store) tl ins g self
    (σ' : store) g' :
  __init__ model_grid nsd σ tl ins g = Ok (self, σ', g') →
  (∃ r0 t0, tl !! 0%nat = Some r0 ∧ σ !! r0 = Some t0 ∧ is_tuple (from_state t0) = false) →
  ∀ r, r ∈ tl →
    ∃ t a b, σ !! r = Some t ∧ from_state t = PInt a ∧ to_state t = PInt b
      ∧ - num_link_states self <= a < num_link_states self
      ∧ - 2 ^ 63 <= b < num_link_states self.
Proof.
  intros H (r0 & t0 & Hr0 & Ht0 & Hint) r Hr.
  pose proof (init_codec _ _ _ _ _ _ _ _ _ H) as (_ & HL & _).
  apply init_Ok in H as (d & cp & k & tl' & s1 & s2 & _ & Hcheck & Hc & Hconv
                         & Hassign & Hsetup & _).
  set (N := Z.of_nat (size nsd)) in *. rewrite HL.
  assert (σ' = σ ∧ tl' = tl) as [-> ->].
  { unfold convert_transition_list in Hconv.
    apply bind_Ok in Hconv as (r1 & Hr1 & Hconv). apply bind_Ok in Hconv as (t1 & Ht1 & Hconv).
    apply getitem_Ok_nonneg in Hr1 as [Hr1 _]; [|lia].
    change (Z.to_nat 0) with 0%nat in Hr1. apply deref_Ok in Ht1. simplify_eq.
    cbv beta in Hconv. rewrite Hint in Hconv. injection Hconv as <- <-. done. }
  unfold check_transition_list in Hcheck.
  apply bind_Ok in Hcheck as (? & _ & Hcheck). apply bind_Ok in Hcheck as (res & Hloop & _).
  pose proof (check_loop_one_type _ _ _ _ _ _ Hloop) as [_ Hall].
  assert (Hty : res = Some TInt).
  { destruct (Hall r0) as (t & ty & Ht & -> & Hi & _); [apply list_elem_of_lookup; eauto|].
    rewrite Ht0 in Ht. injection Ht as <-. by rewrite (Hi Hint). }
  destruct (Hall r Hr) as (t & ty & Ht & Hres & _ & Htup).
  rewrite Hty in Hres. injection Hres as <-.
  destruct (for_in_body_Ok _ _ _ _ r Hloop Hr) as (l1 & l2 & Hb).
  unfold deref in Hb. rewrite Ht in Hb. simpl in Hb.
  assert (is_tuple (from_state t) = false) as Hf.
  { destruct (is_tuple (from_state t)); [|done]. by specialize (Htup eq_refl). }
  destruct (from_state t) as [a|] eqn:Ea; [|done].
  assert (∃ b, to_state t = PInt b) as [b Eb].
  { unfold check_transition, check_as_int, check_as_tuple in Hb. rewrite Ea in Hb.
    simpl in Hb. destruct (to_state t) as [b|]; [eauto|].
    destruct (a <? 2 * N * N); simpl in Hb; done. }
  apply (check_transition_ids _ _ _ _ a b) in Hb as [Ha Hb]; [|done..].
  exists t, a, b. repeat (split; [done|]).
  unfold setup_transition_data in Hsetup.
  apply bind_Ok in Hsetup as (n1 & Hfirst & Hsetup).
  apply bind_Ok in Hsetup as (mx & _ & Hsetup).
  apply bind_Ok in Hsetup as (tables & Hsecond & _).
  assert (Hlow : - 2 ^ 63 <= b).
  { destruct (for_in_body_Ok _ _ _ _ r Hsecond Hr) as ([[m1 m2] m3] & m' & Hbody).
    unfold deref in Hbody. rewrite Ht in Hbody. simpl in Hbody.
    rewrite Ea, Eb in Hbody. simpl in Hbody.
    apply bind_Ok in Hbody as (slot & _ & Hbody).
    apply bind_Ok in Hbody as (bv & Hbv & _).
    apply (as_int_Ok (PInt b)) in Hbv as [[= <-] Hbv]. lia. }
  split; [|lia]. split; [|done].
  pose proof (assign_link_states_from_node_types_frame _ _ Hassign) as Hs1.
  assert (HNL : num_link_states s1 = 2 * N * N) by (rewrite Hs1; reflexivity).
  apply (for_in_body_inv (λ n : list Z, length n = Z.to_nat (2 * N * N)) _ _ _ _ r)
    in Hfirst as (m1 & m2 & Hm1 & Hbody); cycle 1.
  { intros y m m' _ Hm Hy. inv_res. apply setitem_length in Hy. congruence. }
  { unfold zeros. rewrite length_replicate, HNL. done. }
  { done. }
  unfold deref in Hbody. rewrite Ht in Hbody. simpl in Hbody. rewrite Ea in Hbody.
  simpl in Hbody. apply bind_Ok in Hbody as (c & Hget & _).
  apply getitem_Ok in Hget as (j & Hj & _). apply norm_index_range in Hj.
  rewrite Hm1 in Hj. lia.
Qed.

(** ** The effect of an applied event *)

Section Effect.
Context {RS : RandomSource} {HQ : HeapQ}.

(** Between two core nodes [update_link_state] stores the state it is
    given. *)
Lemma update_link_state_core self l k t g self' g' fn tn :
  getitem (activelink_fromnode (grid self)) l = Ok fn →
  getitem (activelink_tonode (grid self)) l = Ok tn →
  getitem (node_status (grid self)) fn = Ok CORE_NODE →
  getitem (node_status (grid self)) tn = Ok CORE_NODE →
  update_link_state self l (Some k) t g = Ok (self', g') →
  getitem (link_state self') l = Ok k.
Proof.
  intros Hfn Htn Hsf Hst H. unfold update_link_state in H.
  rewrite Hfn, Htn in H. simpl in H. unfold connects_to_boundary in H.
  rewrite Hsf, Hst in H. simpl in H.
  apply bind_Ok in H as (ls & Hls & H). apply bind_Ok in H as (n & _ & H).
  apply getitem_setitem in Hls.
  destruct (0 <? n); inv_res; simpl; done.
Qed.

End Effect.

(** What an applied event does between two core nodes. On a well-formed
    grid, when [do_transition] is given an event that is not stale, on a
    link whose two nodes are core nodes, and returns, then the event has a
    target link state [k], the two nodes have the node states of the
    triple [cell_pair[k]], and the state of the link is [k]. *)
Theorem applied_event_takes_effect
    {RS : RandomSource} {HQ : HeapQ} self ev t g self' g' fn tn :
  grid_ok (grid self) = true →
  node_active_links self = active_node_links (grid self) →
  length (link_state self) = Z.to_nat (number_of_active_links (grid self)) →
  length (next_update self) = Z.to_nat (number_of_active_links (grid self)) →
  0 <= Event.link ev < number_of_active_links (grid self) →
  getitem (activelink_fromnode (grid self)) (Event.link ev) = Ok fn →
  getitem (activelink_tonode (grid self)) (Event.link ev) = Ok tn →
  getitem (node_status (grid self)) fn = Ok CORE_NODE →
  getitem (node_status (grid self)) tn = Ok CORE_NODE →
  is_current self ev = true →
  do_transition self ev t g = Ok (self', g') →
  ∃ k p, Event.xn_to ev = Some k ∧ getitem (cell_pair self) k = Ok p
    ∧ getitem (node_state self') fn = Ok p.1.1
    ∧ getitem (node_state self') tn = Ok p.1.2
    ∧ getitem (link_state self') (Event.link ev) = Ok k.
Proof.
  intros Hgrid Hnal Hll Hlu Hl Hfn Htn Hsf Hst Hcur H.
  destruct (grid_ok_link _ _ Hgrid Hl) as (fn0 & tn0 & Hfn0 & Htn0 & Hfr & Htr & Hne & _).
  rewrite Hfn in Hfn0. rewrite Htn in Htn0. injection Hfn0 as <-. injection Htn0 as <-.
  apply do_transition_Ok in H as (nu & Hnu & [(Hstale & _)|(_ & H)]).
  { unfold is_current in Hcur. rewrite Hnu in Hcur. congruence. }
  destruct H as (fn' & tn' & s1 & fc & tc & s2 & g2 & s3 & g3 & Hfn' & Htn'
                 & H1 & H2 & H3 & H4).
  rewrite Hfn in Hfn'. rewrite Htn in Htn'. injection Hfn' as <-. injection Htn' as <-.
  pose proof (update_node_states_frame _ _ _ _ _ _ _ H1) as (Hc1 & _ & Hl1 & Hu1 & _).
  apply update_node_states_spec in H1 as [_ H1]; [|lia|lia|done].
  destruct (H1 Hsf Hst) as (k & p & Hk & Hp & Hnf & Hnt). clear H1.
  assert (Hg1 : grid s1 = grid self) by (unfold config_of in Hc1; congruence).
  pose proof (update_link_state_shape _ _ _ _ _ _ _ H2) as [Hll2 Hlu2].
  pose proof (update_link_state_frame _ _ _ _ _ _ _ H2) as (Hc2 & Hn2 & _).
  rewrite Hk in H2.
  apply (update_link_state_core s1 _ k _ _ _ _ fn tn) in H2; [|by rewrite Hg1..].
  assert (Hcfg2 : grid s2 = grid self ∧ node_active_links s2 = node_active_links self).
  { unfold config_of in Hc1, Hc2. split; congruence. }
  destruct Hcfg2 as [Hg2 Hnal2].
  assert (Hlen2 : length (link_state s2) = length (next_update s2)) by congruence.
  set (pl := Z.to_nat (Event.link ev)).
  assert (Hkeep : ∀ s n links, length (link_state s) = length (link_state self) →
            node_active_links s = node_active_links self →
            column (node_active_links s) n = Ok links →
            ∀ lnk, lnk ∈ links → lnk ≠ -1 → lnk ≠ Event.link ev →
              norm_index (length (link_state s)) lnk ≠ Some pl).
  { intros s n links Hls Hns Hcol lnk Hin Hm1 Hev.
    rewrite Hns, Hnal in Hcol.
    destruct (grid_ok_column _ _ _ Hgrid Hcol lnk Hin) as [?|Hr]; [done|].
    rewrite norm_index_in_range by lia. unfold pl. intros [= Heq]. lia. }
  assert (Hlk2 : link_state s2 !! pl = Some k).
  { apply getitem_Ok_nonneg in H2 as [H2 _]; [done|lia]. }
  assert (config_of s3 = config_of s2 ∧ node_state s3 = node_state s2
          ∧ length (link_state s3) = length (link_state s2)
          ∧ length (next_update s3) = length (next_update s2)
          ∧ link_state s3 !! pl = Some k) as (Hc3 & Hn3 & Hll3 & Hlu3 & Hlk3).
  { destruct fc; inv_res; [|done].
    pose proof (update_links_of_node_shape _ _ _ _ _ _ H3) as [? ?].
    pose proof (update_links_of_node_frame _ _ _ _ _ _ H3) as (? & ? & _).
    repeat (split; [done|]).
    pose proof H3 as H3'. unfold update_links_of_node in H3'.
    apply bind_Ok in H3' as (links & Hcol & _).
    destruct (update_links_of_node_local _ _ _ _ _ _ links pl Hlen2 H3 Hcol) as [-> _];
      [|done].
    eapply Hkeep; [congruence|done|done]. }
  assert (node_state self' = node_state s3 ∧ link_state self' !! pl = Some k)
    as [Hn4 Hlk4].
  { destruct tc; inv_res; [|done].
    pose proof (update_links_of_node_frame _ _ _ _ _ _ H4) as (_ & ? & _).
    split; [done|].
    pose proof H4 as H4'. unfold update_links_of_node in H4'.
    apply bind_Ok in H4' as (links & Hcol & _).
    assert (Hlen3 : length (link_state s3) = length (next_update s3)) by congruence.
    destruct (update_links_of_node_local _ _ _ _ _ _ links pl Hlen3 H4 Hcol)
      as [-> _]; [|done].
    eapply Hkeep; [congruence| |done].
    unfold config_of in Hc3. congruence. }
  exists k, p. rewrite Hn4, Hn3, Hn2. repeat (split; [done|]).
  apply getitem_Some; [lia|done].
Qed.

(** ** The queue after construction *)

Lemma filter_seqZ_snoc (P : Z → bool) (n : Z) :
  0 <= n →
  filter (λ x, P x = true) (seqZ 0 (n + 1))
  = filter (λ x, P x = true) (seqZ 0 n) ++ (if P n then [n] else []).
Proof.
  intros Hn. rewrite seqZ_app by lia. rewrite filter_app. f_equal.
  assert (seqZ (0 + n) 1 = [n]) as -> by (unfold seqZ; simpl; f_equal; lia).
  rewrite filter_cons, filter_nil. destruct (P n) eqn:E.
  - rewrite decide_True by done. done.
  - rewrite decide_False by congruence. done.
Qed.

Section InitialQueue.
Context {RS : RandomSource} {HQ : HeapQ} (is_heap : list Event.t → Prop).
Hypothesis heapq_ok : HeapQ_ok HQ is_heap.

Lemma push_transitions_to_event_queue_links self g self' g' :
  0 <= number_of_active_links (grid self) →
  event_queue self = [] →
  push_transitions_to_event_queue self g = Ok (self', g') →
  Permutation (Event.link <$> event_queue self')
    (filter (λ l, has_transition self' l = true)
       (range (number_of_active_links (grid self')))).
Proof.
  intros Hnal Hq H.
  pose proof (push_transitions_to_event_queue_frame _ _ _ _ H) as (Hc & _ & Hlink & _).
  assert (Hg : grid self' = grid self ∧ n_xn self' = n_xn self).
  { unfold config_of in Hc. split; congruence. }
  destruct Hg as [Hg Hx]. unfold has_transition. rewrite Hg, Hx, Hlink.
  unfold push_transitions_to_event_queue in H.
  set (live := λ l, match getitem (link_state self) l with
                    | Ok ls => match getitem (n_xn self) ls with
                               | Ok n => 0 <? n
                               | Raise _ => false
                               end
                    | Raise _ => false
                    end).
  set (P := λ (i : Z) (st : LinkCellularAutomaton * rng),
    link_state st.1 = link_state self ∧ n_xn st.1 = n_xn self
    ∧ is_heap (event_queue st.1)
    ∧ Permutation (Event.link <$> event_queue st.1)
        (filter (λ l, live l = true) (seqZ 0 i))).
  assert (HP : P (0 + number_of_active_links (grid self)) (self', g')).
  { revert H. unfold range. apply for_in_seqZ_inv; [done| |].
    - unfold P. simpl. rewrite Hq. repeat (split; [done|]).
      split; [apply (heap_nil _ _ heapq_ok)|done].
    - intros i [s1 g1] [s2 g2] Hi (Hl1 & Hx1 & Hh1 & Hp1) Hb. simpl in *.
      apply bind_Ok in Hb as (ls & Hls & Hb). apply bind_Ok in Hb as (n & Hn & Hb).
      unfold P. simpl. rewrite filter_seqZ_snoc by lia.
      assert (Hlive : live i = (0 <? n)).
      { unfold live. rewrite <- Hl1, Hls, <- Hx1, Hn. done. }
      rewrite Hlive. destruct (0 <? n).
      + apply bind_Ok in Hb as ([ev g3] & Hev & Hb). apply bind_Ok in Hb as (nu & _ & Hb).
        injection Hb as <- <-. simpl. apply get_next_event_link in Hev.
        repeat (split; [done|]). split; [by apply (heappush_heap _ _ heapq_ok)|].
        rewrite (heappush_perm _ _ heapq_ok _ ev Hh1). simpl. rewrite Hev, Hp1.
        apply Permutation_cons_append.
      + apply bind_Ok in Hb as (nu & _ & Hb). injection Hb as <- <-. simpl.
        rewrite app_nil_r. done. }
  destruct HP as (_ & _ & _ & HP). exact HP.
Qed.

End InitialQueue.

(** After construction the queue holds one event for each active link
    whose state has a transition, and no other event. *)
Theorem init_queues_one_event_per_link
    {RS : RandomSource} {HQ : HeapQ} (is_heap : list Event.t → Prop)
    model_grid nsd (σ : store) tl ins g self (σ' : store) g' :
  HeapQ_ok HQ is_heap →
  __init__ model_grid nsd σ tl ins g = Ok (self, σ', g') →
  Permutation (Event.link <$> event_queue self)
    (filter (λ l, has_transition self l = true)
       (range (number_of_active_links (grid self)))).
Proof.
  intros Hheap H.
  apply init_Ok in H as (d & cp & k & tl' & s1 & s2 & _ & _ & _ & _
    & Hassign & Hsetup & Hpush).
  apply assign_link_states_from_node_types_frame in Hassign.
  apply setup_transition_data_frame in Hsetup.
  destruct (decide (0 <= number_of_active_links model_grid)) as [Hnal|Hnal].
  - apply (push_transitions_to_event_queue_links is_heap Hheap) in Hpush; [done|..].
    + rewrite Hsetup. simpl. rewrite Hassign. simpl. done.
    + rewrite Hsetup. simpl. rewrite Hassign. simpl. done.
  - pose proof (push_transitions_to_event_queue_frame _ _ _ _ Hpush) as (Hc & _).
    assert (Hg : grid self = model_grid).
    { unfold config_of in Hc. rewrite Hsetup in Hc. simpl in Hc. rewrite Hassign in Hc.
      simpl in Hc. congruence. }
    unfold push_transitions_to_event_queue in Hpush.
    assert (Hg2 : grid s2 = model_grid).
    { rewrite Hsetup. simpl. rewrite Hassign. done. }
    rewrite Hg2 in Hpush. rewrite Hg. unfold range in *.
    rewrite seqZ_nil in Hpush by lia. rewrite seqZ_nil by lia.
    simpl in Hpush. injection Hpush as <- <-.
    rewrite Hsetup. simpl. rewrite Hassign. simpl. done.
Qed.

(** ** An event without a target *)

(** An event without a target cannot be applied at a core node: when
    [do_transition] is given an event that is not stale, whose [xn_to] is
    [None], on a link one of whose nodes is a core node, it raises
    [TypeError] (the index of [cell_pair] is [None]). *)
Theorem event_without_target_raises
    {RS : RandomSource} {HQ : HeapQ} self ev t g fn tn fs ts sf st :
  is_current self ev = true →
  Event.xn_to ev = None →
  getitem (activelink_fromnode (grid self)) (Event.link ev) = Ok fn →
  getitem (activelink_tonode (grid self)) (Event.link ev) = Ok tn →
  getitem (node_state self) fn = Ok fs →
  getitem (node_state self) tn = Ok ts →
  getitem (node_status (grid self)) fn = Ok sf →
  getitem (node_status (grid self)) tn = Ok st →
  sf = CORE_NODE ∨ st = CORE_NODE →
  do_transition self ev t g = Raise TypeError.
Proof.
  intros Hcur Hnone Hfn Htn Hfs Hts Hsf Hst Hcore.
  unfold is_current in Hcur. unfold do_transition.
  destruct (getitem (next_update self) (Event.link ev)) as [nu|]; [|done].
  simpl. rewrite Hcur, Hfn, Htn. simpl.
  unfold update_node_states. rewrite Hfs, Hts, Hsf, Hnone. simpl.
  destruct (sf =? CORE_NODE) eqn:Esf; simpl; [done|].
  rewrite Hst. simpl.
  destruct Hcore as [->| ->]; [done|]. done.
Qed.

Lemma event_without_target_raises_witness :
  @do_transition tape_source sorted_heapq after_first_event (Event.mk 3 6 None) 1 []
  = Raise TypeError.
Proof.
  exact (@event_without_target_raises tape_source sorted_heapq after_first_event
           (Event.mk 3 6 None) 1 [] 6 7 1 0 0 1
           eq_refl eq_refl eq_refl eq_refl eq_refl eq_refl eq_refl eq_refl
           (or_introl eq_refl)).
Defined.

(** ** The further properties at concrete inputs *)

(** [at_start] is the engine that the constructor returns. *)
Lemma at_start_reached :
  ('(self, _, g) ← @__init__ tape_source sorted_heapq grid_3x4 two_states weathering
       [0%nat; 1%nat] sap_at_6 tape_123;
   Ok (self, g)) = Ok (at_start, [(3%N, 1%positive)]).
Proof. vm_compute. reflexivity. Qed.

Lemma init_rejects_wrong_number_of_node_states_witness :
  Z.of_nat (length [0; 1]) ≠ number_of_nodes grid_3x4
  ∧ @__init__ tape_source sorted_heapq grid_3x4 two_states weathering
      [0%nat; 1%nat] [0; 1] tape_123 = Raise AssertionError.
Proof.
  assert (H : Z.of_nat (length [0; 1]) ≠ number_of_nodes grid_3x4) by (simpl; lia).
  split; [exact H|].
  exact (@init_rejects_wrong_number_of_node_states tape_source sorted_heapq grid_3x4
           two_states weathering [0%nat; 1%nat] [0; 1] tape_123 H).
Defined.

Lemma id_rules_checked_from_above_only_witness :
  (∀ r, r ∈ [0%nat] → ∃ t a b, below_zero !! r = Some t
     ∧ from_state t = PInt a ∧ to_state t = PInt b)
  ∧ check_transition_list 8 2 below_zero [0%nat] = Ok tt.
Proof.
  assert (H : ∀ r, r ∈ [0%nat] → ∃ t a b, below_zero !! r = Some t
            ∧ from_state t = PInt a ∧ to_state t = PInt b).
  { intros r Hr. apply list_elem_of_singleton in Hr as ->.
    eexists _, _, _. simpl. split; [reflexivity|]. split; reflexivity. }
  split; [exact H|]. exact (id_rules_checked_from_above_only 8 2 below_zero [0%nat] H).
Defined.

Lemma init_rejects_mixed_forms_witness :
  is_tuple (PInt 1) = false ∧ is_tuple (PTuple [1; 0; 0]) = true
  ∧ is_ok (@__init__ tape_source sorted_heapq grid_3x4 two_states mixed_forms
             [0%nat; 1%nat] sap_at_4_and_6 tape_123) = false.
Proof.
  split; [reflexivity|]. split; [reflexivity|].
  refine (proj2 (@init_rejects_mixed_forms tape_source sorted_heapq grid_3x4 two_states
                   mixed_forms [0%nat; 1%nat] sap_at_4_and_6 tape_123 0%nat 1%nat
                   _ _ _ _ eq_refl eq_refl eq_refl eq_refl)).
  - apply list_elem_of_here.
  - apply list_elem_of_further, list_elem_of_here.
Defined.

Lemma init_keeps_id_rules_witness :
  match @__init__ tape_source sorted_heapq grid_3x4 two_states weathering
          [0%nat; 1%nat] sap_at_4_and_6 tape_123 with
  | Ok (_, σ', _) => σ' = weathering
  | Raise _ => False
  end.
Proof.
  destruct (@__init__ tape_source sorted_heapq grid_3x4 two_states weathering
              [0%nat; 1%nat] sap_at_4_and_6 tape_123) as [[[self σ'] g']|e] eqn:H.
  - exact (init_keeps_id_rules _ _ _ _ _ _ _ _ _ 0%nat _ H eq_refl eq_refl eq_refl).
  - vm_compute in H. discriminate H.
Defined.

Lemma arrays_keep_their_shape_witness :
  match @simulate tape_source sorted_heapq 10 grid_3x4 two_states weathering
          [0%nat; 1%nat] sap_at_4_and_6 [((7 # 2)%Q, None)] tape_123 with
  | Ok (_, self, _, _) => grid self = grid_3x4 ∧ arrays_in_shape self
  | Raise _ => False
  end.
Proof.
  destruct (@simulate tape_source sorted_heapq 10 grid_3x4 two_states weathering
              [0%nat; 1%nat] sap_at_4_and_6 [((7 # 2)%Q, None)] tape_123)
    as [[[[tr self] σ'] g']|e] eqn:H.
  - exact (arrays_keep_their_shape _ _ _ _ _ _ _ _ _ _ _ _ H).
  - vm_compute in H. discriminate H.
Defined.

Lemma every_link_stays_scheduled_witness :
  match @simulate tape_source sorted_heapq 10 grid_3x4 two_states weathering
          [0%nat; 1%nat] sap_at_4_and_6 [((1 # 2)%Q, None)] tape_123 with
  | Ok (_, self, _, _) => scheduled self 5 ∧ scheduled self 6
  | Raise _ => False
  end.
Proof.
  destruct (@simulate tape_source sorted_heapq 10 grid_3x4 two_states weathering
              [0%nat; 1%nat] sap_at_4_and_6 [((1 # 2)%Q, None)] tape_123)
    as [[[[tr self] σ'] g']|e] eqn:H.
  - split; exact (every_link_stays_scheduled sorted_by_time _ _ _ _ _ _ _ _ _ _ _ _
                    sorted_heapq_ok H _).
  - vm_compute in H. discriminate H.
Defined.

Lemma transition_tables_list_the_rules_witness :
  match setup_transition_data weathering [0%nat; 1%nat]
          (init_base grid_3x4 2 sap_at_4_and_6 ∅ []) with
  | Ok self' =>
      getitem (n_xn self') 1 = Ok (Z.of_nat (length (rules_from weathering [0%nat; 1%nat] 1)))
      ∧ ∀ j t, rules_from weathering [0%nat; 1%nat] 1 !! j = Some t →
          ∃ b, to_state t = PInt b
            ∧ getitem2 (xn_to self') 1 (Z.of_nat j) = Ok b
            ∧ getitem2 (xn_rate self') 1 (Z.of_nat j) = Ok (rate t)
  | Raise _ => False
  end.
Proof.
  destruct (setup_transition_data weathering [0%nat; 1%nat]
              (init_base grid_3x4 2 sap_at_4_and_6 ∅ [])) as [self'|e] eqn:H.
  - refine (transition_tables_list_the_rules weathering [0%nat; 1%nat] _ _ _ H 1 _).
    + intros r Hr. apply elem_of_cons in Hr as [->|Hr].
      { eexists _, 1, 3. simpl. split; [reflexivity|]. repeat split. lia. }
      apply list_elem_of_singleton in Hr as ->.
      eexists _, 2, 3. simpl. split; [reflexivity|]. repeat split. lia.
    + simpl. lia.
  - vm_compute in H. discriminate H.
Defined.

(** [two_way] and [slow_two_way] hold the tables that
    [setup_transition_data] builds from the two lists of rules. *)
Lemma two_way_built :
  setup_transition_data branching [0%nat; 1%nat] at_start = Ok two_way
  ∧ setup_transition_data slow_branching [0%nat; 1%nat] at_start = Ok slow_two_way.
Proof. split; vm_compute; reflexivity. Qed.

Lemma event_without_target_is_due_never_witness :
  match @get_next_event tape_source after_first_event 6 2 1 tape_123 with
  | Ok (ev, g') =>
      Event.link ev = 6 ∧
      ∃ w, Event.time ev = (w + 1)%Q ∧
        (1 = 1 → ∃ x r, getitem2 (xn_to after_first_event) 2 0 = Ok x
                   ∧ Event.xn_to ev = Some x
                   ∧ getitem2 (xn_rate after_first_event) 2 0 = Ok r
                   ∧ tape_exponential r tape_123 = Ok (w, g')) ∧
        (1 ≠ 1 → (w <= _NEVER)%Q ∧ (Event.xn_to ev = None ↔ (w == _NEVER)%Q))
  | Raise _ => False
  end
  ∧ match @get_next_event tape_source two_way 5 1 0 tape_123 with
    | Ok (ev, g') =>
        Event.link ev = 5 ∧
        ∃ w, Event.time ev = (w + 0)%Q ∧
          (2 = 1 → ∃ x r, getitem2 (xn_to two_way) 1 0 = Ok x
                     ∧ Event.xn_to ev = Some x
                     ∧ getitem2 (xn_rate two_way) 1 0 = Ok r
                     ∧ tape_exponential r tape_123 = Ok (w, g')) ∧
          (2 ≠ 1 → (w <= _NEVER)%Q ∧ (Event.xn_to ev = None ↔ (w == _NEVER)%Q))
    | Raise _ => False
    end
  ∧ match @get_next_event tape_source slow_two_way 5 1 0 tape_123 with
    | Ok (ev, g') =>
        Event.link ev = 5 ∧
        ∃ w, Event.time ev = (w + 0)%Q ∧
          (2 = 1 → ∃ x r, getitem2 (xn_to slow_two_way) 1 0 = Ok x
                     ∧ Event.xn_to ev = Some x
                     ∧ getitem2 (xn_rate slow_two_way) 1 0 = Ok r
                     ∧ tape_exponential r tape_123 = Ok (w, g')) ∧
          (2 ≠ 1 → (w <= _NEVER)%Q ∧ (Event.xn_to ev = None ↔ (w == _NEVER)%Q))
    | Raise _ => False
    end.
Proof.
  split; [|split].
  - destruct (@get_next_event tape_source after_first_event 6 2 1 tape_123)
      as [[ev g']|e] eqn:H.
    + exact (@event_without_target_is_due_never tape_source after_first_event 6 2 1
               tape_123 ev g' 1 H eq_refl).
    + vm_compute in H. discriminate H.
  - destruct (@get_next_event tape_source two_way 5 1 0 tape_123)
      as [[ev g']|e] eqn:H.
    + exact (@event_without_target_is_due_never tape_source two_way 5 1 0
               tape_123 ev g' 2 H eq_refl).
    + vm_compute in H. discriminate H.
  - destruct (@get_next_event tape_source slow_two_way 5 1 0 tape_123)
      as [[ev g']|e] eqn:H.
    + exact (@event_without_target_is_due_never tape_source slow_two_way 5 1 0
               tape_123 ev g' 2 H eq_refl).
    + vm_compute in H. discriminate H.
Defined.

Lemma run_passes_duration_by_one_event_witness :
  match @run_loop_trace tape_source sorted_heapq 10 after_first_event (7 # 2) [] with
  | Ok (tr, self', g') =>
      run_guard self' (7 # 2) = false
      ∧ (tr = [] → self' = after_first_event ∧ g' = [])
      ∧ ∀ i e, tr !! i = Some e → is_Some (tr !! S i) → (Event.time e.1 < 7 # 2)%Q
  | Raise _ => False
  end.
Proof.
  destruct (@run_loop_trace tape_source sorted_heapq 10 after_first_event (7 # 2) [])
    as [[[tr self'] g']|e] eqn:H.
  - exact (run_passes_duration_by_one_event _ _ _ _ _ _ _ H).
  - vm_compute in H. discriminate H.
Defined.

Lemma transition_is_local_witness :
  match @do_transition tape_source sorted_heapq after_first_event
          (Event.mk 3 6 (Some 3)) 1 [] with
  | Ok (self', _) =>
      (∀ k, norm_index (length (node_state after_first_event)) 6 ≠ Some k →
            norm_index (length (node_state after_first_event)) 7 ≠ Some k →
            node_state self' !! k = node_state after_first_event !! k) ∧
      (∀ p, norm_index (length (link_state after_first_event)) 6 ≠ Some p →
            (∀ n links lnk, n = 6 ∨ n = 7 →
               column (node_active_links after_first_event) n = Ok links →
               lnk ∈ links → lnk ≠ -1 →
               norm_index (length (link_state after_first_event)) lnk ≠ Some p) →
            link_state self' !! p = link_state after_first_event !! p
            ∧ next_update self' !! p = next_update after_first_event !! p)
  | Raise _ => False
  end.
Proof.
  destruct (@do_transition tape_source sorted_heapq after_first_event
              (Event.mk 3 6 (Some 3)) 1 []) as [[self' g']|e] eqn:H.
  - exact (@transition_is_local tape_source sorted_heapq after_first_event
             (Event.mk 3 6 (Some 3)) 1 [] self' g'
             6 7 eq_refl H eq_refl eq_refl).
  - vm_compute in H. discriminate H.
Defined.

Lemma run_in_two_calls_is_one_run_witness :
  (2 <= 7 # 2)%Q ∧
  match @run tape_source sorted_heapq 10 after_first_event 2 None [] with
  | Ok (s1, g1) =>
      match @run tape_source sorted_heapq 10 s1 (7 # 2) None g1 with
      | Ok (s2, g2) =>
          @run tape_source sorted_heapq (10 + 10) after_first_event (7 # 2) None []
          = Ok (s2, g2)
      | Raise _ => False
      end
  | Raise _ => False
  end.
Proof.
  assert (Hle : (2 <= 7 # 2)%Q) by (unfold Qle; simpl; lia).
  split; [exact Hle|].
  destruct (@run tape_source sorted_heapq 10 after_first_event 2 None [])
    as [[s1 g1]|e] eqn:H1.
  - destruct (@run tape_source sorted_heapq 10 s1 (7 # 2) None g1)
      as [[s2 g2]|e] eqn:H2.
    + exact (run_in_two_calls_is_one_run _ _ _ _ _ _ _ _ _ _ _ Hle H1 H2).
    + vm_compute in H1. injection H1 as <- <-. vm_compute in H2. discriminate H2.
  - vm_compute in H1. discriminate H1.
Defined.

Lemma init_accepts_only_triples_of_the_codec_witness :
  match @__init__ tape_source sorted_heapq grid_3x4 two_states weathering_tuples
          [0%nat; 1%nat] sap_at_4_and_6 tape_123 with
  | Ok _ =>
      ∃ t p q, weathering_tuples !! 1%nat = Some t
        ∧ from_state t = PTuple [p.1.1; p.1.2; p.2]
        ∧ in_domain (Z.of_nat (size two_states)) p
        ∧ to_state t = PTuple [q.1.1; q.1.2; q.2]
        ∧ in_domain (Z.of_nat (size two_states)) q
  | Raise _ => False
  end.
Proof.
  destruct (@__init__ tape_source sorted_heapq grid_3x4 two_states weathering_tuples
              [0%nat; 1%nat] sap_at_4_and_6 tape_123) as [[[self σ'] g']|e] eqn:H.
  - refine (init_accepts_only_triples_of_the_codec _ _ _ _ _ _ _ _ _ H _ 1%nat _).
    + exists 0%nat, (mkTransition (PTuple [0; 1; 0]) (PTuple [1; 1; 0]) 1
                       (Some "weathering"%string)).
      split; [reflexivity|]. split; reflexivity.
    + apply list_elem_of_further, list_elem_of_here.
  - vm_compute in H. discriminate H.
Defined.

Lemma init_accepts_ids_that_index_the_tables_witness :
  match @__init__ tape_source sorted_heapq grid_3x4 two_states below_zero
          [0%nat] sap_at_4_and_6 tape_123 with
  | Ok (self, _, _) =>
      ∃ t a b, below_zero !! 0%nat = Some t ∧ from_state t = PInt a
        ∧ to_state t = PInt b
        ∧ - num_link_states self <= a < num_link_states self
        ∧ - 2 ^ 63 <= b < num_link_states self
  | Raise _ => False
  end.
Proof.
  destruct (@__init__ tape_source sorted_heapq grid_3x4 two_states below_zero
              [0%nat] sap_at_4_and_6 tape_123) as [[[self σ'] g']|e] eqn:H.
  - refine (init_accepts_ids_that_index_the_tables _ _ _ _ _ _ _ _ _ H _ 0%nat _).
    + exists 0%nat, (mkTransition (PInt (-1)) (PInt (-9)) 1 None).
      split; [reflexivity|]. split; reflexivity.
    + apply list_elem_of_here.
  - vm_compute in H. discriminate H.
Defined.

Lemma applied_event_takes_effect_witness :
  match @do_transition tape_source sorted_heapq at_start (Event.mk 1 5 (Some 3)) 0
          [(3%N, 1%positive)] with
  | Ok (self', _) =>
      ∃ k p, Some 3 = Some k ∧ getitem (cell_pair at_start) k = Ok p
        ∧ getitem (node_state self') 5 = Ok p.1.1
        ∧ getitem (node_state self') 6 = Ok p.1.2
        ∧ getitem (link_state self') 5 = Ok k
  | Raise _ => False
  end.
Proof.
  destruct (@do_transition tape_source sorted_heapq at_start (Event.mk 1 5 (Some 3)) 0
              [(3%N, 1%positive)]) as [[self' g']|e] eqn:H.
  - refine (@applied_event_takes_effect tape_source sorted_heapq at_start
              (Event.mk 1 5 (Some 3)) 0
              [(3%N, 1%positive)] self' g' 5 6 _ eq_refl eq_refl eq_refl _
              eq_refl eq_refl eq_refl eq_refl _ H).
    + vm_compute. reflexivity.
    + simpl. lia.
    + vm_compute. reflexivity.
  - vm_compute in H. discriminate H.
Defined.

Lemma init_queues_one_event_per_link_witness :
  match @__init__ tape_source sorted_heapq grid_3x4 two_states weathering
          [0%nat; 1%nat] sap_at_6 tape_123 with
  | Ok (self, _, _) =>
      Permutation (Event.link <$> event_queue self)
        (filter (λ l, has_transition self l = true)
           (range (number_of_active_links (grid self))))
  | Raise _ => False
  end.
Proof.
  destruct (@__init__ tape_source sorted_heapq grid_3x4 two_states weathering
              [0%nat; 1%nat] sap_at_6 tape_123) as [[[self σ'] g']|e] eqn:H.
  - exact (init_queues_one_event_per_link sorted_by_time _ _ _ _ _ _ _ _ _
             sorted_heapq_ok H).
  - vm_compute in H. discriminate H.
Defined.
